(** * BTL: parent-linked red-black and AVL trees

    A shallow embedding of [rbtree.h] and [avltree.h].  Nodes live in a
    heap indexed by addresses; every pointer dereference of the C++ code
    is an explicit heap lookup that faults on [nullptr] and on freed
    nodes.  Loops take a fuel argument. *)

From stdpp Require Import gmap list sorting.
From Stdlib Require Import ZArith Lia FunInd.

Local Open Scope Z_scope.

(** ** Results of running code *)

Inductive result (A : Type) : Type :=
| Ok (a : A)
| Fault        (* nullptr or freed node dereferenced *)
| OutOfFuel.   (* the loop bound of the model was reached *)

Arguments Ok {A} a.
Arguments Fault {A}.
Arguments OutOfFuel {A}.

Definition bind {A B : Type} (c : result A) (f : A → result B) : result B :=
  match c with
  | Ok a => f a
  | Fault => Fault
  | OutOfFuel => OutOfFuel
  end.

Declare Scope result_scope.
Delimit Scope result_scope with result.
Notation "x ← y ; z" := (bind y (λ x, z))
  (at level 20, y at level 100, z at level 200, only parsing) : result_scope.
Notation "' x ← y ; z" := (bind y (λ x, z))
  (at level 20, x pattern, y at level 100, z at level 200, only parsing) : result_scope.
Local Open Scope result_scope.

(** ** Memory *)

Definition addr := positive.
Definition ptr := option addr.     (* [None] is [nullptr] *)

Definition is_null (p : ptr) : bool :=
  match p with None => true | Some _ => false end.

Definition ptr_eqb (p q : ptr) : bool := bool_decide (p = q).

(** A tree node: [class Node] of both headers, for items of type [K]
    (the template parameter).  [meta] is the balance metadata: the
    [color] of a red-black node, the [balanceFactor] of an AVL node. *)
Record Node (K M : Type) : Type := mkNode {
  item : K;
  meta : M;
  left : ptr;
  right : ptr;
  parent : ptr
}.

Arguments mkNode {K M} _ _ _ _ _.
Arguments item {K M} _.
Arguments meta {K M} _.
Arguments left {K M} _.
Arguments right {K M} _.
Arguments parent {K M} _.

(** The tree object: its [root] member, and the nodes allocated so far. *)
Record Tree (K M : Type) : Type := mkTree {
  heap : gmap addr (Node K M);
  root : ptr
}.

Arguments mkTree {K M} _ _.
Arguments heap {K M} _.
Arguments root {K M} _.

Section Memory.
Context {K M : Type}.

Definition set_item (v : K) (n : Node K M) : Node K M :=
  mkNode v (meta n) (left n) (right n) (parent n).
Definition set_meta (v : M) (n : Node K M) : Node K M :=
  mkNode (item n) v (left n) (right n) (parent n).
Definition set_left (v : ptr) (n : Node K M) : Node K M :=
  mkNode (item n) (meta n) v (right n) (parent n).
Definition set_right (v : ptr) (n : Node K M) : Node K M :=
  mkNode (item n) (meta n) (left n) v (parent n).
Definition set_parent (v : ptr) (n : Node K M) : Node K M :=
  mkNode (item n) (meta n) (left n) (right n) v.

(** [p->f] *)
Definition get {X : Type} (f : Node K M → X) (t : Tree K M) (p : ptr) : result X :=
  match p with
  | None => Fault
  | Some a =>
      match heap t !! a with
      | Some n => Ok (f n)
      | None => Fault
      end
  end.

(** [p->f = v], where [upd] is the setter of field [f] *)
Definition put (upd : Node K M → Node K M) (t : Tree K M) (p : ptr) : result (Tree K M) :=
  match p with
  | None => Fault
  | Some a =>
      match heap t !! a with
      | Some n => Ok (mkTree (<[a := upd n]> (heap t)) (root t))
      | None => Fault
      end
  end.

Definition set_root (t : Tree K M) (p : ptr) : Tree K M := mkTree (heap t) p.

(** [new Node(item)]: some address that is not in use *)
Definition new_node (t : Tree K M) (n : Node K M) : Tree K M * addr :=
  let a := fresh (dom (heap t)) in
  (mkTree (<[a := n]> (heap t)) (root t), a).

(** [delete p] *)
Definition delete_node (t : Tree K M) (p : ptr) : result (Tree K M) :=
  match p with
  | None => Ok t
  | Some a =>
      match heap t !! a with
      | Some _ => Ok (mkTree (delete a (heap t)) (root t))
      | None => Fault
      end
  end.
End Memory.

(** ** Traversal: the iterators, which both headers spell out identically *)

Section Traversal.
Context {K M : Type}.
Implicit Types (t : Tree K M) (p : ptr).

(** [while (current->left != nullptr) current = current->left;] *)
Fixpoint descend_left (fuel : nat) t (current : ptr) : result ptr :=
  match fuel with
  | O => OutOfFuel
  | S fuel =>
      l ← get left t current;
      if is_null l then Ok current else descend_left fuel t l
  end.

(** [while (current->parent != nullptr && current->parent->right == current)
       current = current->parent;] *)
Fixpoint ascend_right (fuel : nat) t (current : ptr) : result ptr :=
  match fuel with
  | O => OutOfFuel
  | S fuel =>
      p ← get parent t current;
      if is_null p then Ok current
      else
        pr ← get right t p;
        if ptr_eqb pr current then ascend_right fuel t p else Ok current
  end.

(** [ConstIterator::ConstIterator(Node* current_)] (the AVL constructor
    takes the tree and starts from its root) *)
Definition ConstIterator_new (fuel : nat) t (current_ : ptr) : result ptr :=
  if is_null current_ then Ok None else descend_left fuel t current_.

(** [ConstIterator::operator++] *)
Definition ConstIterator_incr (fuel : nat) t (current : ptr) : result ptr :=
  r ← get right t current;
  if negb (is_null r) then descend_left fuel t r
  else
    c ← ascend_right fuel t current;
    get parent t c.

Definition begin (fuel : nat) t : result ptr := ConstIterator_new fuel t (root t).
Definition end_ : ptr := None.

(** [for (itr = begin(); itr != end(); ++itr) out.Append(itr.GetNode())] *)
Fixpoint inorder_from (fuel : nat) t (itr : ptr) : result (list addr) :=
  match fuel with
  | O => OutOfFuel
  | S fuel' =>
      match itr with
      | None => Ok []
      | Some a =>
          nxt ← ConstIterator_incr fuel t itr;
          rest ← inorder_from fuel' t nxt;
          Ok (a :: rest)
      end
  end.

Definition inorder_nodes (fuel : nat) t : result (list addr) :=
  itr ← begin fuel t;
  inorder_from fuel t itr.

(** [*itr] for each element of a list of iterator positions *)
Fixpoint items_of t (l : list addr) : result (list K) :=
  match l with
  | [] => Ok []
  | a :: l =>
      x ← get item t (Some a);
      xs ← items_of t l;
      Ok (x :: xs)
  end.

(** [for (auto& x : tree) out.Append(x)] *)
Definition inorder_items (fuel : nat) t : result (list K) :=
  l ← inorder_nodes fuel t;
  items_of t l.
End Traversal.

(** ** Postorder iteration: [ConstPostorder::Iterator] *)

Record PostIter : Type := mkPostIter {
  current : ptr;
  next : ptr;            (* fetched before [current] is handed out *)
  downwardPhase : bool
}.

Section Postorder.
Context {K M : Type}.
Implicit Types (t : Tree K M) (it : PostIter).

(** The [while (next != nullptr)] loop of [operator++] *)
Fixpoint Postorder_advance (fuel : nat) t it : result PostIter :=
  match fuel with
  | O => OutOfFuel
  | S fuel' =>
      if is_null (next it) then Ok it
      else if downwardPhase it then
        r ← get right t (next it);
        if negb (is_null r) then
          n ← descend_left fuel t r;
          Postorder_advance fuel' t (mkPostIter (current it) n true)
        else
          Postorder_advance fuel' t (mkPostIter (current it) (next it) false)
      else
        p ← get parent t (next it);
        stay ← (if is_null p then Ok false
                else pr ← get right t p; Ok (ptr_eqb pr (next it)));
        (* visit *)
        Ok (mkPostIter (next it) p (negb stay))
  end.

(** [ConstPostorder::Iterator::operator++] *)
Definition Postorder_incr (fuel : nat) t it : result PostIter :=
  let it := if is_null (next it)
            then mkPostIter None (next it) (downwardPhase it)  (* We're at the end. *)
            else it in
  Postorder_advance fuel t it.

(** [ConstPostorder::Iterator::Iterator(Node* current_)] *)
Definition Postorder_new (fuel : nat) t (current_ : ptr) : result PostIter :=
  if is_null current_ then Ok (mkPostIter None None true)
  else
    n ← descend_left fuel t current_;
    Postorder_incr fuel t (mkPostIter None n true).

Definition Postorder_begin (fuel : nat) t : result PostIter :=
  Postorder_new fuel t (root t).
Definition Postorder_end : PostIter := mkPostIter None None true.

(** [operator!=] *)
Definition Postorder_neq (a b : PostIter) : bool :=
  negb (ptr_eqb (current a) (current b) && ptr_eqb (next a) (next b)
        && Bool.eqb (downwardPhase a) (downwardPhase b)).

(** [for (itr = ConstPostorder(tree).begin(); itr != end(); ++itr)
       out.Append(itr.GetNode())] *)
Fixpoint postorder_from (fuel : nat) t it : result (list ptr) :=
  match fuel with
  | O => OutOfFuel
  | S fuel' =>
      if Postorder_neq it Postorder_end then
        it' ← Postorder_incr fuel t it;
        rest ← postorder_from fuel' t it';
        Ok (current it :: rest)
      else Ok []
  end.

Definition postorder_nodes (fuel : nat) t : result (list ptr) :=
  it ← Postorder_begin fuel t;
  postorder_from fuel t it.

(** The loop of [Clear] and of the destructor:
    [for (itr = begin(); itr != end(); ++itr) delete itr.GetNode();] *)
Fixpoint Clear_loop (fuel : nat) t it : result (Tree K M) :=
  match fuel with
  | O => OutOfFuel
  | S fuel' =>
      if Postorder_neq it Postorder_end then
        t ← delete_node t (current it);
        it' ← Postorder_incr fuel t it;
        Clear_loop fuel' t it'
      else Ok t
  end.

(** [Clear] *)
Definition Clear (fuel : nat) t : result (Tree K M) :=
  it ← Postorder_begin fuel t;
  t ← Clear_loop fuel t it;
  Ok (set_root t None).

(** The default constructor: [root(nullptr)] *)
Definition empty_tree : Tree K M := mkTree ∅ None.
End Postorder.

Section Search.
Context {M : Type}.
Implicit Types (t : Tree Z M).

(** [Search] *)
Fixpoint Search_from (fuel : nat) t (x : Z) (current : ptr) : result bool :=
  match fuel with
  | O => OutOfFuel
  | S fuel =>
      if is_null current then Ok false
      else
        i ← get item t current;
        if i =? x then Ok true
        else if x <? i then l ← get left t current; Search_from fuel t x l
        else r ← get right t current; Search_from fuel t x r
  end.

Definition Search (fuel : nat) t (x : Z) : result bool :=
  Search_from fuel t x (root t).
End Search.

(** ** Red-black tree: [rbtree.h] *)

Module RBTree.

Inductive RBColor : Type := Red | Black.

Definition color_eqb (c d : RBColor) : bool :=
  match c, d with
  | Red, Red | Black, Black => true
  | _, _ => false
  end.

Abbreviation color := (@meta Z RBColor).
Abbreviation set_color := (@set_meta Z RBColor).
Abbreviation T := (Tree Z RBColor).

(** [Node::Node(const T& item)] *)
Definition Node_new (x : Z) : Node Z RBColor := mkNode x Red None None None.

(** [p != nullptr && p->color == Red] *)
Definition is_red (t : T) (p : ptr) : result bool :=
  if is_null p then Ok false
  else c ← get color t p; Ok (color_eqb c Red).

(** [p == nullptr || p->color == Black] *)
Definition null_or_black (t : T) (p : ptr) : result bool :=
  if is_null p then Ok true
  else c ← get color t p; Ok (color_eqb c Black).

(** [LeftRotate] *)
Definition LeftRotate (t : T) (x : ptr) : result T :=
  y ← get right t x;
  yl ← get left t y;
  t ← put (set_right yl) t x;
  t ← (if negb (is_null yl) then put (set_parent x) t yl else Ok t);
  xp ← get parent t x;
  t ← put (set_parent xp) t y;
  t ← (if is_null xp then Ok (set_root t y)
       else
         xpl ← get left t xp;
         if ptr_eqb x xpl then put (set_left y) t xp
         else put (set_right y) t xp);
  t ← put (set_left x) t y;
  put (set_parent y) t x.

(** [RightRotate] *)
Definition RightRotate (t : T) (x : ptr) : result T :=
  y ← get left t x;
  yr ← get right t y;
  t ← put (set_left yr) t x;
  t ← (if negb (is_null yr) then put (set_parent x) t yr else Ok t);
  xp ← get parent t x;
  t ← put (set_parent xp) t y;
  t ← (if is_null xp then Ok (set_root t y)
       else
         xpr ← get right t xp;
         if ptr_eqb x xpr then put (set_right y) t xp
         else put (set_left y) t xp);
  t ← put (set_right x) t y;
  put (set_parent y) t x.

(** The [while] loop of [InsertFixup] *)
Fixpoint InsertFixup_loop (fuel : nat) (t : T) (z : ptr) : result T :=
  match fuel with
  | O => OutOfFuel
  | S fuel =>
      go ← (if ptr_eqb z (root t) then Ok false
            else zp ← get parent t z; c ← get color t zp; Ok (color_eqb c Red));
      if negb go then Ok t
      else
        zp ← get parent t z;
        zpp ← get parent t zp;
        zppl ← get left t zpp;
        if ptr_eqb zp zppl then
          y ← get right t zpp;                       (* uncle *)
          yred ← is_red t y;
          if yred then
            t ← put (set_color Black) t zp;
            t ← put (set_color Black) t y;
            zpp ← bind (get parent t z) (get parent t);
            t ← put (set_color Red) t zpp;
            z ← bind (get parent t z) (get parent t);
            InsertFixup_loop fuel t z
          else
            zpr ← get right t zp;
            '(t, z) ← (if ptr_eqb z zpr then
                         t ← LeftRotate t zp; Ok (t, zp)
                       else Ok (t, z));
            zp ← get parent t z;
            t ← put (set_color Black) t zp;
            zpp ← bind (get parent t z) (get parent t);
            t ← put (set_color Red) t zpp;
            zpp ← bind (get parent t z) (get parent t);
            t ← RightRotate t zpp;
            InsertFixup_loop fuel t z
        else
          y ← get left t zpp;                        (* uncle *)
          yred ← is_red t y;
          if yred then
            t ← put (set_color Black) t zp;
            t ← put (set_color Black) t y;
            zpp ← bind (get parent t z) (get parent t);
            t ← put (set_color Red) t zpp;
            z ← bind (get parent t z) (get parent t);
            InsertFixup_loop fuel t z
          else
            zpl ← get left t zp;
            '(t, z) ← (if ptr_eqb z zpl then
                         t ← RightRotate t zp; Ok (t, zp)
                       else Ok (t, z));
            zp ← get parent t z;
            t ← put (set_color Black) t zp;
            zpp ← bind (get parent t z) (get parent t);
            t ← put (set_color Red) t zpp;
            zpp ← bind (get parent t z) (get parent t);
            t ← LeftRotate t zpp;
            InsertFixup_loop fuel t z
  end.

(** [InsertFixup] *)
Definition InsertFixup (fuel : nat) (t : T) (z : ptr) : result T :=
  t ← InsertFixup_loop fuel t z;
  put (set_color Black) t (root t).

(** The descent of [Insert]: [Some previous] where the new node goes,
    [None] when an equal item is met. *)
Fixpoint Insert_descend (fuel : nat) (t : T) (x : Z) (current previous : ptr)
  : result (option ptr) :=
  match fuel with
  | O => OutOfFuel
  | S fuel =>
      if is_null current then Ok (Some previous)
      else
        i ← get item t current;
        if x <? i then l ← get left t current; Insert_descend fuel t x l current
        else if x >? i then r ← get right t current; Insert_descend fuel t x r current
        else Ok None      (* They're equal. *)
  end.

(** [Insert] *)
Definition Insert (fuel : nat) (t : T) (x : Z) : result T :=
  let current := root t in
  let '(t, a) := new_node t (Node_new x) in
  let node := Some a in
  d ← Insert_descend fuel t x current None;
  match d with
  | None => delete_node t node
  | Some previous =>
      t ← put (set_parent previous) t node;
      t ← (if is_null previous then Ok (set_root t node)
           else
             i ← get item t previous;
             if x <? i then put (set_left node) t previous
             else put (set_right node) t previous);
      InsertFixup fuel t node
  end.

(** One side of the body of the loop of [RemoveFixup].  [near] and [far]
    are the child fields of the sibling towards and away from [x];
    [rot_up] rotates [x]'s parent towards [x], [rot_sib] rotates the
    sibling away from [x].  Returns the tree and the next [x]. *)
Definition RemoveFixup_side
    (near far : Node Z RBColor → ptr)
    (rot_up rot_sib : T → ptr → result T)
    (t : T) (x : ptr) : result (T * ptr) :=
  y ← bind (get parent t x) (get far t);
  yc ← get color t y;
  '(t, y) ← (if color_eqb yc Red then
               (* Case 1 *)
               t ← put (set_color Black) t y;
               xp ← get parent t x;
               t ← put (set_color Red) t xp;
               xp ← get parent t x;
               t ← rot_up t xp;
               y ← bind (get parent t x) (get far t);
               Ok (t, y)
             else Ok (t, y)) : result (T * ptr);
  nb ← bind (get near t y) (null_or_black t);
  both ← (if nb then bind (get far t y) (null_or_black t) else Ok false);
  if both then
    (* Case 2 *)
    t ← put (set_color Red) t y;
    x ← get parent t x;
    Ok (t, x)
  else
    fb ← bind (get far t y) (null_or_black t);
    '(t, y) ← (if fb then
                 (* Case 3 *)
                 yn ← get near t y;
                 t ← (if negb (is_null yn) then put (set_color Black) t yn else Ok t);
                 t ← put (set_color Red) t y;
                 t ← rot_sib t y;
                 y ← bind (get parent t x) (get far t);
                 Ok (t, y)
               else Ok (t, y)) : result (T * ptr);
    (* Case 4 *)
    xpc ← bind (get parent t x) (get color t);
    t ← put (set_color xpc) t y;
    xpp ← bind (get parent t x) (get parent t);
    t ← (if negb (is_null xpp) then put (set_color Black) t xpp else Ok t);
    yf ← get far t y;
    t ← put (set_color Black) t yf;
    xp ← get parent t x;
    t ← rot_up t xp;
    Ok (set_root t x, x).     (* root = x; *)

(** The [while] loop of [RemoveFixup]; returns the tree and the final [x]. *)
Fixpoint RemoveFixup_loop (fuel : nat) (t : T) (x : ptr) : result (T * ptr) :=
  match fuel with
  | O => OutOfFuel
  | S fuel =>
      go ← (if ptr_eqb x (root t) then Ok false
            else c ← get color t x; Ok (color_eqb c Black));
      if negb go then Ok (t, x)
      else
        xpl ← bind (get parent t x) (get left t);
        '(t, x) ← (if ptr_eqb x xpl
                   then RemoveFixup_side left right LeftRotate RightRotate t x
                   else RemoveFixup_side right left RightRotate LeftRotate t x);
        RemoveFixup_loop fuel t x
  end.

(** [RemoveFixup] *)
Definition RemoveFixup (fuel : nat) (t : T) (x : ptr) : result T :=
  '(t, x) ← RemoveFixup_loop fuel t x;
  put (set_color Black) t x.

(** The descent of [Remove]: the node holding [x], or [nullptr]. *)
Fixpoint Remove_find (fuel : nat) (t : T) (x : Z) (current : ptr) : result ptr :=
  match fuel with
  | O => OutOfFuel
  | S fuel =>
      if is_null current then Ok None
      else
        i ← get item t current;
        if i =? x then Ok current
        else if x <? i then l ← get left t current; Remove_find fuel t x l
        else r ← get right t current; Remove_find fuel t x r
  end.

(** [current] has one child [child]: put it in [current]'s place. *)
Definition Remove_one_child (t : T) (current child : ptr) : result (T * ptr) :=
  if ptr_eqb current (root t) then
    let t := set_root t child in
    t ← put (set_parent None) t child;
    Ok (t, root t)
  else
    cp ← get parent t current;
    cpl ← get left t cp;
    t ← (if ptr_eqb cpl current then put (set_left child) t cp
         else put (set_right child) t cp);
    cp ← get parent t current;
    t ← put (set_parent cp) t child;
    Ok (t, child).

(** [Remove] up to, and without, [if (balancePoint != nullptr && ...)]:
    the structural removal.  Returns the tree and [balancePoint]. *)
Definition Remove_unlink (fuel : nat) (t : T) (current : ptr) : result (T * ptr) :=
  cl ← get left t current;
  cr ← get right t current;
  if is_null cl && is_null cr then
    (* We're removing a bottom-most node. *)
    if ptr_eqb current (root t) then Ok (set_root t None, None)
    else
      cp ← get parent t current;
      cpl ← get left t cp;
      t ← (if ptr_eqb cpl current then put (set_left None) t cp
           else put (set_right None) t cp);
      Ok (t, None)
  else if negb (is_null cl) && is_null cr then
    Remove_one_child t current cl
  else if is_null cl && negb (is_null cr) then
    Remove_one_child t current cr
  else
    (* current has both left and right children *)
    replacement ← descend_left fuel t cr;
    t ← put (set_left cl) t replacement;
    t ← put (set_parent replacement) t cl;
    temp ← get color t replacement;
    cc ← get color t current;
    t ← put (set_color cc) t replacement;
    t ← put (set_color temp) t current;
    balancePoint ← get right t replacement;
    rp ← get parent t replacement;
    t ← (if negb (ptr_eqb rp current) then
           rr ← get right t replacement;
           t ← put (set_left rr) t rp;
           cr ← get right t current;
           t ← put (set_right cr) t replacement;
           put (set_parent replacement) t cr
         else Ok t);
    t ← (if ptr_eqb current (root t) then
           put (set_parent None) (set_root t replacement) replacement
         else
           cp ← get parent t current;
           cpl ← get left t cp;
           t ← (if ptr_eqb cpl current then put (set_left replacement) t cp
                else put (set_right replacement) t cp);
           cp ← get parent t current;
           put (set_parent cp) t replacement);
    Ok (t, balancePoint).

(** The guard of the call of [RemoveFixup] in [Remove]:
    [balancePoint != nullptr && current->color == Node::RBColor::Black] *)
Definition Remove_needs_fixup (t : T) (current balancePoint : ptr) : result bool :=
  if negb (is_null balancePoint) then
    c ← get color t current; Ok (color_eqb c Black)
  else Ok false.

(** [Remove] *)
Definition Remove (fuel : nat) (t : T) (x : Z) : result T :=
  current ← Remove_find fuel t x (root t);
  if is_null current then Ok t     (* The tree doesn't contain the specified item. *)
  else
    '(t, balancePoint) ← Remove_unlink fuel t current;
    fix_ ← Remove_needs_fixup t current balancePoint;
    t ← (if fix_ then RemoveFixup fuel t balancePoint else Ok t);
    delete_node t current.

(** Check #4 of [IsValid] at one node: is it red with a red child? *)
Definition red_with_red_child (t : T) (current : ptr) : result bool :=
  c ← get color t current;
  if color_eqb c Red then
    l ← get left t current;
    lred ← is_red t l;
    if lred then Ok true
    else r ← get right t current; is_red t r
  else Ok false.

(** The first loop of [IsValid]; [false] is its [return false]. *)
Fixpoint IsValid_red_loop (fuel : nat) (t : T) (itr : ptr) : result bool :=
  match fuel with
  | O => OutOfFuel
  | S fuel' =>
      if is_null itr then Ok true
      else
        bad ← red_with_red_child t itr;
        if bad then Ok false
        else
          itr ← ConstIterator_incr fuel t itr;
          IsValid_red_loop fuel' t itr
  end.

(** [while (ancestor != nullptr)]: ascend the tree counting black nodes. *)
Fixpoint count_black (fuel : nat) (t : T) (ancestor : ptr) (blackNodeCount : Z)
  : result Z :=
  match fuel with
  | O => OutOfFuel
  | S fuel =>
      if is_null ancestor then Ok blackNodeCount
      else
        c ← get color t ancestor;
        p ← get parent t ancestor;
        count_black fuel t p
          (if color_eqb c Black then blackNodeCount + 1 else blackNodeCount)
  end.

(** The second loop of [IsValid], over the postorder iterator. *)
Fixpoint IsValid_black_loop (fuel : nat) (t : T) (itr : PostIter) (mainCount : Z)
  : result bool :=
  match fuel with
  | O => OutOfFuel
  | S fuel' =>
      if Postorder_neq itr Postorder_end then
        l ← get left t (current itr);
        r ← get right t (current itr);
        if negb (is_null l) || negb (is_null r) then
          (* continue *)
          itr ← Postorder_incr fuel t itr;
          IsValid_black_loop fuel' t itr mainCount
        else
          blackNodeCount ← count_black fuel t (current itr) 0;
          if mainCount =? -1 then
            itr ← Postorder_incr fuel t itr;
            IsValid_black_loop fuel' t itr blackNodeCount
          else if negb (blackNodeCount =? mainCount) then Ok false
          else
            itr ← Postorder_incr fuel t itr;
            IsValid_black_loop fuel' t itr mainCount
      else Ok true
  end.

(** [IsValid] *)
Definition IsValid (fuel : nat) (t : T) : result bool :=
  rootred ← (if negb (is_null (root t)) then
               c ← get color t (root t); Ok (negb (color_eqb c Black))
             else Ok false);
  if rootred then Ok false
  else
    itr ← begin fuel t;
    ok ← IsValid_red_loop fuel t itr;
    if negb ok then Ok false
    else
      itr ← Postorder_begin fuel t;
      IsValid_black_loop fuel t itr (-1).

(** The loop of [Intersect], against a container [other] of items of
    type [U] whose iterator is the parent-linked inorder iterator;
    [eqTU] and [ltTU] are [operator==] and [operator<] between an item
    of this tree and an item of [other]. *)
Fixpoint Intersect_loop {U M' : Type} (eqTU ltTU : Z → U → bool)
    (fuel : nat) (t : T) (other : Tree U M') (left_ right_ : ptr)
    (intersectionTree : T) : result T :=
  match fuel with
  | O => OutOfFuel
  | S fuel' =>
      if negb (is_null left_) && negb (is_null right_) then
        l ← get item t left_;
        r ← get item other right_;
        if eqTU l r then
          intersectionTree ← Insert fuel intersectionTree l;
          left_ ← ConstIterator_incr fuel t left_;
          right_ ← ConstIterator_incr fuel other right_;
          Intersect_loop eqTU ltTU fuel' t other left_ right_ intersectionTree
        else if ltTU l r then
          left_ ← ConstIterator_incr fuel t left_;
          Intersect_loop eqTU ltTU fuel' t other left_ right_ intersectionTree
        else
          right_ ← ConstIterator_incr fuel other right_;
          Intersect_loop eqTU ltTU fuel' t other left_ right_ intersectionTree
      else Ok intersectionTree
  end.

(** [Intersect] *)
Definition Intersect {U M' : Type} (eqTU ltTU : Z → U → bool)
    (fuel : nat) (t : T) (other : Tree U M') : result T :=
  left_ ← begin fuel t;
  right_ ← begin fuel other;
  Intersect_loop eqTU ltTU fuel t other left_ right_ empty_tree.

(** Run a sequence of operations, as a caller does. *)
Inductive op : Type := Ins (x : Z) | Rem (x : Z).

Definition run_op (fuel : nat) (t : T) (o : op) : result T :=
  match o with
  | Ins x => Insert fuel t x
  | Rem x => Remove fuel t x
  end.

Fixpoint run (fuel : nat) (t : T) (ops : list op) : result T :=
  match ops with
  | [] => Ok t
  | o :: ops => t ← run_op fuel t o; run fuel t ops
  end.

End RBTree.

(** ** AVL tree: [avltree.h] *)

Module AVLTree.

Abbreviation balanceFactor := (@meta Z Z).
Abbreviation set_balanceFactor := (@set_meta Z Z).
Abbreviation T := (Tree Z Z).

(** [Node::Node(const T& item_)] *)
Definition Node_new (x : Z) : Node Z Z := mkNode x 0 None None None.

(** [p->balanceFactor += d] *)
Definition add_balanceFactor (d : Z) (t : T) (p : ptr) : result T :=
  b ← get balanceFactor t p;
  put (set_balanceFactor (b + d)) t p.

(** [Node::RightRotate], on the node [this]; returns the tree and [q]. *)
Definition RightRotate (t : T) (this : ptr) : result (T * ptr) :=
  q ← get left t this;
  if is_null q then Ok (t, None)   (* Shouldn't happen, but we guard against it here anyway. *)
  else
    qr ← get right t q;
    t ← put (set_left qr) t this;
    t ← (if negb (is_null qr) then put (set_parent this) t qr else Ok t);
    t ← put (set_right this) t q;
    tp ← get parent t this;
    t ← put (set_parent tp) t q;
    t ← put (set_parent q) t this;
    b ← get balanceFactor t this;
    qb ← get balanceFactor t q;
    let newBalanceThis := b + 1 - Z.min qb 0 in
    let newBalanceQ := qb + 1 + Z.max newBalanceThis 0 in
    t ← put (set_balanceFactor newBalanceThis) t this;
    t ← put (set_balanceFactor newBalanceQ) t q;
    Ok (t, q).

(** [Node::LeftRotate] *)
Definition LeftRotate (t : T) (this : ptr) : result (T * ptr) :=
  q ← get right t this;
  if is_null q then Ok (t, None)   (* Shouldn't happen, but we guard against it here anyway. *)
  else
    ql ← get left t q;
    t ← put (set_right ql) t this;
    t ← (if negb (is_null ql) then put (set_parent this) t ql else Ok t);
    t ← put (set_left this) t q;
    tp ← get parent t this;
    t ← put (set_parent tp) t q;
    t ← put (set_parent q) t this;
    b ← get balanceFactor t this;
    qb ← get balanceFactor t q;
    let newBalanceThis := b - 1 - Z.max qb 0 in
    let newBalanceQ := qb - 1 + Z.min newBalanceThis 0 in
    t ← put (set_balanceFactor newBalanceThis) t this;
    t ← put (set_balanceFactor newBalanceQ) t q;
    Ok (t, q).

(** [Node::DoubleRightRotate] *)
Definition DoubleRightRotate (t : T) (this : ptr) : result (T * ptr) :=
  l ← get left t this;
  if is_null l then Ok (t, None)
  else
    '(t, l') ← LeftRotate t l;
    t ← put (set_left l') t this;
    RightRotate t this.

(** [Node::DoubleLeftRotate] *)
Definition DoubleLeftRotate (t : T) (this : ptr) : result (T * ptr) :=
  r ← get right t this;
  if is_null r then Ok (t, None)
  else
    '(t, r') ← RightRotate t r;
    t ← put (set_right r') t this;
    LeftRotate t this.

(** [Node::Balance] *)
Definition Balance (t : T) (this : ptr) : result (T * ptr) :=
  b ← get balanceFactor t this;
  if b =? -2 then
    w ← get left t this;
    wb ← get balanceFactor t w;
    if wb =? 1 then DoubleRightRotate t this else RightRotate t this
  else if b =? 2 then
    w ← get right t this;
    wb ← get balanceFactor t w;
    if wb =? -1 then DoubleLeftRotate t this else LeftRotate t this
  else Ok (t, None).

(** 32-bit [unsigned int] arithmetic of [CalculateHeight], and the
    conversion of an [unsigned int] to [int]. *)
Definition u32 (z : Z) : Z := z mod 2 ^ 32.
Definition to_int (z : Z) : Z := if z <? 2 ^ 31 then z else z - 2 ^ 32.

(** [while (current->left != nullptr) { currentHeight++; current = current->left; }] *)
Fixpoint height_descend (fuel : nat) (t : T) (current : ptr) (currentHeight : Z)
  : result (ptr * Z) :=
  match fuel with
  | O => OutOfFuel
  | S fuel =>
      l ← get left t current;
      if is_null l then Ok (current, currentHeight)
      else height_descend fuel t l (u32 (currentHeight + 1))
  end.

(** [while (current->parent != nullptr && current->parent->right == current
           && current != this) { current = current->parent; currentHeight--; }] *)
Fixpoint height_ascend (fuel : nat) (t : T) (this current : ptr) (currentHeight : Z)
  : result (ptr * Z) :=
  match fuel with
  | O => OutOfFuel
  | S fuel =>
      p ← get parent t current;
      if is_null p then Ok (current, currentHeight)
      else
        pr ← get right t p;
        if ptr_eqb pr current && negb (ptr_eqb current this)
        then height_ascend fuel t this p (u32 (currentHeight - 1))
        else Ok (current, currentHeight)
  end.

(** The main loop of [CalculateHeight] *)
Fixpoint height_walk (fuel : nat) (t : T) (this stop current : ptr)
    (currentHeight maxHeight : Z) : result Z :=
  match fuel with
  | O => OutOfFuel
  | S fuel' =>
      if negb (is_null current) && negb (ptr_eqb current stop) then
        let maxHeight := if currentHeight >? maxHeight then currentHeight else maxHeight in
        r ← get right t current;
        if negb (is_null r) then
          '(current, currentHeight) ← height_descend fuel t r (u32 (currentHeight + 1));
          height_walk fuel' t this stop current currentHeight maxHeight
        else
          '(current, currentHeight) ← height_ascend fuel t this current currentHeight;
          p ← get parent t current;
          height_walk fuel' t this stop p (u32 (currentHeight - 1)) maxHeight
      else Ok maxHeight
  end.

(** [Node::CalculateHeight] *)
Definition CalculateHeight (fuel : nat) (t : T) (this : ptr) : result Z :=
  stop ← get parent t this;
  '(current, currentHeight) ← height_descend fuel t this 0;
  height_walk fuel t this stop current currentHeight 0.

(** The descent loop of [Insert].  Returns the tree, [balancePoint],
    [balancePointPredecessor] and [balanceFactorUpdateHead]. *)
Fixpoint Insert_descend (fuel : nat) (t : T) (x : Z) (node : ptr)
    (current previous balancePoint balancePointPredecessor balanceFactorUpdateHead : ptr)
  : result (T * ptr * ptr * ptr) :=
  match fuel with
  | O => OutOfFuel
  | S fuel =>
      i ← get item t current;
      b ← get balanceFactor t current;
      if x <? i then
        let '(balanceFactorUpdateHead, balancePoint) :=
          if b >? 0
          then (current, if negb (is_null balancePoint) then current else balancePoint)
          else (balanceFactorUpdateHead, balancePoint) in
        l ← get left t current;
        if is_null l then
          t ← put (set_left node) t current;
          t ← put (set_parent current) t node;
          Ok (t, balancePoint, balancePointPredecessor, balanceFactorUpdateHead)
        else
          let '(balancePointPredecessor, balancePoint) :=
            if b <? 0 then (previous, current)         (* going down the longer side *)
            else if b >? 0 then (None, None)           (* going down the shorter side *)
            else (balancePointPredecessor, balancePoint) in
          Insert_descend fuel t x node l current
            balancePoint balancePointPredecessor balanceFactorUpdateHead
      else if x >? i then
        let '(balanceFactorUpdateHead, balancePoint) :=
          if b <? 0
          then (current, if negb (is_null balancePoint) then current else balancePoint)
          else (balanceFactorUpdateHead, balancePoint) in
        r ← get right t current;
        if is_null r then
          t ← put (set_right node) t current;
          t ← put (set_parent current) t node;
          Ok (t, balancePoint, balancePointPredecessor, balanceFactorUpdateHead)
        else
          let '(balancePointPredecessor, balancePoint) :=
            if b >? 0 then (previous, current)         (* going down the longer side *)
            else if b <? 0 then (None, None)           (* going down the shorter side *)
            else (balancePointPredecessor, balancePoint) in
          Insert_descend fuel t x node r current
            balancePoint balancePointPredecessor balanceFactorUpdateHead
      else
        (* They're equal. *)
        t ← delete_node t node;
        Ok (t, None, balancePointPredecessor, None)
  end.

(** The [do ... while (balanceFactorUpdateHead != node)] loop of [Insert] *)
Fixpoint Insert_update (fuel : nat) (t : T) (x : Z) (node : ptr)
    (balanceFactorUpdateHead : ptr) : result T :=
  match fuel with
  | O => OutOfFuel
  | S fuel =>
      i ← get item t balanceFactorUpdateHead;
      '(t, h) ← (if x <? i then
                   t ← add_balanceFactor (-1) t balanceFactorUpdateHead;
                   l ← get left t balanceFactorUpdateHead;
                   Ok (t, l)
                 else
                   t ← add_balanceFactor 1 t balanceFactorUpdateHead;
                   r ← get right t balanceFactorUpdateHead;
                   Ok (t, r)) : result (T * ptr);
      if negb (ptr_eqb h node) then Insert_update fuel t x node h else Ok t
  end.

(** [Insert] *)
Definition Insert (fuel : nat) (t : T) (x : Z) : result T :=
  let root0 := root t in
  let '(t, a) := new_node t (Node_new x) in
  let node := Some a in
  if is_null root0 then Ok (set_root t node)
  else
    '(t, balancePoint, balancePointPredecessor, balanceFactorUpdateHead) ←
      Insert_descend fuel t x node root0 None None None root0;
    let balanceFactorUpdateHead :=
      if negb (is_null balancePoint) then balancePoint else balanceFactorUpdateHead in
    t ← (if negb (is_null balanceFactorUpdateHead)
         then Insert_update fuel t x node balanceFactorUpdateHead
         else Ok t);
    if negb (is_null balancePoint) then
      '(t, substituteNode) ← Balance t balancePoint;
      let t := if ptr_eqb (root t) balancePoint then set_root t substituteNode else t in
      if negb (is_null balancePointPredecessor) then
        t ← put (set_parent balancePointPredecessor) t substituteNode;
        pl ← get left t balancePointPredecessor;
        if ptr_eqb pl balancePoint
        then put (set_left substituteNode) t balancePointPredecessor
        else put (set_right substituteNode) t balancePointPredecessor
      else Ok t
    else Ok t.

(** The descent of [Remove]: the node holding [x], or [nullptr].
    ([balanceUpdateHead] is assigned in the source loop and never read.) *)
Fixpoint Remove_find (fuel : nat) (t : T) (x : Z) (current : ptr) : result ptr :=
  match fuel with
  | O => OutOfFuel
  | S fuel =>
      if is_null current then Ok None
      else
        i ← get item t current;
        if i =? x then Ok current
        else if x <? i then l ← get left t current; Remove_find fuel t x l
        else r ← get right t current; Remove_find fuel t x r
  end.

(** The loop under each "current's tree is shorter" comment of [Remove]:
    [do { ... predecessor = predecessor->parent; } while (1);] *)
Fixpoint shorten (fuel : nat) (t : T) (predecessor : ptr) : result T :=
  match fuel with
  | O => OutOfFuel
  | S fuel =>
      pp ← get parent t predecessor;
      if is_null pp then Ok t
      else
        ppl ← get left t pp;
        if ptr_eqb ppl predecessor then
          t ← add_balanceFactor 1 t pp;
          b ← get balanceFactor t pp;
          if b =? 1 then Ok t
          else pp ← get parent t predecessor; shorten fuel t pp
        else
          t ← add_balanceFactor (-1) t pp;
          b ← get balanceFactor t pp;
          if b =? -1 then Ok t
          else pp ← get parent t predecessor; shorten fuel t pp
  end.

(** [if (current->parent != nullptr && current->parent->balanceFactor == 0)]
    followed by the loop above, from [current->parent]. *)
Definition shorten_above (fuel : nat) (t : T) (current : ptr) : result T :=
  cp ← get parent t current;
  if is_null cp then Ok t
  else
    b ← get balanceFactor t cp;
    if b =? 0 then shorten fuel t cp else Ok t.

(** [current] is not the root and [child] (possibly [nullptr]) takes its
    place. Returns the tree and [balancePoint]. *)
Definition Remove_replace_below (t : T) (current child : ptr) : result (T * ptr) :=
  cp ← get parent t current;
  cpl ← get left t cp;
  if ptr_eqb cpl current then
    t ← put (set_left child) t cp;
    t ← add_balanceFactor 1 t cp;
    t ← (if negb (is_null child) then put (set_parent cp) t child else Ok t);
    Ok (t, cp)
  else
    t ← put (set_right child) t cp;
    t ← add_balanceFactor (-1) t cp;
    t ← (if negb (is_null child) then put (set_parent cp) t child else Ok t);
    Ok (t, cp).

(** The walk to the minimum of the right subtree in the two-children
    case of [Remove]; returns [replacement] and
    [replacementIncludesBottomMost]. *)
Fixpoint Remove_successor (fuel : nat) (t : T) (replacement : ptr)
    (replacementIncludesBottomMost : bool) : result (ptr * bool) :=
  match fuel with
  | O => OutOfFuel
  | S fuel =>
      l ← get left t replacement;
      if is_null l then Ok (replacement, replacementIncludesBottomMost)
      else
        b ← get balanceFactor t replacement;
        Remove_successor fuel t l
          (if b >=? 0 then false else replacementIncludesBottomMost)
  end.

(** [Remove] up to [delete current]: the structural removal.  Returns
    the tree and [balancePoint]. *)
Definition Remove_unlink (fuel : nat) (t : T) (current : ptr) : result (T * ptr) :=
  cl ← get left t current;
  cr ← get right t current;
  if is_null cl && is_null cr then
    (* We're removing a bottom-most node. *)
    '(t, balancePoint) ← (if ptr_eqb current (root t) then Ok (set_root t None, None)
                          else Remove_replace_below t current None);
    t ← shorten_above fuel t current;
    Ok (t, balancePoint)
  else if negb (is_null cl) && is_null cr then
    (* The current node has only one child, which is on the left. *)
    '(t, balancePoint) ← (if ptr_eqb current (root t) then
                            t ← put (set_parent None) (set_root t cl) cl; Ok (t, None)
                          else Remove_replace_below t current cl);
    t ← shorten_above fuel t current;
    Ok (t, balancePoint)
  else if is_null cl && negb (is_null cr) then
    (* The current node has only one child, which is on the right. *)
    '(t, balancePoint) ← (if ptr_eqb current (root t) then
                            t ← put (set_parent None) (set_root t cr) cr; Ok (t, None)
                          else Remove_replace_below t current cr);
    t ← shorten_above fuel t current;
    Ok (t, balancePoint)
  else
    (* current has both left and right children *)
    '(replacement, replacementIncludesBottomMost) ← Remove_successor fuel t cr true;
    t ← (if replacementIncludesBottomMost then
           t ← add_balanceFactor (-1) t current;
           b ← get balanceFactor t current;
           if b >=? 0 then shorten fuel t current else Ok t
         else Ok t);
    cl ← get left t current;
    t ← put (set_left cl) t replacement;
    t ← put (set_parent replacement) t cl;
    b ← get balanceFactor t current;
    t ← put (set_balanceFactor b) t replacement;
    rp ← get parent t replacement;
    '(t, balancePoint) ← (if negb (ptr_eqb rp current) then
                            rr ← get right t replacement;
                            t ← put (set_left rr) t rp;
                            t ← add_balanceFactor 1 t rp;
                            cr ← get right t current;
                            t ← put (set_right cr) t replacement;
                            t ← put (set_parent replacement) t cr;
                            Ok (t, rp)
                          else Ok (t, replacement)) : result (T * ptr);
    t ← (if ptr_eqb current (root t) then
           put (set_parent None) (set_root t replacement) replacement
         else
           cp ← get parent t current;
           cpl ← get left t cp;
           t ← (if ptr_eqb cpl current then put (set_left replacement) t cp
                else put (set_right replacement) t cp);
           cp ← get parent t current;
           put (set_parent cp) t replacement);
    Ok (t, balancePoint).

(** The [while (balancePoint != nullptr)] loop that ends [Remove] *)
Fixpoint Remove_rebalance (fuel : nat) (t : T) (balancePoint : ptr) : result T :=
  match fuel with
  | O => OutOfFuel
  | S fuel' =>
      if is_null balancePoint then Ok t
      else
        b ← get balanceFactor t balancePoint;
        if (b =? -2) || (b =? 2) then
          balancePointPredecessor ← get parent t balancePoint;
          '(t, substituteNode) ← Balance t balancePoint;
          let t := if ptr_eqb (root t) balancePoint then set_root t substituteNode else t in
          t ← (if negb (is_null balancePointPredecessor) then
                 t ← put (set_parent balancePointPredecessor) t substituteNode;
                 pl ← get left t balancePointPredecessor;
                 t ← (if ptr_eqb pl balancePoint then
                        t ← put (set_left substituteNode) t balancePointPredecessor;
                        add_balanceFactor 1 t balancePointPredecessor
                      else
                        t ← put (set_right substituteNode) t balancePointPredecessor;
                        add_balanceFactor (-1) t balancePointPredecessor);
                 pb ← get balanceFactor t balancePointPredecessor;
                 if pb =? 0 then shorten fuel t balancePointPredecessor else Ok t
               else Ok t);
          Remove_rebalance fuel' t balancePointPredecessor
        else Ok t
  end.

(** [Remove] *)
Definition Remove (fuel : nat) (t : T) (x : Z) : result T :=
  current ← Remove_find fuel t x (root t);
  if is_null current then Ok t     (* The tree doesn't contain the specified item. *)
  else
    '(t, balancePoint) ← Remove_unlink fuel t current;
    t ← delete_node t current;
    Remove_rebalance fuel t balancePoint.

(** [p != nullptr ? (1 + p->CalculateHeight()) : 0], an [unsigned int] *)
Definition subtree_height (fuel : nat) (t : T) (p : ptr) : result Z :=
  if negb (is_null p) then h ← CalculateHeight fuel t p; Ok (u32 (1 + h))
  else Ok 0.

(** The body of the loop of [IsValid] at node [n]: [true] when both
    checks pass. *)
Definition node_ok (fuel : nat) (t : T) (n : ptr) : result bool :=
  b ← get balanceFactor t n;
  if negb (b =? -1) && negb (b =? 0) && negb (b =? 1) then Ok false
  else
    l ← get left t n;
    leftHeight ← subtree_height fuel t l;
    r ← get right t n;
    rightHeight ← subtree_height fuel t r;
    let calculatedBalanceFactor := to_int (u32 (rightHeight - leftHeight)) in
    Ok (b =? calculatedBalanceFactor).

(** The loop of [IsValid]; [false] is its [return false]. *)
Fixpoint IsValid_loop (fuel : nat) (t : T) (itr : ptr) : result bool :=
  match fuel with
  | O => OutOfFuel
  | S fuel' =>
      if is_null itr then Ok true
      else
        ok ← node_ok fuel t itr;
        if negb ok then Ok false
        else
          itr ← ConstIterator_incr fuel t itr;
          IsValid_loop fuel' t itr
  end.

(** [IsValid] *)
Definition IsValid (fuel : nat) (t : T) : result bool :=
  itr ← begin fuel t;
  IsValid_loop fuel t itr.

(** The loop of [Intersect]; see [RBTree.Intersect_loop]. *)
Fixpoint Intersect_loop {U M' : Type} (eqTU ltTU : Z → U → bool)
    (fuel : nat) (t : T) (other : Tree U M') (left_ right_ : ptr)
    (intersectionTree : T) : result T :=
  match fuel with
  | O => OutOfFuel
  | S fuel' =>
      if negb (is_null left_) && negb (is_null right_) then
        l ← get item t left_;
        r ← get item other right_;
        if eqTU l r then
          intersectionTree ← Insert fuel intersectionTree l;
          left_ ← ConstIterator_incr fuel t left_;
          right_ ← ConstIterator_incr fuel other right_;
          Intersect_loop eqTU ltTU fuel' t other left_ right_ intersectionTree
        else if ltTU l r then
          left_ ← ConstIterator_incr fuel t left_;
          Intersect_loop eqTU ltTU fuel' t other left_ right_ intersectionTree
        else
          right_ ← ConstIterator_incr fuel other right_;
          Intersect_loop eqTU ltTU fuel' t other left_ right_ intersectionTree
      else Ok intersectionTree
  end.

(** [Intersect] *)
Definition Intersect {U M' : Type} (eqTU ltTU : Z → U → bool)
    (fuel : nat) (t : T) (other : Tree U M') : result T :=
  left_ ← begin fuel t;
  right_ ← begin fuel other;
  Intersect_loop eqTU ltTU fuel t other left_ right_ empty_tree.

(** Run a sequence of operations, as a caller does. *)
Inductive op : Type := Ins (x : Z) | Rem (x : Z).

Definition run_op (fuel : nat) (t : T) (o : op) : result T :=
  match o with
  | Ins x => Insert fuel t x
  | Rem x => Remove fuel t x
  end.

Fixpoint run (fuel : nat) (t : T) (ops : list op) : result T :=
  match ops with
  | [] => Ok t
  | o :: ops => t ← run_op fuel t o; run fuel t ops
  end.

End AVLTree.


(** ** Singly linked list: [list.h], for [List<int>] *)

Module LinkedList.

(** [class Node] *)
Record Node : Type := mkNode {
  next : ptr;
  item : Z
}.

(** [class List]: the store that holds its nodes, and its three fields *)
Record List : Type := mkList {
  heap : gmap addr Node;
  head : ptr;
  tail : ptr;
  size : Z
}.

(** [size_t] arithmetic *)
Definition size_t (z : Z) : Z := z mod 2 ^ 64.

Definition set_next (q : ptr) (n : Node) : Node := mkNode q (item n).

Definition set_head (l : List) (p : ptr) : List := mkList (heap l) p (tail l) (size l).
Definition set_tail (l : List) (p : ptr) : List := mkList (heap l) (head l) p (size l).
Definition set_size (l : List) (z : Z) : List := mkList (heap l) (head l) (tail l) z.

(** [p->f] *)
Definition get {A : Type} (f : Node → A) (l : List) (p : ptr) : result A :=
  match p with
  | None => Fault
  | Some a =>
      match heap l !! a with
      | Some n => Ok (f n)
      | None => Fault
      end
  end.

(** [p->f = v] *)
Definition put (upd : Node → Node) (l : List) (p : ptr) : result List :=
  match p with
  | None => Fault
  | Some a =>
      match heap l !! a with
      | Some n => Ok (mkList (<[a := upd n]> (heap l)) (head l) (tail l) (size l))
      | None => Fault
      end
  end.

(** [new Node(item)]: [next(nullptr), item(item_)] at an address that is
    not in use *)
Definition new_node (l : List) (x : Z) : List * addr :=
  let a := fresh (dom (heap l)) in
  (mkList (<[a := mkNode None x]> (heap l)) (head l) (tail l) (size l), a).

(** [delete p] *)
Definition delete_node (l : List) (p : ptr) : result List :=
  match p with
  | None => Ok l
  | Some a =>
      match heap l !! a with
      | Some _ => Ok (mkList (delete a (heap l)) (head l) (tail l) (size l))
      | None => Fault
      end
  end.

(** [List<T>::List()] *)
Definition empty : List := mkList ∅ None None 0.

(** [List<T>::Insert] *)
Definition Insert (l : List) (x : Z) : result List :=
  let '(l, a) := new_node l x in
  let current := Some a in
  l ← put (set_next (head l)) l current;
  let l := set_head l current in
  let l := if is_null (tail l) then set_tail l current else l in
  Ok (set_size l (size_t (size l + 1))).

(** [List<T>::Append] *)
Definition Append (l : List) (x : Z) : result List :=
  let '(l, a) := new_node l x in
  let current := Some a in
  let l := if is_null (head l) then set_head l current else l in
  l ← (if negb (is_null (tail l)) then put (set_next current) l (tail l) else Ok l);
  let l := set_tail l current in
  Ok (set_size l (size_t (size l + 1))).

(** [List<T>::List(std::initializer_list<T> l)] *)
Fixpoint Append_all (l : List) (xs : list Z) : result List :=
  match xs with
  | [] => Ok l
  | x :: xs => l ← Append l x; Append_all l xs
  end.

Definition of_initializer_list (xs : list Z) : result List := Append_all empty xs.

(** The loop of [Reverse] *)
Fixpoint Reverse_loop (fuel : nat) (l : List) (current previous : ptr) : result List :=
  match fuel with
  | O => OutOfFuel
  | S fuel =>
      if is_null current then Ok l
      else
        nxt ← get next l current;
        l ← put (set_next previous) l current;
        Reverse_loop fuel l nxt current
  end.

(** [List<T>::Reverse] *)
Definition Reverse (fuel : nat) (l : List) : result List :=
  l ← Reverse_loop fuel l (head l) None;
  let temp := head l in
  let l := set_head l (tail l) in
  Ok (set_tail l temp).

(** [List<T>::IsEmpty], [List<T>::Size] *)
Definition IsEmpty (l : List) : bool := size l =? 0.
Definition Size (l : List) : Z := size l.

(** [class ConstIterator]: [next] is fetched before [current] is handed
    out. *)
Module ConstIterator.
Record t : Type := mk {
  current : ptr;
  next : ptr
}.
End ConstIterator.

(** [ConstIterator::ConstIterator(Node* start)] *)
Definition ConstIterator_new (l : List) (start : ptr) : result ConstIterator.t :=
  if negb (is_null start) then
    n ← get next l start;
    Ok (ConstIterator.mk start n)
  else Ok (ConstIterator.mk start None).

(** [ConstIterator::operator++] *)
Definition ConstIterator_incr (l : List) (it : ConstIterator.t) : result ConstIterator.t :=
  let current := ConstIterator.next it in
  if negb (is_null current) then
    n ← get next l current;
    Ok (ConstIterator.mk current n)
  else Ok (ConstIterator.mk current None).

(** [ConstIterator::operator!=] *)
Definition ConstIterator_neq (a b : ConstIterator.t) : bool :=
  negb (ptr_eqb (ConstIterator.current a) (ConstIterator.current b)
        && ptr_eqb (ConstIterator.next a) (ConstIterator.next b)).

(** [ConstIterator::operator*] *)
Definition ConstIterator_deref (l : List) (it : ConstIterator.t) : result Z :=
  get item l (ConstIterator.current it).

Definition begin (l : List) : result ConstIterator.t := ConstIterator_new l (head l).
Definition end_ : ConstIterator.t := ConstIterator.mk None None.

(** [for (const int& x : list) out.Append(x)]: the items the iteration
    hands out *)
Fixpoint iterate_from (fuel : nat) (l : List) (it : ConstIterator.t) : result (list Z) :=
  match fuel with
  | O => OutOfFuel
  | S fuel =>
      if ConstIterator_neq it end_ then
        x ← ConstIterator_deref l it;
        it ← ConstIterator_incr l it;
        rest ← iterate_from fuel l it;
        Ok (x :: rest)
      else Ok []
  end.

Definition iterate (fuel : nat) (l : List) : result (list Z) :=
  it ← begin l;
  iterate_from fuel l it.

(** [for (itr = begin(); itr != end(); ++itr) delete itr.GetNode();] *)
Fixpoint Clear_loop (fuel : nat) (l : List) (it : ConstIterator.t) : result List :=
  match fuel with
  | O => OutOfFuel
  | S fuel =>
      if ConstIterator_neq it end_ then
        l ← delete_node l (ConstIterator.current it);
        it ← ConstIterator_incr l it;
        Clear_loop fuel l it
      else Ok l
  end.

(** [List<T>::Clear] *)
Definition Clear (fuel : nat) (l : List) : result List :=
  it ← begin l;
  l ← Clear_loop fuel l it;
  Ok (mkList (heap l) None None 0).

(** The loop of the copy constructor.  [new] is the list under
    construction; its [heap] is the store, which holds the cells of
    [other] as well, and [otherCurrent] is read through it. *)
Fixpoint copy_loop (fuel : nat) (new : List) (otherCurrent previous : ptr)
  : result List :=
  match fuel with
  | O => OutOfFuel
  | S fuel =>
      if is_null otherCurrent then Ok new
      else
        x ← get item new otherCurrent;
        let '(new, a) := new_node new x in
        let node := Some a in
        let new := if is_null (head new) then set_head new node else new in
        new ← (if negb (is_null previous) then put (set_next node) new previous
               else Ok new);
        otherCurrent ← get next new otherCurrent;
        let new := if is_null otherCurrent then set_tail new node else new in
        copy_loop fuel new otherCurrent node
  end.

(** [List<T>::List(const List<T>& other)]: the new list object, in the
    store that holds [other]; [new Node] returns an address that no
    cell of the store has. *)
Definition copy (fuel : nat) (other : List) : result List :=
  copy_loop fuel (mkList (heap other) None None (size other)) (head other) None.

(** [List<T>::List(List<T>&& other)]: the new list and what is left of
    [other] *)
Definition move (other : List) : List * List :=
  (mkList (heap other) (head other) (tail other) (size other),
   mkList ∅ None None 0).

(** The loop of [IsValid]; [None] is its [return false]. *)
Fixpoint IsValid_loop (fuel : nat) (l : List) (current : ptr) (elementCount : Z)
  : result (option Z) :=
  match fuel with
  | O => OutOfFuel
  | S fuel =>
      if is_null current then Ok (Some elementCount)
      else
        let elementCount := size_t (elementCount + 1) in
        n ← get next l current;
        if is_null n && negb (ptr_eqb (tail l) current) then Ok None
        else IsValid_loop fuel l n elementCount
  end.

(** [List<T>::IsValid] *)
Definition IsValid (fuel : nat) (l : List) : result bool :=
  if negb (is_null (head l)) && is_null (tail l) then Ok false
  else if is_null (head l) && negb (is_null (tail l)) then Ok false
  else
    r ← IsValid_loop fuel l (head l) 0;
    match r with
    | None => Ok false
    | Some elementCount => Ok (Size l =? elementCount)
    end.

(** [SequencesMatch] of [main.cpp] *)
Fixpoint SequencesMatch_loop (fuel : nat) (lhs rhs : List)
    (lhs_itr rhs_itr : ConstIterator.t) : result bool :=
  match fuel with
  | O => OutOfFuel
  | S fuel =>
      if ConstIterator_neq lhs_itr end_ && ConstIterator_neq rhs_itr end_ then
        x ← ConstIterator_deref lhs lhs_itr;
        y ← ConstIterator_deref rhs rhs_itr;
        if negb (x =? y) then Ok false
        else
          lhs_itr ← ConstIterator_incr lhs lhs_itr;
          rhs_itr ← ConstIterator_incr rhs rhs_itr;
          SequencesMatch_loop fuel lhs rhs lhs_itr rhs_itr
      else Ok true
  end.

Definition SequencesMatch (fuel : nat) (lhs rhs : List) : result bool :=
  if negb (Size lhs =? Size rhs) then Ok false
  else
    lhs_itr ← begin lhs;
    rhs_itr ← begin rhs;
    SequencesMatch_loop fuel lhs rhs lhs_itr rhs_itr.

(** *** What a list object holds *)

(** The cells of a list from front to back: address and item *)
Definition first_ptr (cells : list (addr * Z)) : ptr :=
  match cells with [] => None | (a, _) :: _ => Some a end.

Definition last_ptr (cells : list (addr * Z)) : ptr :=
  first_ptr (rev cells).

Definition first_or (cells : list (addr * Z)) (stop : ptr) : ptr :=
  match cells with [] => stop | (a, _) :: _ => Some a end.

(** The heap holds the cells, each pointing to the next and the last
    one to [stop]. *)
Fixpoint chain (h : gmap addr Node) (cells : list (addr * Z)) (stop : ptr) : Prop :=
  match cells with
  | [] => True
  | (a, x) :: cells' =>
      h !! a = Some (mkNode (first_or cells' stop) x) ∧ chain h cells' stop
  end.

Definition holds (l : List) (cells : list (addr * Z)) : Prop :=
  head l = first_ptr cells
  ∧ tail l = last_ptr cells
  ∧ chain (heap l) cells None
  ∧ NoDup (cells.*1)
  ∧ size l = size_t (Z.of_nat (length cells)).

(** The iterator that stands at the first of the cells [rest] *)
Definition iter_at (rest : list (addr * Z)) : ConstIterator.t :=
  ConstIterator.mk (first_ptr rest) (first_ptr (drop 1 rest)).

Definition free_cells (h : gmap addr Node) (cells : list (addr * Z)) : gmap addr Node :=
  foldl (λ h c, delete c.1 h) h cells.

(** The list 2, 13, 10, 5 of [main.cpp]'s first values *)
Definition list_2_13_10_5 : List :=
  match of_initializer_list [2; 13; 10; 5] with Ok l => l | _ => empty end.
Definition cells_2_13_10_5 : list (addr * Z) :=
  [(1%positive, 2); (2%positive, 13); (3%positive, 10); (4%positive, 5)].

End LinkedList.
(** * Verification *)

(** ** Tree shapes and their representation in the heap *)

(** The shape of a tree: which address holds which position. *)
Inductive shape : Type :=
| Leaf
| Br (l : shape) (a : addr) (r : shape).

Definition top (s : shape) : ptr :=
  match s with Leaf => None | Br _ a _ => Some a end.

(** Left subtree, node, right subtree *)
Fixpoint nodes (s : shape) : list addr :=
  match s with
  | Leaf => []
  | Br l a r => nodes l ++ a :: nodes r
  end.

(** Left subtree, right subtree, node *)
Fixpoint postorder (s : shape) : list addr :=
  match s with
  | Leaf => []
  | Br l a r => postorder l ++ postorder r ++ [a]
  end.

Fixpoint size (s : shape) : nat :=
  match s with
  | Leaf => O
  | Br l _ r => S (size l + size r)
  end.

Fixpoint nodupb (l : list addr) : bool :=
  match l with
  | [] => true
  | a :: l => negb (bool_decide (a ∈ l)) && nodupb l
  end.

Section Representation.
Context {K M : Type}.
Implicit Types (h : gmap addr (Node K M)) (t : Tree K M) (s : shape).

(** The node at [a] has these three links. *)
Definition linksb h (a : addr) (l r p : ptr) : bool :=
  match h !! a with
  | Some n => ptr_eqb (left n) l && ptr_eqb (right n) r && ptr_eqb (parent n) p
  | None => false
  end.

(** The nodes of [s] are linked in [h] as [s] says, below parent [p]. *)
Fixpoint linked h (p : ptr) s : bool :=
  match s with
  | Leaf => true
  | Br l a r =>
      linksb h a (top l) (top r) p && linked h (Some a) l && linked h (Some a) r
  end.

(** The tree object [t] holds a tree of shape [s]. *)
Definition represents t s : Prop :=
  root t = top s ∧ linked (heap t) None s = true ∧ nodupb (nodes s) = true.

(** The items of the nodes of [s], in inorder. *)
Definition items h s : list K :=
  omap (λ a, item <$> h !! a) (nodes s).
End Representation.

(** Binary-search-tree order: every left descendant < node < every right
    descendant, checked with bounds. *)
Definition above (lo : option Z) (x : Z) : bool :=
  match lo with None => true | Some b => b <? x end.
Definition below (hi : option Z) (x : Z) : bool :=
  match hi with None => true | Some b => x <? b end.

Fixpoint ordered {M : Type} (h : gmap addr (Node Z M)) (lo hi : option Z) (s : shape)
  : bool :=
  match s with
  | Leaf => true
  | Br l a r =>
      match h !! a with
      | Some n =>
          above lo (item n) && below hi (item n)
          && ordered h lo (Some (item n)) l && ordered h (Some (item n)) hi r
      | None => false
      end
  end.

(** ** One-hole contexts: where a subtree sits in the whole tree *)

Inductive ctx : Type :=
| Top
| CL (a : addr) (r : shape) (c : ctx)    (* the hole is the left child of [a] *)
| CR (l : shape) (a : addr) (c : ctx).   (* the hole is the right child of [a] *)

Fixpoint plug (c : ctx) (s : shape) : shape :=
  match c with
  | Top => s
  | CL a r c => plug c (Br s a r)
  | CR l a c => plug c (Br l a s)
  end.

Definition hole_parent (c : ctx) : ptr :=
  match c with Top => None | CL a _ _ | CR _ a _ => Some a end.

(** What inorder visits after the hole *)
Fixpoint after (c : ctx) : list addr :=
  match c with
  | Top => []
  | CL a r c => a :: nodes r ++ after c
  | CR _ _ c => after c
  end.

Fixpoint before (c : ctx) : list addr :=
  match c with
  | Top => []
  | CL _ _ c => before c
  | CR l a c => before c ++ nodes l ++ [a]
  end.

(** What postorder visits after the hole *)
Fixpoint post_after (c : ctx) : list addr :=
  match c with
  | Top => []
  | CL a r c => postorder r ++ a :: post_after c
  | CR _ a c => a :: post_after c
  end.

Fixpoint post_before (c : ctx) : list addr :=
  match c with
  | Top => []
  | CL _ _ c => post_before c
  | CR l _ c => post_before c ++ postorder l
  end.

Fixpoint depth (c : ctx) : nat :=
  match c with
  | Top => O
  | CL _ _ c | CR _ _ c => S (depth c)
  end.

Fixpoint ctx_nodes (c : ctx) : list addr :=
  match c with
  | Top => []
  | CL a r c => a :: nodes r ++ ctx_nodes c
  | CR _ a c => a :: ctx_nodes c
  end.

(** Leftmost node of [Br l a r] in context [c], with its right subtree
    and its own context *)
Fixpoint leftmost (l : shape) (a : addr) (r : shape) (c : ctx) : addr * shape * ctx :=
  match l with
  | Leaf => (a, r, c)
  | Br ll la lr => leftmost ll la lr (CL a r c)
  end.

(** The first ancestor reached from its left subtree *)
Fixpoint up (c : ctx) : option (addr * shape * ctx) :=
  match c with
  | Top => None
  | CL a r c => Some (a, r, c)
  | CR _ _ c => up c
  end.

(** The first node of the postorder of [s] in context [c], with its own
    context *)
Fixpoint dive (s : shape) (c : ctx) : option (addr * ctx) :=
  match s with
  | Leaf => None
  | Br l a r =>
      match dive l (CL a r c) with
      | Some y => Some y
      | None =>
          match dive r (CR Leaf a c) with
          | Some y => Some y
          | None => Some (a, c)
          end
      end
  end.

Definition is_CR (c : ctx) : bool :=
  match c with CR _ _ _ => true | _ => false end.

(** The postorder iterator when it hands out [x], which sits in [c] *)
Definition visit (x : addr) (c : ctx) : PostIter :=
  mkPostIter (Some x) (hole_parent c) (negb (is_CR c)).

(** The node that postorder hands out after the hole of [c] *)
Definition post_next (c : ctx) : option (addr * ctx) :=
  match c with
  | Top => None
  | CR _ a c' => Some (a, c')
  | CL a r c' =>
      match dive r (CR Leaf a c') with
      | Some y => Some y
      | None => Some (a, c')
      end
  end.

Definition free_all {K M : Type} (h : gmap addr (Node K M)) (l : list addr)
  : gmap addr (Node K M) :=
  foldl (λ h a, delete a h) h l.

Section Linked.
Context {K M : Type}.
Implicit Types (h : gmap addr (Node K M)) (t : Tree K M) (s : shape).

Definition links h (a : addr) (l r p : ptr) : Prop :=
  ∃ n, h !! a = Some n ∧ left n = l ∧ right n = r ∧ parent n = p.

Fixpoint ctx_linked h (c : ctx) (child : ptr) : Prop :=
  match c with
  | Top => True
  | CL a r c' =>
      links h a child (top r) (hole_parent c') ∧ linked h (Some a) r = true
      ∧ ctx_linked h c' (Some a)
  | CR _ a c' =>
      (∃ n, h !! a = Some n ∧ right n = child ∧ parent n = hole_parent c')
      ∧ ctx_linked h c' (Some a)
  end.

(** The inorder iterator stands at [x], whose right subtree is [r], in
    context [c]. *)
Definition at_node h (x : addr) (r : shape) (c : ctx) : Prop :=
  (∃ n, h !! x = Some n ∧ right n = top r ∧ parent n = hole_parent c)
  ∧ linked h (Some x) r = true
  ∧ ctx_linked h c (Some x).
End Linked.

(** ** Concrete trees used to exercise the statements *)

Definition ok_or_empty {K M : Type} (r : result (Tree K M)) : Tree K M :=
  match r with Ok t => t | _ => empty_tree end.


(** Items 2, 1, 3 inserted in this order: 2 at the root (address 1),
    1 on its left (address 2), 3 on its right (address 3). *)
Definition rb_213 : RBTree.T :=
  ok_or_empty (RBTree.run 8 empty_tree [RBTree.Ins 2; RBTree.Ins 1; RBTree.Ins 3]).
Definition avl_213 : AVLTree.T :=
  ok_or_empty (AVLTree.run 8 empty_tree [AVLTree.Ins 2; AVLTree.Ins 1; AVLTree.Ins 3]).
Definition shape_213 : shape := Br (Br Leaf 2%positive Leaf) 1%positive (Br Leaf 3%positive Leaf).

(** Items 1, 2, 3, 4 inserted and 4 removed again: three black nodes,
    2 at the root (address 2), 1 (address 1) and 3 (address 3) below. *)
Definition rb_black3 : RBTree.T :=
  ok_or_empty (RBTree.run 8 empty_tree
    [RBTree.Ins 1; RBTree.Ins 2; RBTree.Ins 3; RBTree.Ins 4; RBTree.Rem 4]).

(** Items 0, 1, 2, 4, 5, 3 inserted and 1 removed: 2 at the root
    (address 3), 0 (address 1) on its left, 4 (address 4) on its right
    with the children 3 (address 6) and 5 (address 5).  [Remove(1)] has
    left the parent pointer of node 3 on the root. *)
Definition rb_stale : RBTree.T :=
  ok_or_empty (RBTree.run 8 empty_tree
    [RBTree.Ins 0; RBTree.Ins 1; RBTree.Ins 2; RBTree.Ins 4; RBTree.Ins 5; RBTree.Ins 3;
     RBTree.Rem 1]).

(** Items 4, 2, 8, 1, 5, 9, 6 inserted and 4 removed: 5 at the root
    (address 5), 2 (address 2) with left child 1 (address 4) on its
    left, 8 (address 3) with the children 6 (address 7) and 9
    (address 6) on its right.  [Remove(4)] has left the parent pointer
    of node 6 on the root. *)
Definition avl_stale : AVLTree.T :=
  ok_or_empty (AVLTree.run 8 empty_tree
    [AVLTree.Ins 4; AVLTree.Ins 2; AVLTree.Ins 8; AVLTree.Ins 1; AVLTree.Ins 5;
     AVLTree.Ins 9; AVLTree.Ins 6; AVLTree.Rem 4]).


(** ** Trees with their data: what each node holds *)

(** A tree as the heap holds it: the address, the item and the balance
    metadata of every node. *)
Inductive dtree (K M : Type) : Type :=
| DLeaf
| DBr (l : dtree K M) (a : addr) (k : K) (m : M) (r : dtree K M).

Arguments DLeaf {K M}.
Arguments DBr {K M} l a k m r.

(** The context of a subtree of a [dtree], innermost frame first *)
Inductive dctx (K M : Type) : Type :=
| DTop
| DCL (a : addr) (k : K) (m : M) (r : dtree K M) (c : dctx K M)   (* hole on the left of [a] *)
| DCR (l : dtree K M) (a : addr) (k : K) (m : M) (c : dctx K M).  (* hole on the right of [a] *)

Arguments DTop {K M}.
Arguments DCL {K M} a k m r c.
Arguments DCR {K M} l a k m c.

Section DataTrees.
Context {K M : Type}.
Implicit Types (h : gmap addr (Node K M)) (t : Tree K M) (d : dtree K M) (c : dctx K M).

Definition dtop d : ptr :=
  match d with DLeaf => None | DBr _ a _ _ _ => Some a end.

Fixpoint erase d : shape :=
  match d with
  | DLeaf => Leaf
  | DBr l a _ _ r => Br (erase l) a (erase r)
  end.

Fixpoint dnodes d : list addr :=
  match d with
  | DLeaf => []
  | DBr l a _ _ r => dnodes l ++ a :: dnodes r
  end.

(** The items in inorder *)
Fixpoint ditems d : list K :=
  match d with
  | DLeaf => []
  | DBr l _ k _ r => ditems l ++ k :: ditems r
  end.

Fixpoint dsize d : nat :=
  match d with
  | DLeaf => O
  | DBr l _ _ _ r => S (dsize l + dsize r)
  end.

Fixpoint dplug c d : dtree K M :=
  match c with
  | DTop => d
  | DCL a k m r c => dplug c (DBr d a k m r)
  | DCR l a k m c => dplug c (DBr l a k m d)
  end.

Definition dhole_parent c : ptr :=
  match c with DTop => None | DCL a _ _ _ _ | DCR _ a _ _ _ => Some a end.

Fixpoint dctx_nodes c : list addr :=
  match c with
  | DTop => []
  | DCL a _ _ r c => a :: dnodes r ++ dctx_nodes c
  | DCR l a _ _ c => a :: dnodes l ++ dctx_nodes c
  end.

Fixpoint dctx_before c : list K :=
  match c with
  | DTop => []
  | DCL _ _ _ _ c => dctx_before c
  | DCR l _ k _ c => dctx_before c ++ ditems l ++ [k]
  end.

Fixpoint dctx_after c : list K :=
  match c with
  | DTop => []
  | DCL _ k _ r c => k :: ditems r ++ dctx_after c
  | DCR _ _ _ _ c => dctx_after c
  end.

Fixpoint ddepth c : nat :=
  match c with
  | DTop => O
  | DCL _ _ _ _ c | DCR _ _ _ _ c => S (ddepth c)
  end.

(** The root pointer of the tree around the hole of [c], when the hole
    holds a subtree whose top is [p] *)
Fixpoint droot c (p : ptr) : ptr :=
  match c with
  | DTop => p
  | DCL a _ _ _ c | DCR _ a _ _ c => droot c (Some a)
  end.

(** The heap holds the nodes of [d], linked and filled as [d] says,
    below parent [p]. *)
Fixpoint dlinked h (p : ptr) d : Prop :=
  match d with
  | DLeaf => True
  | DBr l a k m r =>
      h !! a = Some (mkNode k m (dtop l) (dtop r) p)
      ∧ dlinked h (Some a) l ∧ dlinked h (Some a) r
  end.

(** The heap holds the frames of [c]; the hole holds the pointer [child]. *)
Fixpoint dctx_linked h c (child : ptr) : Prop :=
  match c with
  | DTop => True
  | DCL a k m r c' =>
      h !! a = Some (mkNode k m child (dtop r) (dhole_parent c'))
      ∧ dlinked h (Some a) r ∧ dctx_linked h c' (Some a)
  | DCR l a k m c' =>
      h !! a = Some (mkNode k m (dtop l) child (dhole_parent c'))
      ∧ dlinked h (Some a) l ∧ dctx_linked h c' (Some a)
  end.

(** The tree object [t] holds exactly the tree [d]. *)
Definition holds t d : Prop :=
  root t = dtop d ∧ dlinked (heap t) None d ∧ nodupb (dnodes d) = true.

(** The tree object [t] holds [d] in the hole of [c]. *)
Definition holds_in t c d : Prop :=
  root t = droot c (dtop d)
  ∧ dlinked (heap t) (dhole_parent c) d
  ∧ dctx_linked (heap t) c (dtop d)
  ∧ NoDup (dnodes d ++ dctx_nodes c).
End DataTrees.

(** ** What [InsertFixup] and [Insert] do to the tree, as functions on
    trees with data *)

Section RBFunctional.
Import RBTree.
Implicit Types (d : dtree Z RBColor) (c : dctx Z RBColor).

Definition is_red_root d : bool :=
  match d with DBr _ _ _ Red _ => true | _ => false end.

Definition blacken d : dtree Z RBColor :=
  match d with
  | DLeaf => DLeaf
  | DBr l a k _ r => DBr l a k Black r
  end.

(** The loop of [InsertFixup] started at the top node of [dz], which
    sits in [c].  [None]: the loop dereferences a null pointer. *)
Fixpoint fixup c (dz : dtree Z RBColor) : option (dtree Z RBColor) :=
  match c with
  | DTop => Some dz
  | DCL p kp Black sp c' => Some (dplug c' (DBr dz p kp Black sp))
  | DCR sp p kp Black c' => Some (dplug c' (DBr sp p kp Black dz))
  | DCL p kp Red sp c' =>
      (* z is the left child of its red parent p *)
      match c' with
      | DTop => None
      | DCL g kg _ u c'' =>
          if is_red_root u
          then fixup c'' (DBr (DBr dz p kp Black sp) g kg Red (blacken u))
          else Some (dplug c'' (DBr dz p kp Black (DBr sp g kg Red u)))
      | DCR u g kg _ c'' =>
          if is_red_root u
          then fixup c'' (DBr (blacken u) g kg Red (DBr dz p kp Black sp))
          else
            match dz with
            | DLeaf => None
            | DBr zl z kz _ zr =>
                Some (dplug c'' (DBr (DBr u g kg Red zl) z kz Black (DBr zr p kp Red sp)))
            end
      end
  | DCR sp p kp Red c' =>
      (* z is the right child of its red parent p *)
      match c' with
      | DTop => None
      | DCL g kg _ u c'' =>
          if is_red_root u
          then fixup c'' (DBr (DBr sp p kp Black dz) g kg Red (blacken u))
          else
            match dz with
            | DLeaf => None
            | DBr zl z kz _ zr =>
                Some (dplug c'' (DBr (DBr sp p kp Red zl) z kz Black (DBr zr g kg Red u)))
            end
      | DCR u g kg _ c'' =>
          if is_red_root u
          then fixup c'' (DBr (blacken u) g kg Red (DBr sp p kp Black dz))
          else Some (dplug c'' (DBr (DBr u g kg Red sp) p kp Black dz))
      end
  end.

(** The descent of [Insert]: the context of the null link where [x]
    belongs, or [None] when [x] is met. *)
Fixpoint insert_ctx (x : Z) c d : option (dctx Z RBColor) :=
  match d with
  | DLeaf => Some c
  | DBr l a k m r =>
      if x <? k then insert_ctx x (DCL a k m r c) l
      else if x >? k then insert_ctx x (DCR l a k m c) r
      else None
  end.

(** [Insert(x)], the new node being allocated at [z] *)
Definition rb_insert (z : addr) (x : Z) d : option (dtree Z RBColor) :=
  match insert_ctx x DTop d with
  | None => Some d
  | Some c =>
      match fixup c (DBr DLeaf z x Red DLeaf) with
      | Some d' => Some (blacken d')
      | None => None
      end
  end.

(** The topmost frame of [c] is black (when there is one). *)
Fixpoint ctx_root_black c : bool :=
  match c with
  | DTop => true
  | DCL _ _ m _ DTop | DCR _ _ _ m DTop => color_eqb m Black
  | DCL _ _ _ _ c' | DCR _ _ _ _ c' => ctx_root_black c'
  end.

Definition root_black d : bool :=
  match d with DBr _ _ _ Red _ => false | _ => true end.

(** The hole of [c] is where the descent of [Insert(x)] goes from the
    innermost frame: to the left when [x] is less than its item, to the
    right otherwise. *)
Definition goes (x : Z) c : Prop :=
  match c with
  | DTop => True
  | DCL _ k _ _ _ => (x <? k) = true
  | DCR _ _ k _ _ => (x <? k) = false
  end.

(** *** The red-black properties

    #4 of [IsValid]: no red node has a red child. *)
Fixpoint rr_free d : bool :=
  match d with
  | DLeaf => true
  | DBr l _ _ m r =>
      match m with Red => root_black l && root_black r | Black => true end
      && rr_free l && rr_free r
  end.

(** #5 of [IsValid]: every path from the top of [d] down to a null link
    passes [n] black nodes. *)
Fixpoint balanced (n : nat) d : bool :=
  match d with
  | DLeaf => Nat.eqb n 0
  | DBr l _ _ Red r => balanced n l && balanced n r
  | DBr l _ _ Black r =>
      match n with
      | O => false
      | S n' => balanced n' l && balanced n' r
      end
  end.

Definition up_height (m : RBColor) (n : nat) : nat :=
  match m with Black => S n | Red => n end.

(** The same for contexts, around a hole of black height [n] *)
Fixpoint cbalanced (n : nat) c : bool :=
  match c with
  | DTop => true
  | DCL _ _ m sp c' | DCR sp _ _ m c' => balanced n sp && cbalanced (up_height m n) c'
  end.

Fixpoint cheight (n : nat) c : nat :=
  match c with
  | DTop => n
  | DCL _ _ m _ c' | DCR _ _ _ m c' => cheight (up_height m n) c'
  end.

Definition frame_black c : bool :=
  match c with
  | DTop => true
  | DCL _ _ m _ _ | DCR _ _ _ m _ => color_eqb m Black
  end.

Fixpoint crr_free c : bool :=
  match c with
  | DTop => true
  | DCL _ _ m sp c' | DCR sp _ _ m c' =>
      rr_free sp
      && match m with Red => root_black sp && frame_black c' | Black => true end
      && crr_free c'
  end.

(** A red-black tree: a black root, #4 and #5 *)
Definition rb_valid d : Prop :=
  root_black d = true ∧ rr_free d = true ∧ ∃ n, balanced n d = true.

(** *** What [IsValid] computes

    The first loop visits the nodes in inorder; at each one it checks
    that it is not a red node with a red child. *)
Fixpoint rr_checks d : list bool :=
  match d with
  | DLeaf => []
  | DBr l _ _ m r =>
      rr_checks l
      ++ negb (color_eqb m Red && (is_red_root l || is_red_root r)) :: rr_checks r
  end.

(** The black frames of [c] *)
Fixpoint blacks_above c : Z :=
  match c with
  | DTop => 0
  | DCL _ _ m _ c' | DCR _ _ _ m c' =>
      (if color_eqb m Black then 1 else 0) + blacks_above c'
  end.

(** The second loop visits the nodes in postorder; at a node without
    children it counts the black nodes from it up to the root ([Some]),
    the other nodes are skipped ([None]).  [n]: the black nodes above
    [d]. *)
Fixpoint leaf_counts (n : Z) d : list (option Z) :=
  match d with
  | DLeaf => []
  | DBr l _ _ m r =>
      let n' := (if color_eqb m Black then 1 else 0) + n in
      leaf_counts n' l ++ leaf_counts n' r
      ++ [match l, r with DLeaf, DLeaf => Some n' | _, _ => None end]
  end.

(** [mainCount] and the comparisons of the second loop *)
Fixpoint check_counts (mainCount : Z) (os : list (option Z)) : bool :=
  match os with
  | [] => true
  | None :: os => check_counts mainCount os
  | Some blackNodeCount :: os =>
      if mainCount =? -1 then check_counts blackNodeCount os
      else if negb (blackNodeCount =? mainCount) then false
      else check_counts mainCount os
  end.

(** What the loops of [IsValid] find at one node *)
Definition red_fact (t : T) (a : addr) (b : bool) : Prop :=
  red_with_red_child t (Some a) = Ok (negb b).

Definition black_fact (D : nat) (t : T) (p : ptr) (o : option Z) : Prop :=
  ∃ l r, get left t p = Ok l ∧ get right t p = Ok r
    ∧ match o with
      | None => negb (is_null l) || negb (is_null r) = true
      | Some n =>
          negb (is_null l) || negb (is_null r) = false
          ∧ ∀ fuel, (D < fuel)%nat → count_black fuel t p 0 = Ok n
      end.

Definition is_valid d : bool :=
  root_black d && forallb id (rr_checks d) && check_counts (-1) (leaf_counts 0 d).

(** *** [Remove] of a node that has at most one child *)

(** The descent of [Remove(x)] follows the frames of [c]. *)
Fixpoint path_ok (x : Z) c : Prop :=
  match c with
  | DTop => True
  | DCL _ k _ _ c' => x < k ∧ path_ok x c'
  | DCR _ _ k _ c' => k < x ∧ path_ok x c'
  end.

Definition only_child (l r : dtree Z RBColor) : dtree Z RBColor :=
  match l with DLeaf => r | _ => l end.

(** What takes the place of a removed node of colour [m] with
    subtrees [l] and [r], one of which is empty: its only child, made
    black when [m] is black. *)
Definition spliced (m : RBColor) (l r : dtree Z RBColor) : dtree Z RBColor :=
  match m with
  | Black => blacken (only_child l r)
  | Red => only_child l r
  end.

(** [root == nullptr || root->color == Black] *)
Definition black_root (t : T) : bool :=
  match root t with
  | None => true
  | Some a =>
      match heap t !! a with
      | Some n => color_eqb (color n) Black
      | None => false
      end
  end.
End RBFunctional.

(** The tree [rb_213] with its data *)
Definition d_213 : dtree Z RBTree.RBColor :=
  DBr (DBr DLeaf 2%positive 1 RBTree.Red DLeaf) 1%positive 2 RBTree.Black
      (DBr DLeaf 3%positive 3 RBTree.Red DLeaf).

(** A red root (item 5, address 1) with a red left child (item 3,
    address 2): no sequence of [Insert] builds it. *)
Definition rb_red_root : RBTree.T :=
  mkTree (<[1%positive := mkNode 5 RBTree.Red (Some 2%positive) None None]>
          (<[2%positive := mkNode 3 RBTree.Red None None (Some 1%positive)]> ∅))
         (Some 1%positive).

(** The tree [rb_black3] with its data *)
Definition d_black3 : dtree Z RBTree.RBColor :=
  DBr (DBr DLeaf 1%positive 1 RBTree.Black DLeaf) 2%positive 2 RBTree.Black
      (DBr DLeaf 3%positive 3 RBTree.Black DLeaf).

(** ** Heights and balance factors of AVL trees *)

Section AVLFunctional.
Context {K : Type}.
Implicit Types (d : dtree K Z).

(** The number of nodes on the longest path from the top of [d] down
    to a null link *)
Fixpoint dheight {M : Type} (d : dtree K M) : Z :=
  match d with
  | DLeaf => 0
  | DBr l _ _ _ r => 1 + Z.max (dheight l) (dheight r)
  end.

(** Every [balanceFactor] is the height of the right subtree minus the
    height of the left subtree. *)
Fixpoint bf_exact d : bool :=
  match d with
  | DLeaf => true
  | DBr l _ _ m r => (m =? dheight r - dheight l) && bf_exact l && bf_exact r
  end.

(** Every [balanceFactor] is -1, 0 or 1. *)
Fixpoint bf_small d : bool :=
  match d with
  | DLeaf => true
  | DBr l _ _ m r => (-1 <=? m) && (m <=? 1) && bf_small l && bf_small r
  end.

(** The tree [d] with the balance factors that its heights give *)
Fixpoint with_heights {M : Type} (d : dtree K M) : dtree K Z :=
  match d with
  | DLeaf => DLeaf
  | DBr l a k _ r => DBr (with_heights l) a k (dheight r - dheight l) (with_heights r)
  end.
End AVLFunctional.

(** The tree [avl_213] with its data *)
Definition davl_213 : dtree Z Z :=
  DBr (DBr DLeaf 2%positive 1 0 DLeaf) 1%positive 2 0 (DBr DLeaf 3%positive 3 0 DLeaf).

(** Items 3, 2, 1 linked as a left spine, before rebalancing: 3 at the
    root (address 1, balance factor -2), 2 below (address 2, -1), 1
    below (address 3, 0). *)
Definition avl_spine : AVLTree.T :=
  mkTree (<[1%positive := mkNode 3 (-2) (Some 2%positive) None None]>
          (<[2%positive := mkNode 2 (-1) (Some 3%positive) None (Some 1%positive)]>
           (<[3%positive := mkNode 1 0 None None (Some 2%positive)]> ∅)))
         (Some 1%positive).
Definition davl_spine : dtree Z Z :=
  DBr (DBr (DBr DLeaf 3%positive 1 0 DLeaf) 2%positive 2 (-1) DLeaf) 1%positive 3 (-2) DLeaf.
(** * Lemmas *)

Lemma nodes_plug c s : nodes (plug c s) = before c ++ nodes s ++ after c.
Proof.
  revert s. induction c as [|a r c IH|l a c IH]; intros s; simpl.
  - by rewrite app_nil_r.
  - rewrite IH. simpl. by rewrite <- ?app_assoc.
  - rewrite IH. simpl. rewrite <- ?app_assoc. simpl. by rewrite <- ?app_assoc.
Qed.

Lemma postorder_plug c s :
  postorder (plug c s) = post_before c ++ postorder s ++ post_after c.
Proof.
  revert s. induction c as [|a r c IH|l a c IH]; intros s; simpl.
  - by rewrite app_nil_r.
  - rewrite IH. simpl. by rewrite <- ?app_assoc.
  - rewrite IH. simpl. by rewrite <- ?app_assoc.
Qed.

Lemma length_nodes s : length (nodes s) = size s.
Proof. induction s; simpl; [done|]. rewrite length_app. simpl. lia. Qed.

Lemma length_postorder s : length (postorder s) = size s.
Proof. induction s; simpl; [done|]. rewrite !length_app. simpl. lia. Qed.

Lemma nodupb_NoDup l : nodupb l = true ↔ NoDup l.
Proof.
  induction l as [|a l IH]; simpl.
  - split; [constructor|done].
  - rewrite NoDup_cons, andb_true_iff, negb_true_iff, bool_decide_eq_false. tauto.
Qed.

Arguments get : simpl never.
Arguments put : simpl never.

Section Rep.
Context {K M : Type}.
Implicit Types (h : gmap addr (Node K M)) (t : Tree K M) (s : shape).

Lemma linksb_links h a l r p : linksb h a l r p = true ↔ links h a l r p.
Proof.
  unfold linksb, links, ptr_eqb. split.
  - destruct (h !! a) as [n|]; [|done].
    rewrite !andb_true_iff, !bool_decide_eq_true. intros [[? ?] ?]. by exists n.
  - intros (n & -> & <- & <- & <-). by rewrite !bool_decide_eq_true_2.
Qed.

Lemma linked_Br h p l a r :
  linked h p (Br l a r) = true ↔
  links h a (top l) (top r) p ∧ linked h (Some a) l = true ∧ linked h (Some a) r = true.
Proof. simpl. rewrite !andb_true_iff, linksb_links. tauto. Qed.

Lemma get_links {X} (f : Node K M → X) t a n :
  heap t !! a = Some n → get f t (Some a) = Ok (f n).
Proof. intros H. unfold get. by rewrite H. Qed.

Lemma ptr_eqb_refl (p : ptr) : ptr_eqb p p = true.
Proof. unfold ptr_eqb. by rewrite bool_decide_eq_true_2. Qed.

Lemma ptr_eqb_ne (p q : ptr) : p ≠ q → ptr_eqb p q = false.
Proof. unfold ptr_eqb. intros. by rewrite bool_decide_eq_false_2. Qed.

Lemma leftmost_after l a r c :
  let '(m, rm, cm) := leftmost l a r c in
  m :: nodes rm ++ after cm = nodes l ++ a :: nodes r ++ after c.
Proof.
  revert a r c. induction l as [|ll IH la lr _]; intros a r c; simpl; [done|].
  specialize (IH la lr (CL a r c)). destruct (leftmost ll la lr (CL a r c)) as [[m rm] cm].
  rewrite IH. simpl. by rewrite <- ?app_assoc.
Qed.

Lemma leftmost_nodes l a r c :
  let '(m, rm, cm) := leftmost l a r c in
  m :: nodes rm ++ ctx_nodes cm ≡ₚ nodes l ++ a :: nodes r ++ ctx_nodes c.
Proof.
  revert a r c. induction l as [|ll IH la lr _]; intros a r c; simpl; [done|].
  specialize (IH la lr (CL a r c)). destruct (leftmost ll la lr (CL a r c)) as [[m rm] cm].
  rewrite IH. simpl. by rewrite <- ?app_assoc.
Qed.

Lemma descend_left_leftmost t l a r c fuel :
  linked (heap t) (hole_parent c) (Br l a r) = true →
  ctx_linked (heap t) c (Some a) →
  (size l < fuel)%nat →
  let '(m, rm, cm) := leftmost l a r c in
  descend_left fuel t (Some a) = Ok (Some m)
  ∧ links (heap t) m None (top rm) (hole_parent cm)
  ∧ linked (heap t) (Some m) rm = true
  ∧ ctx_linked (heap t) cm (Some m).
Proof.
  revert a r c fuel. induction l as [|ll IH la lr _]; intros a r c fuel Hl Hc Hf.
  - simpl. apply linked_Br in Hl as (Ha & _ & Hr).
    destruct fuel as [|fuel]; [lia|]. simpl.
    destruct Ha as (n & Hn & Hnl & Hnr & Hnp). rewrite (get_links _ _ _ _ Hn), Hnl. simpl.
    split; [done|]. split; [|done]. by exists n.
  - apply linked_Br in Hl as (Ha & Hll & Hr).
    destruct fuel as [|fuel]; [simpl in Hf; lia|]. simpl.
    specialize (IH la lr (CL a r c) fuel).
    destruct (leftmost ll la lr (CL a r c)) as [[m rm] cm].
    destruct Ha as (n & Hn & Hnl & Hnr & Hnp). rewrite (get_links _ _ _ _ Hn), Hnl. simpl.
    apply IH; [done| |simpl in Hf; lia].
    simpl. split; [by exists n|]. done.
Qed.

Lemma up_after c :
  after c = match up c with
            | None => []
            | Some (a, r, c') => a :: nodes r ++ after c'
            end.
Proof. induction c; simpl; done. Qed.

Lemma up_nodes c a r c' :
  up c = Some (a, r, c') → ∃ pre, ctx_nodes c = pre ++ a :: nodes r ++ ctx_nodes c'.
Proof.
  induction c as [|a0 r0 c0 IH|l0 a0 c0 IH]; simpl; intros Hu; [done| |].
  - injection Hu as -> -> ->. by exists [].
  - destruct (IH Hu) as [pre Hpre]. exists (a0 :: pre). by rewrite Hpre.
Qed.

Lemma up_depth c a r c' : up c = Some (a, r, c') → (depth c' < depth c)%nat.
Proof.
  induction c as [|a0 r0 c0 IH|l0 a0 c0 IH]; simpl; intros Hu; [done| |].
  - injection Hu as -> -> ->. lia.
  - specialize (IH Hu). lia.
Qed.

Lemma depth_ctx_nodes c : (depth c ≤ length (ctx_nodes c))%nat.
Proof. induction c; simpl; [done| |lia]. rewrite length_app. lia. Qed.

(** Climbing from [x] while it is a right child, then one more step *)
Lemma ascend_right_up t x c fuel :
  (∃ n, heap t !! x = Some n ∧ parent n = hole_parent c) →
  ctx_linked (heap t) c (Some x) →
  NoDup (x :: ctx_nodes c) →
  (depth c < fuel)%nat →
  (c0 ← ascend_right fuel t (Some x); get parent t c0)
  = Ok match up c with None => None | Some (a, _, _) => Some a end
  ∧ match up c with
    | None => True
    | Some (a, r, c') => at_node (heap t) a r c'
    end.
Proof.
  revert x fuel. induction c as [|a r c IH|l a c IH]; intros x fuel (n & Hn & Hp) Hc Hnd Hf;
    (destruct fuel as [|fuel]; [simpl in Hf; lia|]); simpl.
  - rewrite (get_links _ _ _ _ Hn), Hp. simpl. by rewrite (get_links _ _ _ _ Hn), Hp.
  - rewrite (get_links _ _ _ _ Hn), Hp. simpl.
    destruct Hc as ((na & Hna & Hal & Har & Hap) & Hr & Hc).
    rewrite (get_links _ _ _ _ Hna), Har. simpl.
    rewrite ptr_eqb_ne.
    + simpl. rewrite (get_links _ _ _ _ Hn), Hp. split; [done|].
      split; [by exists na|done].
    + destruct r as [|rl ra rr]; simpl; [done|]. intros [= ->].
      apply NoDup_cons in Hnd as [Hx _]. apply Hx. simpl. set_solver.
  - rewrite (get_links _ _ _ _ Hn), Hp. simpl.
    destruct Hc as ((na & Hna & Har & Hap) & Hc).
    rewrite (get_links _ _ _ _ Hna), Har. simpl. rewrite ptr_eqb_refl.
    apply IH; [by exists na|done| |simpl in Hf; lia].
    simpl in Hnd. apply NoDup_cons in Hnd as [_ Hnd]. done.
Qed.

Lemma at_node_leftmost t x rl ra rr c fuel :
  at_node (heap t) x (Br rl ra rr) c →
  (size rl < fuel)%nat →
  let '(m, rm, cm) := leftmost rl ra rr (CR Leaf x c) in
  descend_left fuel t (Some ra) = Ok (Some m) ∧ at_node (heap t) m rm cm.
Proof.
  intros ((n & Hn & Hr & Hp) & Hl & Hc) Hf.
  pose proof (descend_left_leftmost t rl ra rr (CR Leaf x c) fuel Hl) as H.
  destruct (leftmost rl ra rr (CR Leaf x c)) as [[m rm] cm].
  destruct H as (Hd & (nm & Hnm & _ & Hmr & Hmp) & Hrm & Hcm); [|done|].
  { simpl. split; [|done]. by exists n. }
  split; [done|]. split; [by exists nm|done].
Qed.

(** The inorder walk from a node *)
Lemma inorder_from_at_node t N k : ∀ x r c fuel,
  at_node (heap t) x r c →
  NoDup (x :: nodes r ++ ctx_nodes c) →
  (length (x :: nodes r ++ ctx_nodes c) ≤ N)%nat →
  (length (nodes r ++ after c) < k)%nat →
  (k + N ≤ fuel)%nat →
  inorder_from fuel t (Some x) = Ok (x :: nodes r ++ after c).
Proof.
  induction k as [|k IH]; intros x r c fuel Hat Hnd HN Hk Hf; [lia|].
  destruct fuel as [|fuel]; [lia|]. cbn [inorder_from].
  unfold ConstIterator_incr.
  pose proof Hat as ((n & Hn & Hr & Hp) & Hl & Hc).
  rewrite (get_links _ _ _ _ Hn), Hr.
  destruct r as [|rl ra rr].
  - (* no right subtree: climb *)
    cbn [bind top is_null negb nodes app].
    destruct (ascend_right_up t x c (S fuel)) as [Hup Hnext].
    { by exists n. } { done. } { done. }
    { pose proof (depth_ctx_nodes c). simpl in HN. lia. }
    rewrite Hup. rewrite (up_after c). cbn [bind].
    destruct (up c) as [[[a r'] c']|] eqn:Eup.
    + destruct (up_nodes _ _ _ _ Eup) as [pre Hpre].
      rewrite (IH a r' c' fuel); [done|exact Hnext| | | |lia].
      * simpl in Hnd. rewrite Hpre in Hnd. apply NoDup_cons in Hnd as [_ Hnd].
        by apply NoDup_app in Hnd as (_ & _ & Hnd).
      * simpl in HN. rewrite Hpre, length_app in HN. simpl in *. lia.
      * simpl in Hk. rewrite (up_after c), Eup in Hk. simpl in Hk. lia.
    + simpl in HN. destruct fuel; [lia|done].
  - (* right subtree: its leftmost node *)
    cbn [bind top is_null negb].
    pose proof (at_node_leftmost t x rl ra rr c (S fuel) Hat) as H.
    pose proof (leftmost_after rl ra rr (CR Leaf x c)) as Hafter.
    pose proof (leftmost_nodes rl ra rr (CR Leaf x c)) as Hnodes.
    destruct (leftmost rl ra rr (CR Leaf x c)) as [[m rm] cm].
    destruct H as [Hd Hat'].
    { simpl in HN. rewrite !length_app in HN. simpl in HN. rewrite !length_nodes in HN. lia. }
    rewrite Hd. cbn [bind].
    assert (Hperm : m :: nodes rm ++ ctx_nodes cm ≡ₚ x :: nodes (Br rl ra rr) ++ ctx_nodes c).
    { rewrite Hnodes. simpl. rewrite <- ?app_assoc. simpl.
      transitivity ((nodes rl ++ ra :: nodes rr) ++ x :: ctx_nodes c);
        [by rewrite <- app_assoc|].
      rewrite <- Permutation_middle. by rewrite <- app_assoc. }
    rewrite (IH m rm cm fuel); [|done| | | |lia].
    + cbn [bind]. rewrite Hafter. simpl. by rewrite <- ?app_assoc.
    + by rewrite Hperm.
    + by rewrite Hperm.
    + apply (f_equal length) in Hafter. simpl in Hafter, Hk.
      rewrite !length_app in Hafter, Hk. simpl in Hafter, Hk.
      rewrite !length_app in Hafter. rewrite length_app. lia.
Qed.

Lemma linked_lookup h p s a :
  linked h p s = true → a ∈ nodes s → is_Some (h !! a).
Proof.
  revert p. induction s as [|l IHl b r IHr]; intros p Hl Ha; simpl in Ha.
  - by apply elem_of_nil in Ha.
  - apply linked_Br in Hl as ((n & Hn & _) & Hll & Hlr).
    apply elem_of_app in Ha as [Ha|Ha]; [by eapply IHl|].
    apply elem_of_cons in Ha as [->|Ha]; [by exists n|by eapply IHr].
Qed.

Lemma items_of_nodes t l :
  (∀ a, a ∈ l → is_Some (heap t !! a)) →
  items_of t l = Ok (omap (λ a, item <$> heap t !! a) l).
Proof.
  induction l as [|a l IH]; intros Hl; simpl; [done|].
  destruct (Hl a) as [n Hn]; [by left|].
  rewrite (get_links _ _ _ _ Hn), Hn. simpl. rewrite IH; [done|].
  intros b Hb. apply Hl. by right.
Qed.

Lemma inorder_nodes_represents t s fuel :
  represents t s → (2 * size s < fuel)%nat →
  inorder_nodes fuel t = Ok (nodes s).
Proof.
  intros (Hroot & Hl & Hnd) Hf. apply nodupb_NoDup in Hnd.
  unfold inorder_nodes, begin, ConstIterator_new. rewrite Hroot.
  destruct s as [|l a r].
  - simpl. destruct fuel; [lia|done].
  - cbn [top is_null].
    pose proof (descend_left_leftmost t l a r Top fuel Hl I) as H.
    pose proof (leftmost_after l a r Top) as Hafter.
    pose proof (leftmost_nodes l a r Top) as Hnodes.
    destruct (leftmost l a r Top) as [[m rm] cm].
    destruct H as (Hd & (nm & Hnm & _ & Hmr & Hmp) & Hrm & Hcm);
      [change (size (Br l a r)) with (S (size l + size r)) in Hf; lia|].
    rewrite Hd. cbn [bind].
    simpl in Hafter, Hnodes. rewrite app_nil_r in Hafter, Hnodes.
    rewrite (inorder_from_at_node t (size (Br l a r)) (size (Br l a r)) m rm cm fuel).
    + by rewrite Hafter.
    + split; [by exists nm|done].
    + by rewrite Hnodes.
    + rewrite Hnodes. change (length (nodes (Br l a r)) ≤ size (Br l a r))%nat.
      by rewrite length_nodes.
    + apply (f_equal length) in Hafter.
      change (length (m :: nodes rm ++ after cm) = length (nodes (Br l a r))) in Hafter.
      rewrite length_nodes in Hafter. cbn [length] in Hafter. lia.
    + lia.
Qed.

Lemma inorder_items_represents t s fuel :
  represents t s → (2 * size s < fuel)%nat →
  inorder_items fuel t = Ok (items (heap t) s).
Proof.
  intros Hrep Hf. unfold inorder_items.
  rewrite (inorder_nodes_represents t s fuel Hrep Hf). cbn [bind].
  apply items_of_nodes. intros a Ha.
  destruct Hrep as (_ & Hl & _). by eapply linked_lookup.
Qed.

(** ** Heaps that agree on the nodes of a shape *)

Lemma linked_ext h h' p s :
  (∀ a, a ∈ nodes s → h !! a = h' !! a) → linked h p s = linked h' p s.
Proof.
  revert p. induction s as [|l IHl a r IHr]; intros p Hext; simpl; [done|].
  unfold linksb. rewrite <- (Hext a) by (simpl; set_solver).
  rewrite (IHl (Some a)), (IHr (Some a)); [done| |];
    intros b Hb; apply Hext; simpl; set_solver.
Qed.

Lemma ctx_linked_ext h h' c child :
  (∀ a, a ∈ ctx_nodes c → h !! a = h' !! a) →
  ctx_linked h c child → ctx_linked h' c child.
Proof.
  revert child. induction c as [|a r c IH|l a c IH]; intros child Hext; simpl; [done| |].
  - intros ((n & Hn & Hrest) & Hr & Hc). split; [|split].
    + exists n. rewrite <- (Hext a) by (simpl; set_solver). done.
    + rewrite <- Hr. symmetry. apply linked_ext. intros b Hb. apply Hext. simpl. set_solver.
    + apply IH; [|done]. intros b Hb. apply Hext. simpl. set_solver.
  - intros ((n & Hn & Hrest) & Hc). split.
    + exists n. rewrite <- (Hext a) by (simpl; set_solver). done.
    + apply IH; [|done]. intros b Hb. apply Hext. simpl. set_solver.
Qed.

Lemma ctx_linked_child h c child :
  ctx_linked h c child → hole_parent c ≠ None →
  ∃ a n, hole_parent c = Some a ∧ h !! a = Some n
         ∧ (if is_CR c then right n = child else left n = child).
Proof.
  destruct c as [|a r c|l a c]; simpl; [done| |].
  - intros ((n & Hn & Hl & _) & _) _. by exists a, n.
  - intros ((n & Hn & Hr & _) & _) _. by exists a, n.
Qed.

Lemma lookup_free_all h l a :
  free_all h l !! a = if bool_decide (a ∈ l) then None else h !! a.
Proof.
  revert h. induction l as [|b l IH]; intros h; simpl; [done|].
  unfold free_all in *. simpl. rewrite IH.
  destruct (decide (a = b)) as [->|Hne].
  - rewrite lookup_delete_eq. rewrite (bool_decide_eq_true_2 (b ∈ b :: l)) by set_solver.
    by case_bool_decide.
  - rewrite lookup_delete_ne by done.
    destruct (decide (a ∈ l)).
    + rewrite !bool_decide_eq_true_2; [done|set_solver|done].
    + rewrite !bool_decide_eq_false_2; [done|set_solver|done].
Qed.

(** ** Postorder *)

Lemma dive_None s c : dive s c = None → s = Leaf.
Proof.
  destruct s as [|l a r]; [done|]. simpl.
  destruct (dive l (CL a r c)); [done|]. by destruct (dive r (CR Leaf a c)).
Qed.

Lemma dive_Br l a r c :
  dive (Br l a r) c =
  match dive l (CL a r c) with
  | Some y => Some y
  | None =>
      match dive r (CR Leaf a c) with
      | Some y => Some y
      | None => Some (a, c)
      end
  end.
Proof. done. Qed.

Lemma dive_post s c :
  match dive s c with
  | None => s = Leaf
  | Some (y, cy) => y :: post_after cy = postorder s ++ post_after c
  end.
Proof.
  revert c. induction s as [|l IHl a r IHr]; intros c; simpl; [done|].
  specialize (IHl (CL a r c)). specialize (IHr (CR Leaf a c)).
  destruct (dive l (CL a r c)) as [[y cy]|].
  - rewrite IHl. simpl. by rewrite <- ?app_assoc.
  - subst l. destruct (dive r (CR Leaf a c)) as [[y cy]|].
    + rewrite IHr. simpl. by rewrite <- ?app_assoc.
    + by subst r.
Qed.

Lemma dive_nodes s c :
  match dive s c with
  | None => True
  | Some (y, cy) => y :: ctx_nodes cy ≡ₚ nodes s ++ ctx_nodes c
  end.
Proof.
  revert c. induction s as [|l IHl a r IHr]; intros c; simpl; [done|].
  specialize (IHl (CL a r c)). specialize (IHr (CR Leaf a c)).
  pose proof (dive_None l (CL a r c)) as Hl.
  destruct (dive l (CL a r c)) as [[y cy]|].
  - rewrite IHl. simpl. by rewrite <- ?app_assoc.
  - rewrite Hl by done. pose proof (dive_None r (CR Leaf a c)) as Hr.
    destruct (dive r (CR Leaf a c)) as [[y cy]|].
    + rewrite IHr. simpl. by rewrite Permutation_middle.
    + rewrite Hr by done. done.
Qed.

Lemma post_next_after c :
  post_after c = match post_next c with
                 | None => []
                 | Some (y, cy) => y :: post_after cy
                 end.
Proof.
  destruct c as [|a r c|l a c]; simpl; [done| |done].
  pose proof (dive_post r (CR Leaf a c)) as H.
  destruct (dive r (CR Leaf a c)) as [[y cy]|]; [by rewrite H|by subst r].
Qed.

Lemma post_next_nodes c :
  match post_next c with
  | None => True
  | Some (y, cy) => y :: ctx_nodes cy ≡ₚ ctx_nodes c
  end.
Proof.
  destruct c as [|a r c|l a c]; simpl; [done| |done].
  pose proof (dive_nodes r (CR Leaf a c)) as H.
  pose proof (dive_None r (CR Leaf a c)) as Hr.
  destruct (dive r (CR Leaf a c)) as [[y cy]|].
  - rewrite H. simpl. by rewrite Permutation_middle.
  - by rewrite Hr.
Qed.

(** The visit step of [operator++] at a node [y] that sits in [c] *)
Lemma visit_step t (y : addr) c :
  (∃ n, heap t !! y = Some n ∧ parent n = hole_parent c) →
  ctx_linked (heap t) c (Some y) →
  NoDup (y :: ctx_nodes c) →
  (p ← get parent t (Some y);
   stay ← (if is_null p then Ok false
           else pr ← get right t p; Ok (ptr_eqb pr (Some y)));
   Ok (mkPostIter (Some y) p (negb stay))) = Ok (visit y c).
Proof.
  intros (n & Hn & Hp) Hc Hnd. rewrite (get_links _ _ _ _ Hn), Hp. cbn [bind].
  destruct c as [|a r c|l a c]; simpl in *.
  - done.
  - destruct Hc as ((na & Hna & _ & Har & _) & _).
    rewrite (get_links _ _ _ _ Hna), Har. cbn [bind].
    rewrite ptr_eqb_ne; [done|].
    destruct r as [|rl ra rr]; simpl; [done|]. intros [= ->].
    apply NoDup_cons in Hnd as [Hy _]. apply Hy. set_solver.
  - destruct Hc as ((na & Hna & Har & _) & _).
    rewrite (get_links _ _ _ _ Hna), Har. cbn [bind]. by rewrite ptr_eqb_refl.
Qed.

(** From the top of a subtree down to the first node of its postorder *)
Lemma advance_dive t s : ∀ c cur f1 f2,
  s ≠ Leaf →
  linked (heap t) (hole_parent c) s = true →
  ctx_linked (heap t) c (top s) →
  NoDup (nodes s ++ ctx_nodes c) →
  (size s < f1)%nat → (size s < f2)%nat →
  ∃ m y cy,
    descend_left f1 t (top s) = Ok (Some m)
    ∧ dive s c = Some (y, cy)
    ∧ Postorder_advance f2 t (mkPostIter cur (Some m) true) = Ok (visit y cy)
    ∧ (∃ n, heap t !! y = Some n ∧ parent n = hole_parent cy)
    ∧ ctx_linked (heap t) cy (Some y).
Proof.
  induction s as [|l IHl a r IHr]; intros c cur f1 f2 Hs Hl Hc Hnd Hf1 Hf2; [done|].
  apply linked_Br in Hl as ((n & Hn & Hnl & Hnr & Hnp) & Hll & Hlr).
  assert (Hndl : NoDup (nodes l ++ ctx_nodes (CL a r c))).
  { simpl in *. by rewrite <- app_assoc in Hnd. }
  assert (Hndr : NoDup (nodes r ++ ctx_nodes (CR Leaf a c))).
  { simpl in *. rewrite <- app_assoc in Hnd. apply NoDup_app in Hnd as (_ & _ & Hnd).
    simpl in Hnd. by rewrite <- Permutation_middle. }
  assert (Hnda : NoDup (a :: ctx_nodes c)).
  { simpl in *. rewrite <- app_assoc in Hnd. apply NoDup_app in Hnd as (_ & _ & Hnd).
    simpl in Hnd. apply NoDup_cons in Hnd as [Ha Hnd]. apply NoDup_app in Hnd as (_ & _ & Hnd).
    apply NoDup_cons. split; [|done]. set_solver. }
  assert (Hsl : (S (size l) < f1 ∧ size l < f2)%nat) by (simpl in *; lia).
  assert (Hsr : (size r < f2 - 1)%nat) by (simpl in *; lia).
  clear Hnd Hf1.
  destruct f1 as [|f1]; [lia|]. cbn [descend_left top].
  rewrite (get_links _ _ _ _ Hn), Hnl. cbn [bind].
  destruct l as [|ll la lr].
  - (* no left subtree: [a] is where the descent stops *)
    cbn [top is_null]. exists a.
    destruct f2 as [|f2]; [lia|]. cbn [Postorder_advance next is_null downwardPhase].
    rewrite (get_links _ _ _ _ Hn), Hnr. cbn [bind]. rewrite dive_Br. cbn [dive].
    destruct r as [|rl ra rr].
    + (* no right subtree either: visit [a] *)
      exists a, c. split; [done|]. split; [done|].
      cbn [top is_null negb]. destruct f2 as [|f2]; [simpl in Hf2; lia|].
      cbn [Postorder_advance next is_null downwardPhase current].
      split; [|split; [by exists n|done]].
      apply visit_step; [by exists n|done|done].
    + cbn [top is_null negb].
      destruct (IHr (CR Leaf a c) cur (S f2) f2) as (m & y & cy & Hd & Hdive & Hadv & Hy & Hcy).
      * done.
      * done.
      * simpl. split; [by exists n|done].
      * done.
      * lia.
      * lia.
      * exists y, cy. rewrite Hdive. cbn [top] in Hd. rewrite Hd. cbn [bind].
        done.
  - cbn [top is_null].
    destruct (IHl (CL a r c) cur f1 f2) as (m & y & cy & Hd & Hdive & Hadv & Hy & Hcy).
    + done.
    + done.
    + simpl. split; [by exists n|done].
    + done.
    + lia.
    + lia.
    + exists m, y, cy. rewrite dive_Br, Hdive. done.
Qed.

(** One [operator++] from the iterator that hands out [x] *)
Lemma Postorder_incr_visit t x c fuel :
  ctx_linked (heap t) c (Some x) →
  NoDup (x :: ctx_nodes c) →
  (length (ctx_nodes c) + 1 < fuel)%nat →
  match post_next c with
  | None => Postorder_incr fuel t (visit x c) = Ok Postorder_end
  | Some (y, cy) =>
      Postorder_incr fuel t (visit x c) = Ok (visit y cy)
      ∧ (∃ n, heap t !! y = Some n ∧ parent n = hole_parent cy)
      ∧ ctx_linked (heap t) cy (Some y)
  end.
Proof.
  intros Hc Hnd Hf. unfold Postorder_incr.
  destruct c as [|a r c|l a c]; cbn [post_next visit hole_parent is_CR next is_null negb].
  - destruct fuel; [lia|]. done.
  - destruct Hc as ((n & Hn & Hnl & Hnr & Hnp) & Hlr & Hc).
    assert (Hsr : (size r + 2 < fuel)%nat).
    { simpl in Hf. rewrite length_app, length_nodes in Hf. lia. }
    assert (Hndr : NoDup (nodes r ++ ctx_nodes (CR Leaf a c))).
    { simpl in Hnd. apply NoDup_cons in Hnd as [_ Hnd].
      simpl. by rewrite <- Permutation_middle. }
    assert (Hnda : NoDup (a :: ctx_nodes c)).
    { simpl in Hnd. apply NoDup_cons in Hnd as [_ Hnd].
      apply NoDup_cons in Hnd as [Ha Hnd]. apply NoDup_app in Hnd as (_ & _ & Hnd).
      apply NoDup_cons. split; [|done]. set_solver. }
    clear Hf Hnd.
    destruct fuel as [|fuel]; [lia|]. cbn [Postorder_advance next is_null downwardPhase].
    rewrite (get_links _ _ _ _ Hn), Hnr. cbn [bind].
    destruct r as [|rl ra rr].
    + cbn [top is_null negb dive current].
      destruct fuel as [|fuel]; [simpl in Hsr; lia|].
      cbn [Postorder_advance next is_null downwardPhase current].
      split; [|split; [by exists n|done]].
      apply visit_step; [by exists n|done|done].
    + destruct (advance_dive t (Br rl ra rr) (CR Leaf a c) (Some x) (S fuel) fuel)
        as (m & y & cy & Hd & Hdive & Hadv & Hy & Hcy).
      * done.
      * done.
      * simpl. split; [by exists n|done].
      * done.
      * lia.
      * lia.
      * rewrite Hdive. cbn [top is_null negb]. cbn [top] in Hd. rewrite Hd. cbn [bind].
        done.
  - destruct Hc as ((n & Hn & Hnr & Hnp) & Hc).
    destruct fuel as [|fuel]; [lia|]. cbn [Postorder_advance next is_null downwardPhase].
    split; [|split; [by exists n|done]].
    apply visit_step; [by exists n|done|].
    simpl in Hnd. apply NoDup_cons in Hnd as [_ Hnd]. done.
Qed.

Lemma Postorder_neq_visit x c : Postorder_neq (visit x c) Postorder_end = true.
Proof.
  unfold Postorder_neq, visit, Postorder_end. cbn [current next downwardPhase].
  by rewrite ptr_eqb_ne.
Qed.

Lemma Postorder_neq_end : Postorder_neq Postorder_end Postorder_end = false.
Proof. done. Qed.

(** The postorder walk from the iterator that hands out [x] *)
Lemma postorder_from_visit t N k : ∀ x c fuel,
  ctx_linked (heap t) c (Some x) →
  NoDup (x :: ctx_nodes c) →
  (length (ctx_nodes c) + 1 < N)%nat →
  (length (post_after c) < k)%nat →
  (k + N ≤ fuel)%nat →
  postorder_from fuel t (visit x c) = Ok (Some x :: map Some (post_after c)).
Proof.
  induction k as [|k IH]; intros x c fuel Hc Hnd HN Hk Hf; [lia|].
  destruct fuel as [|fuel]; [lia|]. cbn [postorder_from].
  rewrite Postorder_neq_visit.
  pose proof (Postorder_incr_visit t x c (S fuel) Hc Hnd) as Hstep.
  pose proof (post_next_after c) as Hafter.
  pose proof (post_next_nodes c) as Hnodes.
  destruct (post_next c) as [[y cy]|].
  - destruct Hstep as (Hstep & Hy & Hcy); [lia|].
    rewrite Hstep. cbn [bind].
    rewrite (IH y cy fuel); [by rewrite Hafter|done| | | |lia].
    + rewrite Hnodes. by apply NoDup_cons in Hnd as [_ Hnd].
    + apply Permutation_length in Hnodes. simpl in Hnodes. lia.
    + rewrite Hafter in Hk. simpl in Hk. lia.
  - rewrite Hstep by lia. cbn [bind]. rewrite Hafter.
    destruct fuel as [|fuel]; [lia|]. done.
Qed.

Lemma postorder_nodes_represents t s fuel :
  represents t s → (2 * size s + 2 < fuel)%nat →
  postorder_nodes fuel t = Ok (map Some (postorder s)).
Proof.
  intros (Hroot & Hl & Hnd) Hf. apply nodupb_NoDup in Hnd.
  unfold postorder_nodes, Postorder_begin, Postorder_new. rewrite Hroot.
  destruct s as [|l a r].
  - simpl. destruct fuel; [lia|done].
  - destruct (advance_dive t (Br l a r) Top None fuel fuel)
      as (m & y & cy & Hd & Hdive & Hadv & Hy & Hcy);
      [done|done|done|by rewrite app_nil_r|lia|lia|].
    cbn [top is_null] in *.
    rewrite Hd. cbn [bind]. unfold Postorder_incr. cbn [next is_null].
    rewrite Hadv. cbn [bind].
    pose proof (dive_post (Br l a r) Top) as Hpost.
    pose proof (dive_nodes (Br l a r) Top) as Hnodes.
    rewrite Hdive in Hpost, Hnodes. simpl post_after in Hpost. simpl ctx_nodes in Hnodes.
    rewrite app_nil_r in Hpost, Hnodes.
    assert (Hlen : S (length (ctx_nodes cy)) = size (Br l a r)).
    { apply Permutation_length in Hnodes. by rewrite length_nodes in Hnodes. }
    assert (Hlen' : S (length (post_after cy)) = size (Br l a r)).
    { apply (f_equal length) in Hpost. by rewrite length_postorder in Hpost. }
    rewrite (postorder_from_visit t (size (Br l a r) + 1) (size (Br l a r)) y cy fuel);
      [|done| | | |].
    + by rewrite <- Hpost.
    + by rewrite Hnodes.
    + lia.
    + lia.
    + lia.
Qed.

Lemma delete_node_Some t (a : addr) n :
  heap t !! a = Some n →
  delete_node t (Some a) = Ok (mkTree (delete a (heap t)) (root t)).
Proof. intros H. unfold delete_node. by rewrite H. Qed.

(** The walk of [Clear]: every node that is handed out is freed *)
Lemma Clear_loop_visit N k : ∀ t x c fuel,
  is_Some (heap t !! x) →
  ctx_linked (heap t) c (Some x) →
  NoDup (x :: ctx_nodes c) →
  (length (ctx_nodes c) + 1 < N)%nat →
  (length (post_after c) < k)%nat →
  (k + N ≤ fuel)%nat →
  Clear_loop fuel t (visit x c)
  = Ok (mkTree (free_all (heap t) (x :: post_after c)) (root t)).
Proof.
  induction k as [|k IH]; intros t x c fuel [n Hn] Hc Hnd HN Hk Hf; [lia|].
  destruct fuel as [|fuel]; [lia|]. cbn [Clear_loop].
  rewrite Postorder_neq_visit. cbn [visit current].
  rewrite (delete_node_Some t x n Hn). cbn [bind].
  set (t1 := mkTree (delete x (heap t)) (root t)).
  assert (Hc1 : ctx_linked (heap t1) c (Some x)).
  { eapply ctx_linked_ext; [|exact Hc]. intros a Ha. simpl.
    rewrite lookup_delete_ne; [done|]. intros ->.
    apply NoDup_cons in Hnd as [Hx _]. done. }
  pose proof (Postorder_incr_visit t1 x c (S fuel) Hc1 Hnd) as Hstep.
  pose proof (post_next_after c) as Hafter.
  pose proof (post_next_nodes c) as Hnodes.
  change (mkPostIter (Some x) (hole_parent c) (negb (is_CR c))) with (visit x c).
  destruct (post_next c) as [[y cy]|].
  - destruct Hstep as (Hstep & (ny & Hy & _) & Hcy); [lia|].
    rewrite Hstep. cbn [bind].
    rewrite (IH t1 y cy fuel); [|by exists ny|done| | | |lia].
    + rewrite Hafter. done.
    + rewrite Hnodes. by apply NoDup_cons in Hnd as [_ Hnd].
    + apply Permutation_length in Hnodes. simpl in Hnodes. lia.
    + rewrite Hafter in Hk. simpl in Hk. lia.
  - rewrite Hstep by lia. cbn [bind]. rewrite Hafter.
    destruct fuel as [|fuel]; [lia|]. done.
Qed.

Lemma Clear_represents t s fuel :
  represents t s → (2 * size s + 2 < fuel)%nat →
  Clear fuel t = Ok (mkTree (free_all (heap t) (postorder s)) None).
Proof.
  intros (Hroot & Hl & Hnd) Hf. apply nodupb_NoDup in Hnd.
  unfold Clear, Postorder_begin, Postorder_new. rewrite Hroot.
  destruct s as [|l a r].
  - simpl. destruct fuel; [lia|done].
  - destruct (advance_dive t (Br l a r) Top None fuel fuel)
      as (m & y & cy & Hd & Hdive & Hadv & Hy & Hcy);
      [done|done|done|by rewrite app_nil_r|lia|lia|].
    cbn [top is_null] in *.
    rewrite Hd. cbn [bind]. unfold Postorder_incr. cbn [next is_null].
    rewrite Hadv. cbn [bind].
    pose proof (dive_post (Br l a r) Top) as Hpost.
    pose proof (dive_nodes (Br l a r) Top) as Hnodes.
    rewrite Hdive in Hpost, Hnodes. simpl post_after in Hpost. simpl ctx_nodes in Hnodes.
    rewrite app_nil_r in Hpost, Hnodes.
    assert (Hlen : S (length (ctx_nodes cy)) = size (Br l a r)).
    { apply Permutation_length in Hnodes. by rewrite length_nodes in Hnodes. }
    assert (Hlen' : S (length (post_after cy)) = size (Br l a r)).
    { apply (f_equal length) in Hpost. by rewrite length_postorder in Hpost. }
    destruct Hy as (ny & Hny & _).
    rewrite (Clear_loop_visit (size (Br l a r) + 1) (size (Br l a r)) t y cy fuel);
      [|by exists ny|done| | | |].
    + cbn [bind]. by rewrite Hpost.
    + by rewrite Hnodes.
    + lia.
    + lia.
    + lia.
Qed.

End Rep.

Lemma items_Br {K M} (h : gmap addr (Node K M)) l a r n :
  h !! a = Some n → items h (Br l a r) = items h l ++ item n :: items h r.
Proof. intros Hn. unfold items. simpl. rewrite omap_app. simpl. by rewrite Hn. Qed.

Lemma ordered_items {M} (h : gmap addr (Node Z M)) lo hi s :
  ordered h lo hi s = true →
  Forall (λ x, above lo x = true ∧ below hi x = true) (items h s)
  ∧ StronglySorted Z.lt (items h s).
Proof.
  revert lo hi. induction s as [|l IHl a r IHr]; intros lo hi Ho; simpl in Ho.
  - split; constructor.
  - destruct (h !! a) as [n|] eqn:Hn; [|done].
    apply andb_true_iff in Ho as [Ho Hr]. apply andb_true_iff in Ho as [Ho Hl].
    apply andb_true_iff in Ho as [Hlo Hhi].
    destruct (IHl _ _ Hl) as [Fl Sl]. destruct (IHr _ _ Hr) as [Fr Sr].
    rewrite (items_Br h l a r n Hn).
    split.
    + apply Forall_app. split; [|constructor; [done|]].
      * eapply Forall_impl; [exact Fl|]. simpl. intros x [H1 H2]. split; [done|].
        destruct hi as [b|]; simpl in *; [|done]. lia.
      * eapply Forall_impl; [exact Fr|]. simpl. intros x [H1 H2]. split; [|done].
        destruct lo as [b|]; simpl in *; [|done]. lia.
    + apply StronglySorted_app_2; [|exact Sl|].
      * intros x y Hx Hy. rewrite Forall_forall in Fl, Fr.
        apply Fl in Hx as [_ Hx]. simpl in Hx.
        apply elem_of_cons in Hy as [->|Hy]; [lia|].
        apply Fr in Hy as [Hy _]. simpl in Hy. lia.
      * constructor; [exact Sr|].
        eapply Forall_impl; [exact Fr|]. simpl. intros x [H1 _]. lia.
Qed.




Lemma ordered_Br_inv {M} (h : gmap addr (Node Z M)) lo hi l a r n :
  ordered h lo hi (Br l a r) = true → h !! a = Some n →
  ordered h lo (Some (item n)) l = true ∧ ordered h (Some (item n)) hi r = true.
Proof.
  intros Ho Hn. simpl in Ho. rewrite Hn in Ho.
  apply andb_true_iff in Ho as [Ho Hr]. apply andb_true_iff in Ho as [_ Hl]. done.
Qed.



Lemma new_node_delete {K M} (t : Tree K M) n :
  delete_node (new_node t n).1 (Some (new_node t n).2) = Ok t.
Proof.
  unfold delete_node, new_node. simpl. rewrite lookup_insert_eq.
  rewrite delete_insert_eq.
  rewrite delete_id.
  - by destruct t.
  - apply not_elem_of_dom. apply is_fresh.
Qed.

(** The descent of [Remove] ends at [nullptr] when no node holds [x]. *)
Lemma RB_Remove_find_absent (t : RBTree.T) p s x fuel :
  linked (heap t) p s = true → x ∉ items (heap t) s → (size s < fuel)%nat →
  RBTree.Remove_find fuel t x (top s) = Ok None.
Proof.
  revert p fuel. induction s as [|l IHl a r IHr]; intros p fuel Hl Hx Hf;
    (destruct fuel as [|fuel]; [lia|]); [done|].
  apply linked_Br in Hl as ((n & Hn & Hnl & Hnr & Hnp) & Hll & Hlr).
  rewrite (items_Br _ l a r n Hn) in Hx.
  cbn [RBTree.Remove_find top is_null]. rewrite (get_links _ _ _ _ Hn). cbn [bind].
  destruct (Z.eqb_spec (item n) x) as [Heq|Hne];
    [exfalso; apply Hx; rewrite <- Heq; set_solver|].
  destruct (x <? item n).
  - rewrite (get_links _ _ _ _ Hn), Hnl. cbn [bind].
    eapply IHl; [done|set_solver|simpl in Hf; lia].
  - rewrite (get_links _ _ _ _ Hn), Hnr. cbn [bind].
    eapply IHr; [done|set_solver|simpl in Hf; lia].
Qed.

Lemma AVL_Remove_find_absent (t : AVLTree.T) p s x fuel :
  linked (heap t) p s = true → x ∉ items (heap t) s → (size s < fuel)%nat →
  AVLTree.Remove_find fuel t x (top s) = Ok None.
Proof.
  revert p fuel. induction s as [|l IHl a r IHr]; intros p fuel Hl Hx Hf;
    (destruct fuel as [|fuel]; [lia|]); [done|].
  apply linked_Br in Hl as ((n & Hn & Hnl & Hnr & Hnp) & Hll & Hlr).
  rewrite (items_Br _ l a r n Hn) in Hx.
  cbn [AVLTree.Remove_find top is_null]. rewrite (get_links _ _ _ _ Hn). cbn [bind].
  destruct (Z.eqb_spec (item n) x) as [Heq|Hne];
    [exfalso; apply Hx; rewrite <- Heq; set_solver|].
  destruct (x <? item n).
  - rewrite (get_links _ _ _ _ Hn), Hnl. cbn [bind].
    eapply IHl; [done|set_solver|simpl in Hf; lia].
  - rewrite (get_links _ _ _ _ Hn), Hnr. cbn [bind].
    eapply IHr; [done|set_solver|simpl in Hf; lia].
Qed.



(** * The claims *)

(** C1 (fails on the code).  Claim: after every [Insert] and [Remove] on
    a red-black tree that started empty, [IsValid()] returns true.
    Here: after inserting 1, 2, 3, 4, removing 1 and inserting 0,
    [IsValid()] returns false, with any fuel from 8 on.  [Remove(1)]
    unlinks a black node without children and runs no fixup, so the
    left path of the root is one black node short; the red node 0 then
    becomes a leaf with a different black count. *)
Theorem C1_rb_invalid_after_black_leaf_removal : ∀ k : nat,
  bind (RBTree.run (8 + k) empty_tree
          [RBTree.Ins 1; RBTree.Ins 2; RBTree.Ins 3; RBTree.Ins 4;
           RBTree.Rem 1; RBTree.Ins 0])
       (RBTree.IsValid (8 + k)) = Ok false.
Proof. intros k. vm_compute. reflexivity. Qed.

(** C2 (fails on the code).  Claim: after every [Insert] and [Remove] on
    an AVL tree that started empty, [IsValid()] returns true.
    Here: after inserting 3, 2, 6, 1, 5, 7, 8 the tree is valid, and
    after removing 1 the root is left with balance factor 2:
    [IsValid()] returns false. *)
Theorem C2_avl_invalid_after_remove : ∀ k : nat,
  bind (AVLTree.run (16 + k) empty_tree
          (AVLTree.Ins <$> [3; 2; 6; 1; 5; 7; 8]))
       (AVLTree.IsValid (16 + k)) = Ok true
  ∧ bind (AVLTree.run (16 + k) empty_tree
            ((AVLTree.Ins <$> [3; 2; 6; 1; 5; 7; 8]) ++ [AVLTree.Rem 1]))
         (λ t, bind (AVLTree.IsValid (16 + k) t)
                 (λ v, bind (get meta t (root t)) (λ b, Ok (v, b))))
    = Ok (false, 2).
Proof. intros k. split; vm_compute; reflexivity. Qed.

(** C3 (fails on the code).  Claim: whenever the physically removed node
    was Black, [Remove] runs [RemoveFixup], also when the removed node
    had no children.  Here: in the tree of three black nodes 1, 2, 3,
    [Remove(1)] finds the black node at address 1, which has no
    children; the structural removal leaves [balancePoint] null, the
    guard of [RemoveFixup] is false, and [Remove] returns the unlinked
    tree as it is. *)
Theorem C3_rb_no_fixup_for_black_leaf : ∀ k : nat,
  let fuel := (8 + k)%nat in
  let current := Some 1%positive in
  RBTree.Remove_find fuel rb_black3 1 (root rb_black3) = Ok current
  ∧ get meta rb_black3 current = Ok RBTree.Black
  ∧ get left rb_black3 current = Ok None
  ∧ get right rb_black3 current = Ok None
  ∧ ∃ t',
      RBTree.Remove_unlink fuel rb_black3 current = Ok (t', None)
      ∧ RBTree.Remove_needs_fixup t' current None = Ok false
      ∧ RBTree.Remove fuel rb_black3 1 = delete_node t' current.
Proof.
  intros k fuel current. repeat split; try (vm_compute; reflexivity).
  eexists. repeat split; vm_compute; reflexivity.
Qed.

(** C4 (fails on the code).  Claim: inserting a set and then removing
    every element, in any order, yields an empty valid tree.  Here, on
    the red-black tree: after inserting 0, 1, 2, 4, 5, 3 and removing
    1, 0, 2, the node 3 still names the freed node 2 as its parent, and
    [Remove(3)] dereferences it.  No amount of fuel makes the run
    return a tree. *)
Theorem C4_rb_round_trip_faults :
  (∀ k : nat,
     RBTree.run (8 + k) empty_tree
       ((RBTree.Ins <$> [0; 1; 2; 4; 5; 3]) ++ (RBTree.Rem <$> [1; 0; 2; 3; 4; 5]))
     = Fault)
  ∧ (∀ (fuel : nat) (t : RBTree.T),
       RBTree.run fuel empty_tree
         ((RBTree.Ins <$> [0; 1; 2; 4; 5; 3]) ++ (RBTree.Rem <$> [1; 0; 2; 3; 4; 5]))
       ≠ Ok t).
Proof.
  split.
  - intros k. vm_compute. reflexivity.
  - intros fuel t.
    do 8 (destruct fuel as [|fuel]; [vm_compute; discriminate|]).
    vm_compute. discriminate.
Qed.

Lemma postorder_nodes_perm s : postorder s ≡ₚ nodes s.
Proof.
  induction s as [|l IHl a r IHr]; simpl; [done|].
  rewrite IHl, IHr. apply Permutation_app_head. symmetry. apply Permutation_cons_append.
Qed.



(** An iterator that [operator++] maps to itself never reaches
    [end()]. *)
Lemma postorder_from_stuck {K M : Type} (t : Tree K M) (it : PostIter) :
  Postorder_neq it Postorder_end = true →
  (∀ fuel it', Postorder_incr fuel t it = Ok it' → it' = it) →
  ∀ fuel l, postorder_from fuel t it ≠ Ok l.
Proof.
  intros Hne Hfix fuel. induction fuel as [|f IH]; intros l; [done|].
  cbn [postorder_from]. rewrite Hne.
  destruct (Postorder_incr (S f) t it) as [it'| |] eqn:E; [|done|done].
  rewrite (Hfix _ _ E). cbn [bind].
  destruct (postorder_from f t it) as [rest| |] eqn:E'; [|done|done].
  by destruct (IH rest).
Qed.

Lemma postorder_nodes_stuck {K M : Type} (t : Tree K M) (it0 it1 : PostIter) :
  (∀ fuel it, Postorder_begin fuel t = Ok it → it = it0) →
  Postorder_neq it0 Postorder_end = true →
  (∀ fuel it, Postorder_incr fuel t it0 = Ok it → it = it1) →
  Postorder_neq it1 Postorder_end = true →
  (∀ fuel it, Postorder_incr fuel t it1 = Ok it → it = it1) →
  ∀ fuel l, postorder_nodes fuel t ≠ Ok l.
Proof.
  intros Hb Hne0 H0 Hne1 H1 fuel l. unfold postorder_nodes.
  destruct (Postorder_begin fuel t) as [it| |] eqn:E; [|done|done].
  rewrite (Hb _ _ E). cbn [bind].
  destruct fuel as [|f]; [done|]. cbn [postorder_from]. rewrite Hne0.
  destruct (Postorder_incr (S f) t it0) as [it'| |] eqn:E0; [|done|done].
  rewrite (H0 _ _ E0). cbn [bind].
  destruct (postorder_from f t it1) as [rest| |] eqn:E'; [|done|done].
  by destruct (postorder_from_stuck t it1 Hne1 H1 f rest).
Qed.

(** C7 (fails on the code).  Claim: for every tree, postorder
    iteration visits each stored element exactly once, and [Clear]
    (and the destructor), which delete each visited node during the
    walk, still traverse every node and leave the tree empty.  Here, on
    the red-black tree built by inserting 0, 1, 2, 4, 5, 3 and removing
    1 (and on the AVL tree built by inserting 4, 2, 8, 1, 5, 9, 6 and
    removing 4): [Remove] has left the parent pointer of one node on
    the root.  The postorder iteration of the red-black tree hands out
    item 0, then item 3, and then item 3 again and again (that of the
    AVL tree: 1, 2, 6, 6, ...): it never reaches [end()], and the
    other nodes are never handed out.  [Clear] deletes that node and
    then reads it again while advancing: it reads a deleted node and
    does not return an empty tree. *)
Theorem C7_postorder_repeats_after_remove :
  let it0 := mkPostIter (Some 1%positive) (Some 3%positive) true in
  let it3 := mkPostIter (Some 6%positive) (Some 3%positive) true in
  let ia0 := mkPostIter (Some 4%positive) (Some 2%positive) true in
  let ia2 := mkPostIter (Some 2%positive) (Some 5%positive) true in
  let ia6 := mkPostIter (Some 7%positive) (Some 5%positive) true in
  (* the red-black tree *)
  (∀ k : nat,
     RBTree.run (8 + k) empty_tree
       ((RBTree.Ins <$> [0; 1; 2; 4; 5; 3]) ++ [RBTree.Rem 1]) = Ok rb_stale)
  ∧ get item rb_stale (Some 1%positive) = Ok 0
  ∧ get item rb_stale (Some 6%positive) = Ok 3
  ∧ (∀ k : nat, Postorder_begin (3 + k) rb_stale = Ok it0)
  ∧ (∀ k : nat, Postorder_incr (3 + k) rb_stale it0 = Ok it3)
  ∧ (∀ k : nat, Postorder_incr (3 + k) rb_stale it3 = Ok it3)
  ∧ Postorder_neq it3 Postorder_end = true
  ∧ (∀ (fuel : nat) (l : list ptr), postorder_nodes fuel rb_stale ≠ Ok l)
  ∧ (∀ k : nat, Clear (4 + k) rb_stale = Fault)
  ∧ (∀ (fuel : nat) (t' : RBTree.T), Clear fuel rb_stale ≠ Ok t')
  (* the AVL tree *)
  ∧ (∀ k : nat,
       AVLTree.run (8 + k) empty_tree
         ((AVLTree.Ins <$> [4; 2; 8; 1; 5; 9; 6]) ++ [AVLTree.Rem 4]) = Ok avl_stale)
  ∧ get item avl_stale (Some 7%positive) = Ok 6
  ∧ (∀ k : nat, Postorder_begin (3 + k) avl_stale = Ok ia0)
  ∧ (∀ k : nat, Postorder_incr (3 + k) avl_stale ia0 = Ok ia2)
  ∧ (∀ k : nat, Postorder_incr (3 + k) avl_stale ia2 = Ok ia6)
  ∧ (∀ k : nat, Postorder_incr (3 + k) avl_stale ia6 = Ok ia6)
  ∧ (∀ k : nat, Clear (5 + k) avl_stale = Fault)
  ∧ (∀ (fuel : nat) (t' : AVLTree.T), Clear fuel avl_stale ≠ Ok t').
Proof.
  intros it0 it3 ia0 ia2 ia6.
  split_and!; try (intros k; vm_compute; reflexivity); try (vm_compute; reflexivity).
  - apply (postorder_nodes_stuck rb_stale it0 it3); try reflexivity;
      intros fuel it;
      do 3 (destruct fuel as [|fuel]; [vm_compute; congruence|]);
      vm_compute; congruence.
  - intros fuel t'.
    do 4 (destruct fuel as [|fuel]; [vm_compute; discriminate|]).
    vm_compute. discriminate.
  - intros fuel t'.
    do 5 (destruct fuel as [|fuel]; [vm_compute; discriminate|]).
    vm_compute. discriminate.
Qed.






(** C9.  For every tree, red-black [tr] or AVL [ta], whose nodes are
    linked as a shape, and every key [x] that none of its nodes holds,
    [Remove(x)] returns the tree it was given: root, links, colors or
    balance factors and items are all as before. *)
Theorem C9_remove_absent_is_noop
    (tr : RBTree.T) (ta : AVLTree.T) (sr sa : shape) (x : Z) (fuel : nat) :
  represents tr sr → x ∉ items (heap tr) sr →
  represents ta sa → x ∉ items (heap ta) sa →
  (size sr < fuel)%nat → (size sa < fuel)%nat →
  RBTree.Remove fuel tr x = Ok tr ∧ AVLTree.Remove fuel ta x = Ok ta.
Proof.
  intros (Hrr & Hlr & _) Hxr (Hra & Hla & _) Hxa Hfr Hfa. split.
  - unfold RBTree.Remove. rewrite Hrr.
    by rewrite (RB_Remove_find_absent tr None sr x fuel Hlr Hxr Hfr).
  - unfold AVLTree.Remove. rewrite Hra.
    by rewrite (AVL_Remove_find_absent ta None sa x fuel Hla Hxa Hfa).
Qed.

Lemma C9_remove_absent_is_noop_witness :
  represents rb_213 shape_213 ∧ (7 ∉ items (heap rb_213) shape_213)
  ∧ represents avl_213 shape_213 ∧ (7 ∉ items (heap avl_213) shape_213)
  ∧ (size shape_213 < 9)%nat
  ∧ RBTree.Remove 9 rb_213 7 = Ok rb_213 ∧ AVLTree.Remove 9 avl_213 7 = Ok avl_213.
Proof.
  assert (H1 : represents rb_213 shape_213) by (repeat split; vm_compute; reflexivity).
  assert (H2 : 7 ∉ items (heap rb_213) shape_213).
  { apply (proj1 (bool_decide_eq_false _)). vm_compute. reflexivity. }
  assert (H3 : represents avl_213 shape_213) by (repeat split; vm_compute; reflexivity).
  assert (H4 : 7 ∉ items (heap avl_213) shape_213).
  { apply (proj1 (bool_decide_eq_false _)). vm_compute. reflexivity. }
  assert (H5 : (size shape_213 < 9)%nat) by (simpl; lia).
  split; [exact H1|]. split; [exact H2|]. split; [exact H3|]. split; [exact H4|].
  split; [exact H5|].
  exact (C9_remove_absent_is_noop rb_213 avl_213 shape_213 shape_213 7 9 H1 H2 H3 H4 H5 H5).
Defined.

(** C10.  For every tree whose root is null, red-black [tr] or AVL [ta],
    [IsValid()] returns true, [Search] returns false for every item,
    [begin()] equals [end()] and the inorder iteration yields nothing;
    a freshly constructed tree has a null root, and so has every tree
    that [Clear()] returns. *)
Theorem C10_null_root
    (tr : RBTree.T) (ta : AVLTree.T) (x : Z) (fuel : nat) :
  root tr = None → root ta = None → (0 < fuel)%nat →
  (RBTree.IsValid fuel tr = Ok true ∧ Search fuel tr x = Ok false
   ∧ begin fuel tr = Ok end_ ∧ inorder_items fuel tr = Ok [])
  ∧ (AVLTree.IsValid fuel ta = Ok true ∧ Search fuel ta x = Ok false
     ∧ begin fuel ta = Ok end_ ∧ inorder_items fuel ta = Ok [])
  ∧ root (@empty_tree Z RBTree.RBColor) = None
  ∧ root (@empty_tree Z Z) = None
  ∧ (∀ (t t' : RBTree.T), Clear fuel t = Ok t' → root t' = None)
  ∧ (∀ (t t' : AVLTree.T), Clear fuel t = Ok t' → root t' = None).
Proof.
  intros Hr Ha Hf. destruct fuel as [|fuel]; [lia|].
  assert (Hclear : ∀ M (t t' : Tree Z M), Clear (S fuel) t = Ok t' → root t' = None).
  { intros M t t'. unfold Clear.
    destruct (Postorder_begin (S fuel) t) as [it| |]; [|done|done]. cbn [bind].
    destruct (Clear_loop (S fuel) t it) as [t1| |]; [|done|done]. cbn [bind].
    by intros [= <-]. }
  repeat split; try done; try (by eapply Hclear).
  - unfold RBTree.IsValid, begin, Postorder_begin. by rewrite Hr.
  - unfold Search. by rewrite Hr.
  - unfold begin. by rewrite Hr.
  - unfold inorder_items, inorder_nodes, begin. by rewrite Hr.
  - unfold AVLTree.IsValid, begin. by rewrite Ha.
  - unfold Search. by rewrite Ha.
  - unfold begin. by rewrite Ha.
  - unfold inorder_items, inorder_nodes, begin. by rewrite Ha.
Qed.

Lemma C10_null_root_witness :
  root (@empty_tree Z RBTree.RBColor) = None
  ∧ root (@empty_tree Z Z) = None
  ∧ (0 < 1)%nat
  ∧ (RBTree.IsValid 1 empty_tree = Ok true ∧ Search 1 (@empty_tree Z RBTree.RBColor) 5 = Ok false
     ∧ begin 1 (@empty_tree Z RBTree.RBColor) = Ok end_
     ∧ inorder_items 1 (@empty_tree Z RBTree.RBColor) = Ok [])
  ∧ (AVLTree.IsValid 1 empty_tree = Ok true ∧ Search 1 (@empty_tree Z Z) 5 = Ok false
     ∧ begin 1 (@empty_tree Z Z) = Ok end_ ∧ inorder_items 1 (@empty_tree Z Z) = Ok [])
  ∧ root (@empty_tree Z RBTree.RBColor) = None
  ∧ root (@empty_tree Z Z) = None
  ∧ (∀ (t t' : RBTree.T), Clear 1 t = Ok t' → root t' = None)
  ∧ (∀ (t t' : AVLTree.T), Clear 1 t = Ok t' → root t' = None).
Proof.
  assert (H1 : root (@empty_tree Z RBTree.RBColor) = None) by reflexivity.
  assert (H2 : root (@empty_tree Z Z) = None) by reflexivity.
  assert (H3 : (0 < 1)%nat) by lia.
  split; [exact H1|]. split; [exact H2|]. split; [exact H3|].
  exact (C10_null_root empty_tree empty_tree 5 1 H1 H2 H3).
Defined.

(** * Further properties of the code *)

(** ** [Search] *)

Lemma Search_from_ordered {M : Type} (t : Tree Z M) p lo hi s x fuel :
  linked (heap t) p s = true → ordered (heap t) lo hi s = true →
  (size s < fuel)%nat →
  Search_from fuel t x (top s) = Ok (bool_decide (x ∈ items (heap t) s)).
Proof.
  revert p lo hi fuel.
  induction s as [|l IHl a r IHr]; intros p lo hi fuel Hl Ho Hf;
    (destruct fuel as [|fuel]; [lia|]).
  { cbn [Search_from top is_null]. rewrite bool_decide_eq_false_2; [done|].
    unfold items. simpl. apply not_elem_of_nil. }
  apply linked_Br in Hl as ((n & Hn & Hnl & Hnr & Hnp) & Hll & Hlr).
  destruct (ordered_Br_inv _ _ _ _ _ _ _ Ho Hn) as [Hol Hor].
  pose proof (ordered_items _ _ _ _ Hol) as [Fl _].
  pose proof (ordered_items _ _ _ _ Hor) as [Fr _].
  rewrite Forall_forall in Fl, Fr.
  cbn [Search_from top is_null]. rewrite (get_links _ _ _ _ Hn). cbn [bind].
  rewrite (items_Br _ l a r n Hn).
  destruct (Z.eqb_spec (item n) x) as [Heq|Hne].
  { rewrite bool_decide_eq_true_2; [done|]. rewrite <- Heq. set_solver. }
  destruct (Z.ltb_spec x (item n)) as [Hlt|Hge].
  - rewrite (get_links _ _ _ _ Hn), Hnl. cbn [bind].
    rewrite (IHl (Some a) lo (Some (item n)) fuel Hll Hol) by (simpl in Hf; lia).
    f_equal. apply bool_decide_ext. rewrite elem_of_app, elem_of_cons.
    split; [tauto|]. intros [H|[H|H]]; [done|lia|].
    apply Fr in H as [H _]. simpl in H. lia.
  - rewrite (get_links _ _ _ _ Hn), Hnr. cbn [bind].
    rewrite (IHr (Some a) (Some (item n)) hi fuel Hlr Hor) by (simpl in Hf; lia).
    f_equal. apply bool_decide_ext. rewrite elem_of_app, elem_of_cons.
    split; [tauto|]. intros [H|[H|H]]; [|lia|done].
    apply Fl in H as [_ H]. simpl in H. lia.
Qed.


(** ** Trees with data: plugging, framing *)

Section DataTreeLemmas.
Context {K M : Type}.
Implicit Types (h : gmap addr (Node K M)) (t : Tree K M) (d : dtree K M) (c : dctx K M).

Lemma put_Some (f : Node K M → Node K M) t a n :
  heap t !! a = Some n → put f t (Some a) = Ok (mkTree (<[a := f n]> (heap t)) (root t)).
Proof. intros H. unfold put. by rewrite H. Qed.

Lemma dtop_dplug c d : dtop (dplug c d) = droot c (dtop d).
Proof. revert d. induction c; intros d; simpl; [done| |]; by rewrite IHc. Qed.

Lemma dnodes_dplug c d : dnodes (dplug c d) ≡ₚ dnodes d ++ dctx_nodes c.
Proof.
  revert d. induction c as [|a k m r c IH|l a k m c IH]; intros d; simpl.
  - by rewrite app_nil_r.
  - rewrite IH. simpl. by rewrite <- app_assoc.
  - rewrite IH. simpl. rewrite <- app_assoc. simpl.
    rewrite <- !Permutation_middle. f_equiv.
    rewrite (Permutation_app_comm (dnodes l)), <- app_assoc. f_equiv.
    apply Permutation_app_comm.
Qed.

Lemma ditems_dplug c d :
  ditems (dplug c d) = dctx_before c ++ ditems d ++ dctx_after c.
Proof.
  revert d. induction c as [|a k m r c IH|l a k m c IH]; intros d; simpl.
  - by rewrite app_nil_r.
  - rewrite IH. simpl. by rewrite <- ?app_assoc.
  - rewrite IH. simpl. rewrite <- ?app_assoc. simpl. by rewrite <- ?app_assoc.
Qed.

Lemma dlinked_dplug h c d :
  dlinked h None (dplug c d) ↔
  dlinked h (dhole_parent c) d ∧ dctx_linked h c (dtop d).
Proof.
  revert d. induction c as [|a k m r c IH|l a k m c IH]; intros d; simpl.
  - tauto.
  - rewrite IH. simpl. tauto.
  - rewrite IH. simpl. tauto.
Qed.

Lemma holds_dplug t c d : holds t (dplug c d) ↔ holds_in t c d.
Proof.
  unfold holds, holds_in. rewrite dtop_dplug, dlinked_dplug, nodupb_NoDup, dnodes_dplug.
  tauto.
Qed.

Lemma dlinked_ext h h' p d :
  (∀ a, a ∈ dnodes d → h' !! a = h !! a) → dlinked h p d → dlinked h' p d.
Proof.
  revert p. induction d as [|l IHl a k m r IHr]; intros p Hext; simpl; [done|].
  intros (Ha & Hl & Hr). split; [|split].
  - rewrite Hext; [done|set_solver].
  - apply IHl; [|done]. intros b Hb. apply Hext. set_solver.
  - apply IHr; [|done]. intros b Hb. apply Hext. set_solver.
Qed.

Lemma dctx_linked_ext h h' c child :
  (∀ a, a ∈ dctx_nodes c → h' !! a = h !! a) →
  dctx_linked h c child → dctx_linked h' c child.
Proof.
  revert child. induction c as [|a k m r c IH|l a k m c IH]; intros child Hext; simpl;
    [done| |]; intros (Ha & Hs & Hc); (split; [|split]).
  - rewrite Hext; [done|simpl; set_solver].
  - eapply dlinked_ext; [|done]. intros b Hb. apply Hext. simpl. set_solver.
  - apply IH; [|done]. intros b Hb. apply Hext. simpl. set_solver.
  - rewrite Hext; [done|simpl; set_solver].
  - eapply dlinked_ext; [|done]. intros b Hb. apply Hext. simpl. set_solver.
  - apply IH; [|done]. intros b Hb. apply Hext. simpl. set_solver.
Qed.

Lemma dlinked_lookup h p d a :
  dlinked h p d → a ∈ dnodes d → is_Some (h !! a).
Proof.
  revert p. induction d as [|l IHl b k m r IHr]; intros p; simpl.
  - intros _ Ha. by apply elem_of_nil in Ha.
  - intros (Hb & Hl & Hr) Ha.
    apply elem_of_app in Ha as [Ha|Ha]; [by eapply IHl|].
    apply elem_of_cons in Ha as [->|Ha]; [by eexists|by eapply IHr].
Qed.

(** The erased shape and the items read from the heap *)
Lemma erase_nodes d : nodes (erase d) = dnodes d.
Proof. induction d as [|l IHl a k m r IHr]; simpl; [done|]. by rewrite IHl, IHr. Qed.

Lemma erase_size d : size (erase d) = dsize d.
Proof. induction d as [|l IHl a k m r IHr]; simpl; [done|]. by rewrite IHl, IHr. Qed.

Lemma erase_top d : top (erase d) = dtop d.
Proof. by destruct d. Qed.

Lemma dlinked_linked h p d : dlinked h p d → linked h p (erase d) = true.
Proof.
  revert p. induction d as [|l IHl a k m r IHr]; intros p; simpl; [done|].
  intros (Ha & Hl & Hr). rewrite (IHl _ Hl), (IHr _ Hr), !andb_true_r.
  apply linksb_links. eexists. split; [done|]. by rewrite !erase_top.
Qed.

Lemma dlinked_items h p d : dlinked h p d → items h (erase d) = ditems d.
Proof.
  revert p. induction d as [|l IHl a k m r IHr]; intros p; simpl; [done|].
  intros (Ha & Hl & Hr). rewrite (items_Br h _ _ _ _ Ha). simpl.
  by rewrite (IHl _ Hl), (IHr _ Hr).
Qed.

Lemma holds_represents t d : holds t d → represents t (erase d).
Proof.
  intros (Hr & Hl & Hnd). split; [by rewrite erase_top|].
  split; [by apply dlinked_linked|by rewrite erase_nodes].
Qed.

(** Every linked shape is the erasure of the tree read off the heap. *)
Lemma linked_dlinked h p s :
  linked h p s = true → ∃ d, erase d = s ∧ dlinked h p d.
Proof.
  revert p. induction s as [|l IHl a r IHr]; intros p Hl.
  - by exists DLeaf.
  - apply linked_Br in Hl as ((n & Hn & Hnl & Hnr & Hnp) & Hll & Hlr).
    destruct (IHl _ Hll) as (dl & <- & Hdl). destruct (IHr _ Hlr) as (dr & <- & Hdr).
    exists (DBr dl a (item n) (meta n) dr). split; [done|]. simpl.
    rewrite <- !erase_top, <- Hnl, <- Hnr, <- Hnp. split; [|done].
    rewrite Hn. by destruct n.
Qed.

Lemma represents_holds t s : represents t s → ∃ d, erase d = s ∧ holds t d.
Proof.
  intros (Hr & Hl & Hnd). destruct (linked_dlinked _ _ _ Hl) as (d & <- & Hd).
  exists d. split; [done|]. split; [by rewrite <- erase_top|].
  split; [done|by rewrite <- erase_nodes].
Qed.
End DataTreeLemmas.

Lemma dtop_ne {K M} (d : dtree K M) (x : addr) : x ∉ dnodes d → Some x ≠ dtop d.
Proof. destruct d; simpl; [done|]. intros Hx [= ->]. set_solver. Qed.

Lemma NoDup_mid {A} (pre post : list A) (z : A) :
  NoDup (pre ++ z :: post) → (z ∉ pre) ∧ (z ∉ post).
Proof.
  rewrite NoDup_app, NoDup_cons. intros (_ & Hd & Hz & _). split; [|done].
  intros Hin. apply (Hd z Hin). by left.
Qed.

Ltac heap_norm :=
  cbn [bind heap root item meta left right parent set_item set_meta set_left
       set_right set_parent set_root is_null negb dtop dhole_parent].

Ltac lookup_solve :=
  heap_norm;
  repeat first [rewrite lookup_insert_eq | rewrite lookup_insert_ne by congruence];
  first [reflexivity | eassumption].

Ltac eqb_step :=
  first [rewrite ptr_eqb_refl | rewrite ptr_eqb_ne by (apply dtop_ne; assumption)
        | rewrite ptr_eqb_ne by congruence];
  heap_norm.
Ltac get_step := erewrite get_links by lookup_solve; heap_norm.
Ltac put_step := erewrite put_Some by lookup_solve; heap_norm.
Ltac run_steps := repeat first [eqb_step | get_step | put_step].

(** Closing tactics for goals about a heap that was updated at a few
    known addresses *)
Ltac frame_ne :=
  repeat (rewrite lookup_insert_ne; [|intros ->; contradiction]); reflexivity.

Ltac frame_solve :=
  match goal with
  | |- dlinked _ _ DLeaf => exact I
  | H : dlinked _ ?p ?d |- dlinked _ ?p ?d =>
      eapply dlinked_ext; [|exact H];
      let e := fresh "e" in let He := fresh "He" in
      intros e He; cbn [heap]; frame_ne
  | H : dctx_linked _ ?c ?p |- dctx_linked _ ?c ?p =>
      eapply dctx_linked_ext; [|exact H];
      let e := fresh "e" in let He := fresh "He" in
      intros e He; cbn [heap]; frame_ne
  | |- _ !! _ = Some _ => lookup_solve
  | |- True => exact I
  end.

Ltac list_norm := repeat first [rewrite <- app_assoc | progress simpl].

Ltac nodup_solve H :=
  first
    [ exact H
    | match type of H with
      | NoDup ?l2 =>
          match goal with
          | |- NoDup ?l1 =>
              let E := fresh "E" in
              assert (E : l1 = l2) by (list_norm; reflexivity); rewrite E; exact H
          end
      end ].

(** From [H : NoDup l], with [l] equal to [pre ++ z :: post] up to
    reassociation: [z] is in neither part. *)
Ltac nodup_at H z pre post :=
  let N := fresh "N" in
  assert (N : NoDup (pre ++ z :: post)) by nodup_solve H;
  apply NoDup_mid in N;
  rewrite ?not_elem_of_app, ?not_elem_of_cons in N;
  destruct_and?.

Ltac atomize :=
  cbn [dnodes dctx_nodes] in *;
  repeat (progress (rewrite ?not_elem_of_app, ?not_elem_of_cons in * ));
  destruct_and?.

Section Refocus.
Context {K M : Type}.
Implicit Types (h : gmap addr (Node K M)) (t : Tree K M) (d : dtree K M) (c : dctx K M).

(** Moving the focus one frame up or down *)
Lemma holds_in_CL t a k m r c d :
  holds_in t (DCL a k m r c) d ↔ holds_in t c (DBr d a k m r).
Proof. by rewrite <- !holds_dplug. Qed.

Lemma holds_in_CR t l a k m c d :
  holds_in t (DCR l a k m c) d ↔ holds_in t c (DBr l a k m d).
Proof. by rewrite <- !holds_dplug. Qed.

Lemma focus_up_L t a k m r c d :
  holds_in t (DCL a k m r c) d → holds_in t c (DBr d a k m r).
Proof. apply holds_in_CL. Qed.

Lemma focus_up_R t l a k m c d :
  holds_in t (DCR l a k m c) d → holds_in t c (DBr l a k m d).
Proof. apply holds_in_CR. Qed.

Lemma focus_down_L t a k m r c d :
  holds_in t c (DBr d a k m r) → holds_in t (DCL a k m r c) d.
Proof. apply holds_in_CL. Qed.

Lemma focus_down_R t l a k m c d :
  holds_in t c (DBr l a k m d) → holds_in t (DCR l a k m c) d.
Proof. apply holds_in_CR. Qed.

(** Changing the metadata of the node in focus *)
Lemma set_meta_holds t c l a k m r m' :
  holds_in t c (DBr l a k m r) →
  ∃ t', put (set_meta m') t (Some a) = Ok t' ∧ holds_in t' c (DBr l a k m' r).
Proof.
  destruct t as [h rt]. intros (Hroot & (Ha & Hl & Hr) & Hc & Hnd).
  cbn [heap root dtop dnodes] in *.
  pose proof Hnd as Hnd0.
  nodup_at Hnd a (dnodes l) (dnodes r ++ dctx_nodes c).
  put_step. eexists. split; [reflexivity|].
  unfold holds_in. heap_norm. cbn [dlinked dnodes].
  split; [done|]. split; [repeat split; frame_solve|]. split; [frame_solve|done].
Qed.
End Refocus.

(** ** Red-black rotations *)

Section RBRotations.
Implicit Types (h : gmap addr (Node Z RBTree.RBColor)) (d : dtree Z RBTree.RBColor)
  (c : dctx Z RBTree.RBColor).

Lemma RB_LeftRotate_holds h rt c a x kx mx b y ky my d :
  holds_in (mkTree h rt) c (DBr a x kx mx (DBr b y ky my d)) →
  ∃ h',
    RBTree.LeftRotate (mkTree h rt) (Some x) = Ok (mkTree h' (droot c (Some y)))
    ∧ holds_in (mkTree h' (droot c (Some y))) c (DBr (DBr a x kx mx b) y ky my d).
Proof.
  intros (Hroot & (Hx & Ha & (Hy & Hb & Hd)) & Hc & Hnd).
  cbn [heap root dtop dnodes] in *. subst rt.
  unfold RBTree.LeftRotate.
  pose proof Hnd as Hnd0.
  nodup_at Hnd x (dnodes a) (dnodes (DBr b y ky my d) ++ dctx_nodes c).
  nodup_at Hnd y (dnodes a ++ x :: dnodes b) (dnodes d ++ dctx_nodes c).
  destruct c as [|p kp mp sp c|sp p kp mp c];
    try (nodup_at Hnd p (dnodes (DBr a x kx mx (DBr b y ky my d)))
           (dnodes sp ++ dctx_nodes c));
    (destruct b as [|bl b0 kb mb br];
     [|match type of Hnd with
       | NoDup (_ ++ ?C) =>
           nodup_at Hnd b0 (dnodes a ++ x :: dnodes bl) (dnodes br ++ y :: dnodes d ++ C)
       end]);
    atomize;
    cbn [dlinked dctx_linked dtop dhole_parent droot] in *;
    destruct_and?;
    run_steps;
    (eexists; split; [reflexivity|]);
    unfold holds_in; heap_norm; cbn [dlinked dctx_linked dnodes dctx_nodes droot];
    (split; [done|]);
    (split; [repeat split; frame_solve
            |split; [repeat split; frame_solve|nodup_solve Hnd0]]).
Qed.

Lemma RB_RightRotate_holds h rt c a y ky my b x kx mx d :
  holds_in (mkTree h rt) c (DBr (DBr a y ky my b) x kx mx d) →
  ∃ h',
    RBTree.RightRotate (mkTree h rt) (Some x) = Ok (mkTree h' (droot c (Some y)))
    ∧ holds_in (mkTree h' (droot c (Some y))) c (DBr a y ky my (DBr b x kx mx d)).
Proof.
  intros (Hroot & (Hx & (Hy & Ha & Hb) & Hd) & Hc & Hnd).
  cbn [heap root dtop dnodes] in *. subst rt.
  unfold RBTree.RightRotate.
  pose proof Hnd as Hnd0.
  nodup_at Hnd y (dnodes a) (dnodes (DBr b x kx mx d) ++ dctx_nodes c).
  nodup_at Hnd x (dnodes a ++ y :: dnodes b) (dnodes d ++ dctx_nodes c).
  destruct c as [|p kp mp sp c|sp p kp mp c];
    try (nodup_at Hnd p (dnodes (DBr (DBr a y ky my b) x kx mx d))
           (dnodes sp ++ dctx_nodes c));
    (destruct b as [|bl b0 kb mb br];
     [|match type of Hnd with
       | NoDup (_ ++ ?C) =>
           nodup_at Hnd b0 (dnodes a ++ y :: dnodes bl) (dnodes br ++ x :: dnodes d ++ C)
       end]);
    atomize;
    cbn [dlinked dctx_linked dtop dhole_parent droot] in *;
    destruct_and?;
    run_steps;
    (eexists; split; [reflexivity|]);
    unfold holds_in; heap_norm; cbn [dlinked dctx_linked dnodes dctx_nodes droot];
    (split; [done|]);
    (split; [repeat split; frame_solve
            |split; [repeat split; frame_solve|nodup_solve Hnd0]]).
Qed.

Lemma RB_LeftRotate_in (t : RBTree.T) c a x kx mx b y ky my d :
  holds_in t c (DBr a x kx mx (DBr b y ky my d)) →
  ∃ t', RBTree.LeftRotate t (Some x) = Ok t'
        ∧ holds_in t' c (DBr (DBr a x kx mx b) y ky my d).
Proof.
  destruct t as [h rt]. intros H.
  destruct (RB_LeftRotate_holds _ _ _ _ _ _ _ _ _ _ _ _ H) as (h' & Hr & Hh). eauto.
Qed.

Lemma RB_RightRotate_in (t : RBTree.T) c a y ky my b x kx mx d :
  holds_in t c (DBr (DBr a y ky my b) x kx mx d) →
  ∃ t', RBTree.RightRotate t (Some x) = Ok t'
        ∧ holds_in t' c (DBr a y ky my (DBr b x kx mx d)).
Proof.
  destruct t as [h rt]. intros H.
  destruct (RB_RightRotate_holds _ _ _ _ _ _ _ _ _ _ _ _ H) as (h' & Hr & Hh). eauto.
Qed.
End RBRotations.

(** ** [InsertFixup] does what [fixup] says *)

Lemma droot_ne {K M} (c : dctx K M) (a z : addr) :
  z ≠ a → z ∉ dctx_nodes c → Some z ≠ droot c (Some a).
Proof.
  revert a. induction c as [|b k m r c IH|l b k m c IH]; intros a Hza Hz; simpl in *.
  - congruence.
  - apply IH; set_solver.
  - apply IH; set_solver.
Qed.

(** All the lookups that [H : holds_in t c d] contains *)
Ltac lookups H :=
  let H' := fresh "L" in
  pose proof H as H';
  destruct H' as (? & ? & ? & ?);
  cbn [dlinked dctx_linked dtop dhole_parent] in *;
  destruct_and?.

Ltac gets := repeat first [eqb_step | get_step]; cbn [RBTree.color_eqb negb].

(** Recolor the node in focus of [H], rewriting the [put] at the head
    of the goal. *)
Ltac recolor H m' :=
  let t1 := fresh "t" in
  let Hp := fresh "Hput" in
  let H1 := fresh "Hin" in
  destruct (set_meta_holds _ _ _ _ _ _ _ m' H) as (t1 & Hp & H1);
  rewrite Hp; heap_norm; clear Hp.

(** Rotate at the node in focus of [H], rewriting the call at the head
    of the goal. *)
Ltac rotate lem H :=
  let t1 := fresh "t" in
  let Hr := fresh "Hrot" in
  let H1 := fresh "Hin" in
  destruct (lem _ _ _ _ _ _ _ _ _ _ _ H) as (t1 & Hr & H1);
  rewrite Hr; heap_norm; clear Hr.

Section RBFixup.
Import RBTree.
Implicit Types (t : T) (d : dtree Z RBColor) (c : dctx Z RBColor).

(** The loop stops at a node whose parent is black. *)
Lemma InsertFixup_loop_black_parent t c zl z kz mz zr fuel :
  holds_in t c (DBr zl z kz mz zr) →
  match c with
  | DTop => True
  | DCL _ _ m _ _ | DCR _ _ _ m _ => m = Black
  end →
  (0 < fuel)%nat →
  InsertFixup_loop fuel t (Some z) = Ok t.
Proof.
  intros Hin Hm Hfuel. destruct fuel as [|fuel]; [lia|]. cbn [InsertFixup_loop].
  pose proof Hin as (Hroot & _ & _ & Hnd).
  nodup_at Hnd z (dnodes zl) (dnodes zr ++ dctx_nodes c).
  destruct c as [|p kp mp sp c'|sp p kp mp c']; [|subst mp..].
  - cbn [droot dtop] in Hroot. by rewrite Hroot, ptr_eqb_refl.
  - atomize. cbn [droot dtop] in Hroot.
    rewrite Hroot, (ptr_eqb_ne _ _ (droot_ne c' p z ltac:(done) ltac:(done))).
    lookups Hin. by gets.
  - atomize. cbn [droot dtop] in Hroot.
    rewrite Hroot, (ptr_eqb_ne _ _ (droot_ne c' p z ltac:(done) ltac:(done))).
    lookups Hin. by gets.
Qed.

Lemma InsertFixup_loop_fixup (n : nat) : ∀ c t zl z kz mz zr d' fuel,
  (ddepth c ≤ n)%nat →
  holds_in t c (DBr zl z kz mz zr) →
  fixup c (DBr zl z kz mz zr) = Some d' →
  (ddepth c + 1 < fuel)%nat →
  ∃ t', InsertFixup_loop fuel t (Some z) = Ok t' ∧ holds t' d'.
Proof.
  induction n as [n IH] using lt_wf_ind.
  intros c t zl z kz mz zr d' fuel Hn Hin Hfix Hfuel.
  (* the cases in which the loop stops at once *)
  assert (Hstop : ∀ dd, dplug c (DBr zl z kz mz zr) = dd → Some dd = Some d' →
            match c with
            | DTop => True
            | DCL _ _ m _ _ | DCR _ _ _ m _ => m = Black
            end →
            ∃ t', InsertFixup_loop fuel t (Some z) = Ok t' ∧ holds t' d').
  { intros dd <- [= <-] Hm. exists t. split; [|by apply holds_dplug].
    eapply InsertFixup_loop_black_parent; [done|done|lia]. }
  destruct fuel as [|fuel]; [lia|].
  pose proof Hin as (Hroot & _ & _ & Hnd).
  nodup_at Hnd z (dnodes zl) (dnodes zr ++ dctx_nodes c).
  destruct c as [|p kp mp sp c'|sp p kp mp c'].
  { by eapply Hstop. }
  - destruct mp; [|by eapply Hstop].
    destruct c' as [|g kg mg u c''|u g kg mg c'']; [done| |].
    + (* p is the left child of g *)
      atomize. cbn [droot dtop] in Hroot. cbn [InsertFixup_loop]. unfold is_red.
      rewrite Hroot, (ptr_eqb_ne _ _ (droot_ne c'' g z ltac:(done) ltac:(done))).
      destruct u as [|ul ua ku mu ur]; [|destruct mu].
      * lookups Hin. gets.
        pose proof (focus_up_L _ _ _ _ _ _ _ Hin) as Hp.
        recolor Hp Black. lookups Hin0. gets.
        apply focus_up_L in Hin0. recolor Hin0 Red. lookups Hin1. gets.
        destruct (RB_RightRotate_in _ _ _ _ _ _ _ _ _ _ _ Hin1) as (t' & Hrot & Hin').
        rewrite Hrot. heap_norm. clear Hrot.
        cbn [fixup is_red_root] in Hfix. injection Hfix as <-.
        exists t'. split; [|by apply holds_dplug].
        eapply InsertFixup_loop_black_parent; [by apply focus_down_L|done|lia].
      * (* red uncle: recolour and go up two levels *)
        lookups Hin. gets.
        pose proof (focus_up_L _ _ _ _ _ _ _ Hin) as Hp.
        recolor Hp Black.
        apply focus_up_L in Hin0. apply focus_down_R in Hin0.
        recolor Hin0 Black. lookups Hin1. gets.
        apply focus_up_R in Hin1. recolor Hin1 Red. lookups Hin2. gets.
        cbn [fixup is_red_root blacken] in Hfix. cbn [ddepth] in *.
        eapply (IH (ddepth c'') ltac:(lia) c''); [lia|exact Hin2|exact Hfix|lia].
      * lookups Hin. gets.
        pose proof (focus_up_L _ _ _ _ _ _ _ Hin) as Hp.
        recolor Hp Black. lookups Hin0. gets.
        apply focus_up_L in Hin0. recolor Hin0 Red. lookups Hin1. gets.
        destruct (RB_RightRotate_in _ _ _ _ _ _ _ _ _ _ _ Hin1) as (t' & Hrot & Hin').
        rewrite Hrot. heap_norm. clear Hrot.
        cbn [fixup is_red_root] in Hfix. injection Hfix as <-.
        exists t'. split; [|by apply holds_dplug].
        eapply InsertFixup_loop_black_parent; [by apply focus_down_L|done|lia].
    + (* p is the right child of g *)
      nodup_at Hnd p (dnodes zl ++ z :: dnodes zr)
        (dnodes sp ++ g :: dnodes u ++ dctx_nodes c'').
      atomize. cbn [droot dtop] in Hroot. cbn [InsertFixup_loop]. unfold is_red.
      rewrite Hroot, (ptr_eqb_ne _ _ (droot_ne c'' g z ltac:(done) ltac:(done))).
      destruct u as [|ul ua ku mu ur]; [|destruct mu].
      * lookups Hin. gets.
        pose proof (focus_up_L _ _ _ _ _ _ _ Hin) as Hp.
        rotate RB_RightRotate_in Hp. lookups Hin0. gets.
        recolor Hin0 Black. lookups Hin1. gets.
        apply focus_up_R in Hin1. recolor Hin1 Red. lookups Hin2. gets.
        rotate RB_LeftRotate_in Hin2.
        cbn [fixup is_red_root] in Hfix. injection Hfix as <-.
        exists t3. split; [|by apply holds_dplug].
        eapply InsertFixup_loop_black_parent; [by apply focus_down_R|done|lia].
      * atomize. lookups Hin. gets.
        pose proof (focus_up_L _ _ _ _ _ _ _ Hin) as Hp.
        recolor Hp Black.
        apply focus_up_R in Hin0. apply focus_down_L in Hin0.
        recolor Hin0 Black. lookups Hin1. gets.
        apply focus_up_L in Hin1. recolor Hin1 Red. lookups Hin2. gets.
        cbn [fixup is_red_root blacken] in Hfix. cbn [ddepth] in *.
        eapply (IH (ddepth c'') ltac:(lia) c''); [lia|exact Hin2|exact Hfix|lia].
      * atomize. lookups Hin. gets.
        pose proof (focus_up_L _ _ _ _ _ _ _ Hin) as Hp.
        rotate RB_RightRotate_in Hp. lookups Hin0. gets.
        recolor Hin0 Black. lookups Hin1. gets.
        apply focus_up_R in Hin1. recolor Hin1 Red. lookups Hin2. gets.
        rotate RB_LeftRotate_in Hin2.
        cbn [fixup is_red_root] in Hfix. injection Hfix as <-.
        exists t3. split; [|by apply holds_dplug].
        eapply InsertFixup_loop_black_parent; [by apply focus_down_R|done|lia].
  - destruct mp; [|by eapply Hstop].
    destruct c' as [|g kg mg u c''|u g kg mg c'']; [done| |].
    + (* p is the left child of g *)
      nodup_at Hnd p (dnodes zl ++ z :: dnodes zr)
        (dnodes sp ++ g :: dnodes u ++ dctx_nodes c'').
      atomize. cbn [droot dtop] in Hroot. cbn [InsertFixup_loop]. unfold is_red.
      rewrite Hroot, (ptr_eqb_ne _ _ (droot_ne c'' g z ltac:(done) ltac:(done))).
      destruct u as [|ul ua ku mu ur]; [|destruct mu].
      * lookups Hin. gets.
        pose proof (focus_up_R _ _ _ _ _ _ _ Hin) as Hp.
        rotate RB_LeftRotate_in Hp. lookups Hin0. gets.
        recolor Hin0 Black. lookups Hin1. gets.
        apply focus_up_L in Hin1. recolor Hin1 Red. lookups Hin2. gets.
        rotate RB_RightRotate_in Hin2.
        cbn [fixup is_red_root] in Hfix. injection Hfix as <-.
        exists t3. split; [|by apply holds_dplug].
        eapply InsertFixup_loop_black_parent; [by apply focus_down_L|done|lia].
      * atomize. lookups Hin. gets.
        pose proof (focus_up_R _ _ _ _ _ _ _ Hin) as Hp.
        recolor Hp Black.
        apply focus_up_L in Hin0. apply focus_down_R in Hin0.
        recolor Hin0 Black. lookups Hin1. gets.
        apply focus_up_R in Hin1. recolor Hin1 Red. lookups Hin2. gets.
        cbn [fixup is_red_root blacken] in Hfix. cbn [ddepth] in *.
        eapply (IH (ddepth c'') ltac:(lia) c''); [lia|exact Hin2|exact Hfix|lia].
      * atomize. lookups Hin. gets.
        pose proof (focus_up_R _ _ _ _ _ _ _ Hin) as Hp.
        rotate RB_LeftRotate_in Hp. lookups Hin0. gets.
        recolor Hin0 Black. lookups Hin1. gets.
        apply focus_up_L in Hin1. recolor Hin1 Red. lookups Hin2. gets.
        rotate RB_RightRotate_in Hin2.
        cbn [fixup is_red_root] in Hfix. injection Hfix as <-.
        exists t3. split; [|by apply holds_dplug].
        eapply InsertFixup_loop_black_parent; [by apply focus_down_L|done|lia].
    + (* p is the right child of g *)
      nodup_at Hnd p (dnodes zl ++ z :: dnodes zr)
        (dnodes sp ++ g :: dnodes u ++ dctx_nodes c'').
      atomize. cbn [droot dtop] in Hroot. cbn [InsertFixup_loop]. unfold is_red.
      rewrite Hroot, (ptr_eqb_ne _ _ (droot_ne c'' g z ltac:(done) ltac:(done))).
      destruct u as [|ul ua ku mu ur]; [|destruct mu].
      * lookups Hin. gets.
        pose proof (focus_up_R _ _ _ _ _ _ _ Hin) as Hp.
        recolor Hp Black. lookups Hin0. gets.
        apply focus_up_R in Hin0. recolor Hin0 Red. lookups Hin1. gets.
        rotate RB_LeftRotate_in Hin1.
        cbn [fixup is_red_root] in Hfix. injection Hfix as <-.
        exists t2. split; [|by apply holds_dplug].
        eapply InsertFixup_loop_black_parent; [by apply focus_down_R|done|lia].
      * atomize. lookups Hin. gets.
        pose proof (focus_up_R _ _ _ _ _ _ _ Hin) as Hp.
        recolor Hp Black.
        apply focus_up_R in Hin0. apply focus_down_L in Hin0.
        recolor Hin0 Black. lookups Hin1. gets.
        apply focus_up_L in Hin1. recolor Hin1 Red. lookups Hin2. gets.
        cbn [fixup is_red_root blacken] in Hfix. cbn [ddepth] in *.
        eapply (IH (ddepth c'') ltac:(lia) c''); [lia|exact Hin2|exact Hfix|lia].
      * atomize. lookups Hin. gets.
        pose proof (focus_up_R _ _ _ _ _ _ _ Hin) as Hp.
        recolor Hp Black. lookups Hin0. gets.
        apply focus_up_R in Hin0. recolor Hin0 Red. lookups Hin1. gets.
        rotate RB_LeftRotate_in Hin1.
        cbn [fixup is_red_root] in Hfix. injection Hfix as <-.
        exists t2. split; [|by apply holds_dplug].
        eapply InsertFixup_loop_black_parent; [by apply focus_down_R|done|lia].
Qed.
End RBFixup.

(** ** [Insert] of the red-black tree *)

Functional Scheme fixup_ind := Induction for fixup Sort Prop.

Section RBInsertFun.
Import RBTree.
Implicit Types (t : T) (d : dtree Z RBColor) (c : dctx Z RBColor).

Lemma ditems_blacken d : ditems (blacken d) = ditems d.
Proof. by destruct d. Qed.

Lemma dnodes_blacken d : dnodes (blacken d) = dnodes d.
Proof. by destruct d. Qed.

Lemma dsize_blacken d : dsize (blacken d) = dsize d.
Proof. by destruct d. Qed.

Lemma root_black_blacken d : root_black (blacken d) = true.
Proof. by destruct d. Qed.

(** Rotations and recolourings keep the inorder sequence. *)
Lemma fixup_items c dz d' :
  fixup c dz = Some d' → ditems d' = ditems (dplug c dz).
Proof.
  revert d'. functional induction (fixup c dz); intros d' Hf;
    try discriminate; try (injection Hf as <-);
    try (rewrite (IHo _ Hf)); rewrite !ditems_dplug; cbn [dctx_before dctx_after ditems];
    rewrite ?ditems_blacken; list_norm; rewrite ?app_nil_r; reflexivity.
Qed.

Lemma fixup_node c dz d' : dz ≠ DLeaf → fixup c dz = Some d' → d' ≠ DLeaf.
Proof.
  intros Hdz Hf ->. apply fixup_items in Hf. rewrite ditems_dplug in Hf.
  destruct dz as [|l a k m r]; [done|]. simpl in Hf.
  destruct (dctx_before c); [destruct (ditems l)|]; discriminate.
Qed.

Lemma ctx_root_black_tail_L a k m r c :
  ctx_root_black (DCL a k m r c) = true → ctx_root_black c = true.
Proof. by destruct c. Qed.

Lemma ctx_root_black_tail_R l a k m c :
  ctx_root_black (DCR l a k m c) = true → ctx_root_black c = true.
Proof. by destruct c. Qed.

(** With a black root the loop of [InsertFixup] never meets a null
    grandparent. *)
Lemma fixup_is_Some c dz :
  ctx_root_black c = true → dz ≠ DLeaf → is_Some (fixup c dz).
Proof.
  functional induction (fixup c dz); intros Hb Hdz; try done.
  - apply IHo; [|done].
    exact (ctx_root_black_tail_L _ _ _ _ _ (ctx_root_black_tail_L _ _ _ _ _ Hb)).
  - apply IHo; [|done].
    exact (ctx_root_black_tail_R _ _ _ _ _ (ctx_root_black_tail_L _ _ _ _ _ Hb)).
  - apply IHo; [|done].
    exact (ctx_root_black_tail_L _ _ _ _ _ (ctx_root_black_tail_R _ _ _ _ _ Hb)).
  - apply IHo; [|done].
    exact (ctx_root_black_tail_R _ _ _ _ _ (ctx_root_black_tail_R _ _ _ _ _ Hb)).
Qed.

Lemma insert_ctx_plug x c d c' :
  insert_ctx x c d = Some c' → dplug c' DLeaf = dplug c d.
Proof.
  revert c. induction d as [|l IHl a k m r IHr]; intros c; simpl.
  - by intros [= ->].
  - destruct (x <? k); [|destruct (x >? k); [|done]].
    + intros H. by rewrite (IHl _ H).
    + intros H. by rewrite (IHr _ H).
Qed.

Lemma insert_ctx_goes x c d c' :
  goes x c → insert_ctx x c d = Some c' → goes x c'.
Proof.
  revert c. induction d as [|l IHl a k m r IHr]; intros c Hc; simpl.
  - by intros [= <-].
  - destruct (x <? k) eqn:Hlt; [|destruct (x >? k); [|done]].
    + by apply IHl.
    + by apply IHr.
Qed.

Lemma insert_ctx_depth x c d c' :
  insert_ctx x c d = Some c' → (ddepth c' ≤ ddepth c + dsize d)%nat.
Proof.
  revert c. induction d as [|l IHl a k m r IHr]; intros c; simpl.
  - intros [= <-]. lia.
  - destruct (x <? k); [|destruct (x >? k); [|done]]; intros H.
    + apply IHl in H. simpl in H. lia.
    + apply IHr in H. simpl in H. lia.
Qed.

Lemma insert_ctx_root_black x c d c' :
  ctx_root_black c = true → (c = DTop → root_black d = true) →
  insert_ctx x c d = Some c' → ctx_root_black c' = true.
Proof.
  revert c. induction d as [|l IHl a k m r IHr]; intros c Hc Hd; simpl.
  - by intros [= <-].
  - assert (ctx_root_black (DCL a k m r c) = true ∧ ctx_root_black (DCR l a k m c) = true)
      as [HL HR].
    { destruct c; [|done..]. specialize (Hd eq_refl). by destruct m. }
    destruct (x <? k); [|destruct (x >? k); [|done]].
    + by apply IHl.
    + by apply IHr.
Qed.

Lemma sorted_mid (pre l r post : list Z) (k : Z) :
  StronglySorted Z.lt (pre ++ (l ++ k :: r) ++ post) →
  Forall (λ y, y < k) l ∧ Forall (λ y, k < y) r.
Proof.
  intros Hs. apply StronglySorted_app_1_r, StronglySorted_app_1_l in Hs.
  apply StronglySorted_app in Hs as (Hlr & _ & Hr).
  apply StronglySorted_inv in Hr as [_ Hr]. split; [|done].
  apply Forall_forall. intros y Hy. apply Hlr; [done|]. apply elem_of_cons. by left.
Qed.

(** Where the descent stops, [x] lies between the items before and the
    items after the hole. *)
Lemma insert_ctx_bounds x c d c' :
  StronglySorted Z.lt (ditems (dplug c d)) →
  Forall (λ y, y < x) (dctx_before c) → Forall (λ y, x < y) (dctx_after c) →
  insert_ctx x c d = Some c' →
  Forall (λ y, y < x) (dctx_before c') ∧ Forall (λ y, x < y) (dctx_after c').
Proof.
  revert c. induction d as [|l IHl a k m r IHr]; intros c Hs Hb Ha; simpl.
  - by intros [= <-].
  - pose proof Hs as Hm. rewrite ditems_dplug in Hm. simpl in Hm.
    apply sorted_mid in Hm as [Hl Hr].
    destruct (x <? k) eqn:Hlt; [|destruct (x >? k) eqn:Hgt; [|done]].
    + apply IHl; [done|done|]. simpl. apply Z.ltb_lt in Hlt.
      constructor; [done|]. apply Forall_app. split; [|done].
      eapply Forall_impl; [exact Hr|]. simpl. intros; lia.
    + apply IHr; [done| |done]. simpl.
      rewrite (Z.gtb_ltb x k) in Hgt. apply Z.ltb_lt in Hgt.
      apply Forall_app. split; [done|]. apply Forall_app. split.
      * eapply Forall_impl; [exact Hl|]. simpl. intros; lia.
      * by constructor.
Qed.

(** Inserting in the middle of a sorted list between its bounds *)
Lemma sorted_insert_mid (pre post : list Z) (x : Z) :
  StronglySorted Z.lt (pre ++ post) →
  Forall (λ y, y < x) pre → Forall (λ y, x < y) post →
  StronglySorted Z.lt (pre ++ x :: post).
Proof.
  intros Hs Hpre Hpost. apply StronglySorted_app in Hs as (H12 & H1 & H2).
  apply StronglySorted_app_2; [|done|by constructor].
  intros x1 x2 Hx1 [->|Hx2]%elem_of_cons.
  - by eapply Forall_forall in Hpre.
  - by apply H12.
Qed.

(** [insert_ctx] finds no place exactly when [x] is in the tree. *)
Lemma insert_ctx_None x c d :
  StronglySorted Z.lt (ditems d) →
  insert_ctx x c d = None ↔ x ∈ ditems d.
Proof.
  revert c. induction d as [|l IHl a k m r IHr]; intros c Hs; simpl.
  - split; [done|]. by intros ?%elem_of_nil.
  - pose proof (sorted_mid [] _ _ [] _ ltac:(by rewrite app_nil_r)) as [Hl Hr].
    apply StronglySorted_app in Hs as (_ & Hsl & Hsr).
    apply StronglySorted_inv in Hsr as [Hsr _].
    rewrite elem_of_app, elem_of_cons.
    destruct (x <? k) eqn:Hlt; [|destruct (x >? k) eqn:Hgt].
    + apply Z.ltb_lt in Hlt. rewrite IHl by done. split; [tauto|].
      intros [?|[?|Hx]]; [done|lia|].
      eapply Forall_forall in Hr; [|exact Hx]. lia.
    + rewrite (Z.gtb_ltb x k) in Hgt. apply Z.ltb_lt in Hgt.
      rewrite IHr by done. split; [tauto|].
      intros [Hx|[?|?]]; [|lia|done].
      eapply Forall_forall in Hl; [|exact Hx]. lia.
    + rewrite (Z.gtb_ltb x k) in Hgt. apply Z.ltb_ge in Hlt, Hgt.
      split; [|done]. intros _. right; left. lia.
Qed.
End RBInsertFun.

(** ** [Insert] on the heap does what [rb_insert] says *)

Section HoldsAlloc.
Context {K M : Type}.
Implicit Types (t : Tree K M) (d : dtree K M) (c : dctx K M).

Lemma fresh_not_in_dtree t d : holds t d → fresh (dom (heap t)) ∉ dnodes d.
Proof.
  intros (_ & Hl & _) Hin. destruct (dlinked_lookup _ _ _ _ Hl Hin) as [n Hn].
  apply (is_fresh (dom (heap t))). apply elem_of_dom. by exists n.
Qed.

Lemma holds_new_node t d n : holds t d → holds (new_node t n).1 d.
Proof.
  intros Hd. pose proof (fresh_not_in_dtree _ _ Hd) as Hz.
  destruct Hd as (Hroot & Hl & Hnd). split; [done|]. split; [|done]. simpl.
  eapply dlinked_ext; [|exact Hl]. intros a Ha.
  rewrite lookup_insert_ne; [done|]. by intros <-.
Qed.

Lemma holds_DTop t d : holds t d ↔ holds_in t DTop d.
Proof. apply (holds_dplug t DTop d). Qed.

Lemma dsize_dplug c d : dsize (dplug c d) = (ddepth c + dsize d + length (dctx_nodes c) - ddepth c)%nat.
Proof.
  revert d. induction c as [|a k m r c IH|l a k m c IH]; intros d; simpl.
  - lia.
  - rewrite IH. simpl. rewrite length_app.
    assert (length (dnodes r) = dsize r); [|lia].
    clear. induction r; simpl; [done|]. rewrite length_app. simpl. lia.
  - rewrite IH. simpl. rewrite length_app.
    assert (length (dnodes l) = dsize l); [|lia].
    clear. induction l; simpl; [done|]. rewrite length_app. simpl. lia.
Qed.
End HoldsAlloc.

Section RBInsertHeap.
Import RBTree.
Implicit Types (t : T) (d : dtree Z RBColor) (c : dctx Z RBColor).

(** The descent of [Insert] follows [insert_ctx]. *)
Lemma RB_Insert_descend_ctx t c d x fuel :
  holds_in t c d → (dsize d < fuel)%nat →
  Insert_descend fuel t x (dtop d) (dhole_parent c)
  = Ok (dhole_parent <$> insert_ctx x c d).
Proof.
  revert c fuel. induction d as [|l IHl a k m r IHr]; intros c fuel Hin Hf;
    (destruct fuel as [|fuel]; [simpl in Hf; lia|]); cbn [Insert_descend dtop is_null].
  - done.
  - lookups Hin. cbn [dsize] in Hf. get_step. cbn [insert_ctx].
    destruct (x <? k).
    + get_step. apply (IHl (DCL a k m r c)); [by apply focus_down_L|lia].
    + destruct (x >? k); [|done].
      get_step. apply (IHr (DCR l a k m c)); [by apply focus_down_R|lia].
Qed.

(** Linking the new node below [previous] *)
Lemma RB_attach t c z x (k : T → result T) :
  holds_in t c DLeaf → heap t !! z = Some (Node_new x) → z ∉ dctx_nodes c →
  goes x c →
  ∃ t', (t1 ← put (set_parent (dhole_parent c)) t (Some z);
         t2 ← (if is_null (dhole_parent c) then Ok (set_root t1 (Some z))
               else
                 i ← get item t1 (dhole_parent c);
                 if x <? i then put (set_left (Some z)) t1 (dhole_parent c)
                 else put (set_right (Some z)) t1 (dhole_parent c));
         k t2) = k t'
        ∧ holds_in t' c (DBr DLeaf z x Red DLeaf).
Proof.
  destruct t as [h rt]. intros Hin Hz Hzc Hgo. unfold Node_new in Hz.
  lookups Hin. cbn [heap root dnodes app] in *.
  destruct c as [|a ka ma r c|l a ka ma c]; atomize; cbn [goes] in Hgo.
  - run_steps. eexists. split; [reflexivity|].
    unfold holds_in. heap_norm. cbn [dlinked dctx_linked dnodes droot].
    repeat split; try frame_solve. apply NoDup_singleton.
  - cbn [dctx_linked dhole_parent droot] in *. destruct_and?.
    pose proof H2 as Hnd. apply NoDup_cons in H2 as [Ha _]. atomize.
    run_steps. rewrite Hgo. run_steps. eexists. split; [reflexivity|].
    unfold holds_in. heap_norm. cbn [dlinked dctx_linked dnodes droot dhole_parent dtop].
    split; [done|]. split; [repeat split; frame_solve|].
    split; [repeat split; frame_solve|].
    cbn [app]. apply NoDup_cons. split; [|done]. by atomize.
  - cbn [dctx_linked dhole_parent droot] in *. destruct_and?.
    pose proof H2 as Hnd. apply NoDup_cons in H2 as [Ha _]. atomize.
    run_steps. rewrite Hgo. run_steps. eexists. split; [reflexivity|].
    unfold holds_in. heap_norm. cbn [dlinked dctx_linked dnodes droot dhole_parent dtop].
    split; [done|]. split; [repeat split; frame_solve|].
    split; [repeat split; frame_solve|].
    cbn [app]. apply NoDup_cons. split; [|done]. by atomize.
Qed.

(** [InsertFixup]: the loop, then the root is made black. *)
Lemma RB_InsertFixup_fixup t c zl z kz mz zr d' fuel :
  holds_in t c (DBr zl z kz mz zr) →
  fixup c (DBr zl z kz mz zr) = Some d' →
  (ddepth c + 1 < fuel)%nat →
  ∃ t', InsertFixup fuel t (Some z) = Ok t' ∧ holds t' (blacken d').
Proof.
  intros Hin Hfix Hfuel. unfold InsertFixup.
  destruct (InsertFixup_loop_fixup _ _ _ _ _ _ _ _ _ _ (le_n _) Hin Hfix Hfuel)
    as (t1 & -> & H1).
  cbn [bind].
  assert (Hn : d' ≠ DLeaf) by (by eapply fixup_node; [|exact Hfix]).
  destruct d' as [|l a k m r]; [done|].
  pose proof H1 as (-> & _). apply holds_DTop in H1.
  destruct (set_meta_holds _ _ _ _ _ _ _ Black H1) as (t2 & Hp & H2).
  exists t2. split; [exact Hp|]. by apply holds_DTop.
Qed.

(** [Insert(x)] turns the tree [d] into [rb_insert z x d], [z] being the
    address of the node it allocates. *)
Lemma RB_Insert_rb_insert t d x d' fuel :
  holds t d → (dsize d + 1 < fuel)%nat →
  rb_insert (fresh (dom (heap t))) x d = Some d' →
  ∃ t', Insert fuel t x = Ok t' ∧ holds t' d'.
Proof.
  intros Hd Hfuel Hins. unfold Insert.
  pose proof (holds_new_node t d (Node_new x) Hd) as Hd1.
  pose proof (fresh_not_in_dtree t d Hd) as Hz.
  pose proof (new_node_delete t (Node_new x)) as Hdel.
  assert (Hnew : heap (new_node t (Node_new x)).1 !! (new_node t (Node_new x)).2
                 = Some (Node_new x)) by apply lookup_insert_eq.
  assert (Hroot1 : root (new_node t (Node_new x)).1 = root t) by done.
  change (fresh (dom (heap t))) with (new_node t (Node_new x)).2 in Hins, Hz.
  destruct (new_node t (Node_new x)) as [t1 z]. cbn [fst snd] in *.
  pose proof Hd as (-> & _).
  change None with (dhole_parent (@DTop Z RBColor)).
  rewrite (RB_Insert_descend_ctx t1 DTop d x fuel); [|by apply holds_DTop|lia].
  unfold rb_insert in Hins.
  destruct (insert_ctx x DTop d) as [c|] eqn:Hc; cbn [fmap option_fmap option_map bind].
  - destruct (fixup c (DBr DLeaf z x Red DLeaf)) as [d1|] eqn:Hfix; [|done].
    injection Hins as <-.
    pose proof (insert_ctx_plug _ _ _ _ Hc) as Hplug. cbn [dplug] in Hplug.
    pose proof (insert_ctx_depth _ _ _ _ Hc) as Hdep. cbn [ddepth] in Hdep.
    rewrite <- Hplug in Hd1, Hz. apply holds_dplug in Hd1.
    rewrite dnodes_dplug in Hz. cbn [dnodes app] in Hz.
    destruct (RB_attach t1 c z x (λ t2, InsertFixup fuel t2 (Some z)) Hd1 Hnew Hz)
      as (t2 & -> & H2).
    { eapply insert_ctx_goes; [|exact Hc]. done. }
    eapply RB_InsertFixup_fixup; [exact H2|exact Hfix|lia].
  - injection Hins as <-. exists t. by rewrite Hdel.
Qed.
End RBInsertHeap.

(** ** What [Insert] guarantees *)

Section RBInsertCorrect.
Import RBTree.
Implicit Types (t : T) (d : dtree Z RBColor) (c : dctx Z RBColor).

Lemma length_ditems {K M} (d : dtree K M) : length (ditems d) = dsize d.
Proof. induction d; simpl; [done|]. rewrite length_app. simpl. lia. Qed.

(** [rb_insert] on a search tree with a black root *)
Lemma rb_insert_correct z x d :
  root_black d = true → StronglySorted Z.lt (ditems d) →
  ∃ d', rb_insert z x d = Some d'
        ∧ root_black d' = true
        ∧ StronglySorted Z.lt (ditems d')
        ∧ (∀ y, y ∈ ditems d' ↔ y = x ∨ y ∈ ditems d)
        ∧ (dsize d' ≤ dsize d + 1)%nat.
Proof.
  intros Hb Hs. unfold rb_insert.
  destruct (insert_ctx x DTop d) as [c|] eqn:Hc.
  - pose proof (insert_ctx_root_black x DTop d c eq_refl (λ _, Hb) Hc) as Hcb.
    destruct (fixup_is_Some c (DBr DLeaf z x Red DLeaf) Hcb ltac:(done)) as [d1 Hfix].
    rewrite Hfix. exists (blacken d1).
    pose proof (fixup_items _ _ _ Hfix) as Hit. rewrite ditems_dplug in Hit.
    pose proof (insert_ctx_plug _ _ _ _ Hc) as Hplug. cbn [dplug] in Hplug.
    pose proof (f_equal ditems Hplug) as Hd. rewrite ditems_dplug in Hd.
    cbn [ditems app] in Hit, Hd.
    destruct (insert_ctx_bounds x DTop d c) as [Hlo Hhi]; [done|constructor..|done|].
    split; [done|]. split; [apply root_black_blacken|].
    rewrite <- (length_ditems (blacken d1)), <- (length_ditems d).
    rewrite ditems_blacken, Hit, <- Hd. split; [|split].
    + apply sorted_insert_mid; [by rewrite Hd|done|done].
    + intros y. rewrite !elem_of_app, elem_of_cons. tauto.
    + rewrite !length_app. simpl. lia.
  - exists d. split; [done|]. split; [done|]. split; [done|]. split; [|lia].
    intros y. split; [tauto|]. intros [->|]; [|done].
    by apply (insert_ctx_None x DTop d Hs).
Qed.

Lemma black_root_holds t d : holds t d → black_root t = root_black d.
Proof.
  intros (Hroot & Hl & _). unfold black_root. rewrite Hroot.
  destruct d as [|l a k m r]; [done|]. destruct Hl as (Ha & _).
  cbn [dtop]. rewrite Ha. by destruct m.
Qed.

Lemma sorted_ordered {M} (h : gmap addr (Node Z M)) p (d0 : dtree Z M) lo hi :
  dlinked h p d0 → StronglySorted Z.lt (ditems d0) →
  Forall (λ x, above lo x = true ∧ below hi x = true) (ditems d0) →
  ordered h lo hi (erase d0) = true.
Proof.
  revert p lo hi. induction d0 as [|l IHl a k m r IHr]; intros p lo hi; [done|].
  intros (Ha & Hl & Hr) Hs Hb. cbn [erase ordered ditems] in *. rewrite Ha. cbn [item].
  destruct (sorted_mid [] _ _ [] _ ltac:(by rewrite app_nil_r)) as [Hlk Hkr].
  apply StronglySorted_app in Hs as (_ & Hsl & Hsr).
  apply StronglySorted_inv in Hsr as [Hsr _].
  apply Forall_app in Hb as [Hbl Hbr]. apply Forall_cons in Hbr as [[-> ->] Hbr].
  rewrite (IHl _ lo (Some k) Hl Hsl), (IHr _ (Some k) hi Hr Hsr); [done| |].
  - apply Forall_forall. intros y Hy. split.
    + eapply Forall_forall in Hkr; [|exact Hy]. simpl. by apply Z.ltb_lt.
    + by eapply Forall_forall in Hbr as [_ ?].
  - apply Forall_forall. intros y Hy. split.
    + by eapply Forall_forall in Hbl as [? _].
    + eapply Forall_forall in Hlk; [|exact Hy]. simpl. by apply Z.ltb_lt.
Qed.

(** From shapes to trees with data and back, with the order *)
Lemma represents_ordered_holds {M} (t : Tree Z M) s :
  represents t s → ordered (heap t) None None s = true →
  ∃ d0 : dtree Z M, erase d0 = s ∧ holds t d0 ∧ StronglySorted Z.lt (ditems d0)
       ∧ ditems d0 = items (heap t) s.
Proof.
  intros Hrep Ho. destruct (represents_holds t s Hrep) as (d0 & <- & Hd).
  exists d0. pose proof Hd as (_ & Hl & _).
  rewrite <- (dlinked_items _ _ _ Hl).
  split; [done|]. split; [done|]. split; [|done].
  by apply (ordered_items _ None None).
Qed.

Lemma holds_sorted_represents {M} (t : Tree Z M) (d0 : dtree Z M) :
  holds t d0 → StronglySorted Z.lt (ditems d0) →
  represents t (erase d0) ∧ ordered (heap t) None None (erase d0) = true
  ∧ items (heap t) (erase d0) = ditems d0.
Proof.
  intros Hd Hs. pose proof Hd as (_ & Hl & _).
  split; [by apply holds_represents|]. split; [|by eapply dlinked_items].
  eapply sorted_ordered; [done|done|]. apply Forall_forall. by intros.
Qed.

(** [Insert(x)] on a search tree whose root is black: it returns, the
    tree is again a search tree with a black root, and it holds [x]
    and what it held before. *)
Lemma RB_Insert_ok t s x fuel :
  represents t s → ordered (heap t) None None s = true → black_root t = true →
  (size s + 1 < fuel)%nat →
  ∃ t' s', Insert fuel t x = Ok t'
           ∧ represents t' s'
           ∧ ordered (heap t') None None s' = true
           ∧ black_root t' = true
           ∧ (∀ y, y ∈ items (heap t') s' ↔ y = x ∨ y ∈ items (heap t) s)
           ∧ (size s' ≤ size s + 1)%nat.
Proof.
  intros Hrep Ho Hb Hf.
  destruct (represents_ordered_holds t s Hrep Ho) as (d & <- & Hd & Hs & Hit).
  rewrite (black_root_holds _ _ Hd) in Hb.
  destruct (rb_insert_correct (fresh (dom (heap t))) x d Hb Hs)
    as (d' & Hins & Hb' & Hs' & Hmem & Hsz).
  rewrite erase_size in Hf.
  destruct (RB_Insert_rb_insert t d x d' fuel Hd Hf Hins) as (t' & HI & Hd').
  destruct (holds_sorted_represents t' d' Hd' Hs') as (Hrep' & Ho' & Hit').
  exists t', (erase d'). rewrite Hit', <- Hit, !erase_size.
  by rewrite (black_root_holds _ _ Hd').
Qed.
End RBInsertCorrect.

(** ** [Insert] keeps the red-black properties *)

Ltac bsplit :=
  repeat match goal with
  | H : _ && _ = true |- _ => apply andb_prop in H; destruct H
  | H : RBTree.color_eqb ?m RBTree.Black = true |- _ =>
      destruct m; [discriminate H|clear H]
  | H : is_true (_ && _) |- _ => apply andb_prop in H; destruct H
  end.

Ltac bsolve :=
  bsplit; simpl in *; bsplit;
  repeat match goal with
  | H : ?b = true |- context [?b] => rewrite H
  end; simpl; try done.

Section RBInvariants.
Import RBTree.
Implicit Types (d : dtree Z RBColor) (c : dctx Z RBColor).

Lemma balanced_plug c : ∀ d n,
  balanced n d = true → cbalanced n c = true →
  balanced (cheight n c) (dplug c d) = true.
Proof.
  induction c as [|a k m r c IH|l a k m c IH]; intros d n Hd Hc; simpl in *; [done| |];
    apply andb_prop in Hc as [Hs Hc]; apply IH; [|done| |done]; destruct m; simpl;
    by rewrite Hd, Hs.
Qed.

Lemma balanced_unplug c : ∀ d N,
  balanced N (dplug c d) = true →
  ∃ n, balanced n d = true ∧ cbalanced n c = true.
Proof.
  induction c as [|a k m r c IH|l a k m c IH]; intros d N H; simpl in *.
  - by exists N.
  - destruct (IH _ _ H) as (n & Hb & Hc). simpl in Hb.
    destruct m.
    + apply andb_prop in Hb as [H1 H2]. exists n. simpl. by rewrite H1, H2, Hc.
    + destruct n as [|n]; [done|]. apply andb_prop in Hb as [H1 H2].
      exists n. simpl. by rewrite H1, H2, Hc.
  - destruct (IH _ _ H) as (n & Hb & Hc). simpl in Hb.
    destruct m.
    + apply andb_prop in Hb as [H1 H2]. exists n. simpl. by rewrite H1, H2, Hc.
    + destruct n as [|n]; [done|]. apply andb_prop in Hb as [H1 H2].
      exists n. simpl. by rewrite H1, H2, Hc.
Qed.

Lemma rr_free_plug c : ∀ d,
  rr_free d = true → crr_free c = true →
  (frame_black c = false → root_black d = true) →
  rr_free (dplug c d) = true.
Proof.
  induction c as [|a k m r c IH|l a k m c IH]; intros d Hd Hc Hf; simpl in *; [done| |].
  - apply IH.
    + destruct m; bsolve. by rewrite Hf.
    + by bsplit.
    + intros Hfb. destruct m; [|done]. bsplit. congruence.
  - apply IH.
    + destruct m; bsolve. by rewrite Hf.
    + by bsplit.
    + intros Hfb. destruct m; [|done]. bsplit. congruence.
Qed.

Lemma rr_free_unplug c : ∀ d,
  rr_free (dplug c d) = true →
  rr_free d = true ∧ crr_free c = true
  ∧ (root_black d = false → frame_black c = true).
Proof.
  induction c as [|a k m r c IH|l a k m c IH]; intros d H; simpl in *; [done| |].
  - destruct (IH _ H) as (Hb & Hc & Hf). simpl in Hb, Hf. bsplit.
    split; [done|]. rewrite Hc. destruct m.
    + bsplit. rewrite Hf by done. split; [by bsolve|]. congruence.
    + split; [by bsolve|]. done.
  - destruct (IH _ H) as (Hb & Hc & Hf). simpl in Hb, Hf. bsplit.
    split; [done|]. rewrite Hc. destruct m.
    + bsplit. rewrite Hf by done. split; [by bsolve|]. congruence.
    + split; [by bsolve|]. done.
Qed.

Lemma rr_free_blacken d : rr_free d = true → rr_free (blacken d) = true.
Proof. destruct d as [|l a k m r]; [done|]. simpl. intros. by bsolve. Qed.

Lemma balanced_blacken d n :
  balanced n d = true → ∃ n', balanced n' (blacken d) = true.
Proof.
  destruct d as [|l a k [] r]; simpl; intros H.
  - by exists n.
  - by exists (S n).
  - by exists n.
Qed.

(** The loop of [InsertFixup], started at a red node [dz] whose only
    fault may be a red parent, ends with the red-black properties but
    perhaps a red root. *)
Lemma fixup_valid c dz : ∀ d' n,
  fixup c dz = Some d' →
  is_red_root dz = true → rr_free dz = true → balanced n dz = true →
  cbalanced n c = true → crr_free c = true →
  rr_free (blacken d') = true ∧ ∃ N, balanced N d' = true.
Proof.
  functional induction (fixup c dz); intros d' n Hf Hred Hrr Hb Hcb Hcr;
    try discriminate;
    try (injection Hf as <-);
    try (destruct dz as [|dzl dza dzk [] dzr]; try discriminate);
    try (destruct u as [|ul ua ku [] ur]; try discriminate);
    repeat match goal with
    | H : is_red_root (DBr _ _ _ ?m _) = true |- _ =>
        destruct m; [clear H|discriminate H]
    end;
    simpl in Hcb, Hcr; bsplit; simpl in *; bsplit;
    try (by (split; [bsolve|exists n; bsolve]));
    try (by (eapply (IHo d' (S n) Hf); bsolve));
    try (by (split; [apply rr_free_blacken, rr_free_plug; bsolve
                    | eexists; apply (balanced_plug _ _ (S n)); bsolve])).
Qed.

Lemma rb_insert_valid z x d d' :
  rb_valid d → rb_insert z x d = Some d' → rb_valid d'.
Proof.
  intros (Hb & Hrr & N & Hbal). unfold rb_insert.
  destruct (insert_ctx x DTop d) as [c|] eqn:Hc;
    [|intros [= <-]; split; [done|]; split; [done|]; by exists N].
  destruct (fixup c (DBr DLeaf z x Red DLeaf)) as [d1|] eqn:Hfix; [|done].
  intros [= <-].
  pose proof (insert_ctx_plug _ _ _ _ Hc) as Hplug. cbn [dplug] in Hplug.
  rewrite <- Hplug in Hrr, Hbal.
  apply rr_free_unplug in Hrr as (_ & Hcr & _).
  apply balanced_unplug in Hbal as (n & Hn & Hcb).
  simpl in Hn. apply Nat.eqb_eq in Hn as ->.
  destruct (fixup_valid _ _ _ 0%nat Hfix) as (Hrr' & N' & Hbal'); try done.
  split; [apply root_black_blacken|]. split; [done|].
  by eapply balanced_blacken.
Qed.

Lemma rb_valid_DLeaf : rb_valid DLeaf.
Proof. split; [done|]. split; [done|]. by exists 0%nat. Qed.
End RBInvariants.

(** ** More fuel does not change a result *)

Section FuelMono.
Context {K M : Type}.
Implicit Types (t : Tree K M) (p : ptr).

Lemma descend_left_mono t f f' p q :
  descend_left f t p = Ok q → (f ≤ f')%nat → descend_left f' t p = Ok q.
Proof.
  revert f' p. induction f as [|f IH]; intros f' p; [done|].
  destruct f' as [|f']; [lia|]. cbn [descend_left]. intros H Hf.
  destruct (get left t p) as [l| |]; [|done..]. cbn [bind] in *.
  destruct (is_null l); [done|]. apply IH; [done|lia].
Qed.

Lemma ascend_right_mono t f f' p q :
  ascend_right f t p = Ok q → (f ≤ f')%nat → ascend_right f' t p = Ok q.
Proof.
  revert f' p. induction f as [|f IH]; intros f' p; [done|].
  destruct f' as [|f']; [lia|]. cbn [ascend_right]. intros H Hf.
  destruct (get parent t p) as [pp| |]; [|done..]. cbn [bind] in *.
  destruct (is_null pp); [done|].
  destruct (get right t pp) as [pr| |]; [|done..]. cbn [bind] in *.
  destruct (ptr_eqb pr p); [|done]. apply IH; [done|lia].
Qed.

Lemma ConstIterator_incr_mono t f f' p q :
  ConstIterator_incr f t p = Ok q → (f ≤ f')%nat → ConstIterator_incr f' t p = Ok q.
Proof.
  unfold ConstIterator_incr. intros H Hf.
  destruct (get right t p) as [r| |]; [|done..]. cbn [bind] in *.
  destruct (negb (is_null r)).
  - by eapply descend_left_mono.
  - destruct (ascend_right f t p) as [c| |] eqn:E; [|done..].
    by rewrite (ascend_right_mono _ _ _ _ _ E Hf).
Qed.

Lemma begin_mono t f f' q :
  begin f t = Ok q → (f ≤ f')%nat → begin f' t = Ok q.
Proof.
  unfold begin, ConstIterator_new. destruct (is_null (root t)); [done|].
  apply descend_left_mono.
Qed.

(** One step of an inorder walk that is known to end *)
Lemma inorder_from_None t f L : inorder_from f t None = Ok L → L = [].
Proof. destruct f; [done|]. simpl. by intros [= <-]. Qed.

Lemma inorder_from_Some t fL a L li :
  inorder_from fL t (Some a) = Ok L → items_of t L = Ok li →
  ∃ f nxt L' x li',
    fL = S f ∧ L = a :: L' ∧ li = x :: li'
    ∧ get item t (Some a) = Ok x
    ∧ (∀ g, (S f ≤ g)%nat → ConstIterator_incr g t (Some a) = Ok nxt)
    ∧ inorder_from f t nxt = Ok L'
    ∧ items_of t L' = Ok li'.
Proof.
  destruct fL as [|f]; [done|]. cbn [inorder_from]. intros H Hit.
  destruct (ConstIterator_incr (S f) t (Some a)) as [nxt| |] eqn:E; [|done..].
  cbn [bind] in H.
  destruct (inorder_from f t nxt) as [L'| |] eqn:E'; [|done..].
  cbn [bind] in H. injection H as <-. cbn [items_of] in Hit.
  destruct (get item t (Some a)) as [x| |] eqn:Ex; [|done..]. cbn [bind] in Hit.
  destruct (items_of t L') as [li'| |] eqn:Eli; [|done..]. cbn [bind] in Hit.
  injection Hit as <-.
  exists f, nxt, L', x, li'. repeat split; try done.
  intros g Hg. by eapply ConstIterator_incr_mono.
Qed.

Lemma items_of_length t L li : items_of t L = Ok li → length li = length L.
Proof.
  revert li. induction L as [|a L IH]; intros li; cbn [items_of].
  - by intros [= <-].
  - destruct (get item t (Some a)) as [x| |]; [|done..]. cbn [bind].
    destruct (items_of t L) as [li'| |]; [|done..]. cbn [bind].
    intros [= <-]. simpl. by rewrite (IH li').
Qed.
End FuelMono.

(** ** [Intersect] of the red-black tree *)

Section RBIntersect.
Import RBTree.
Context {M' : Type}.
Implicit Types (t acc : T) (other : Tree Z M').

Lemma sorted_head_notin (x : Z) (l : list Z) :
  StronglySorted Z.lt (x :: l) → ∀ y, y ∈ l → x < y.
Proof.
  intros [_ H]%StronglySorted_inv y Hy. by eapply Forall_forall in H.
Qed.

Lemma RB_Intersect_loop_ok t other (g : nat) :
  ∀ left_ right_ fL fR L R li ri acc sacc,
  inorder_from fL t left_ = Ok L → items_of t L = Ok li → StronglySorted Z.lt li →
  inorder_from fR other right_ = Ok R → items_of other R = Ok ri →
  StronglySorted Z.lt ri →
  represents acc sacc → ordered (heap acc) None None sacc = true →
  black_root acc = true →
  (fL + length R ≤ g)%nat → (fR + length L ≤ g)%nat →
  (size sacc + 2 * (length L + length R) + 2 ≤ g)%nat →
  ∃ t' s', Intersect_loop Z.eqb Z.ltb g t other left_ right_ acc = Ok t'
           ∧ represents t' s'
           ∧ ordered (heap t') None None s' = true
           ∧ black_root t' = true
           ∧ (∀ y, y ∈ items (heap t') s'
                   ↔ y ∈ items (heap acc) sacc ∨ (y ∈ li ∧ y ∈ ri)).
Proof.
  induction g as [|g IH];
    intros left_ right_ fL fR L R li ri acc sacc HL HLi HsL HR HRi HsR Hrep Ho Hb
      HfL HfR Hg; [lia|].
  cbn [Intersect_loop].
  destruct left_ as [a|]; cycle 1.
  { apply inorder_from_None in HL as ->. cbn in HLi. injection HLi as <-.
    exists acc, sacc. cbn [is_null negb andb]. split_and!; try done.
    intros z. split; [by left|]. intros [?|[?%elem_of_nil _]]; done. }
  destruct right_ as [b|]; cycle 1.
  { apply inorder_from_None in HR as ->. cbn in HRi. injection HRi as <-.
    exists acc, sacc. cbn [is_null negb andb]. split_and!; try done.
    intros z. split; [by left|]. intros [?|[_ ?%elem_of_nil]]; done. }
  cbn [is_null negb andb].
  destruct (inorder_from_Some _ _ _ _ _ HL HLi)
    as (fl & nl & L' & x & li' & -> & -> & -> & Hx & Hil & HL' & HLi').
  destruct (inorder_from_Some _ _ _ _ _ HR HRi)
    as (fr & nr & R' & y & ri' & -> & -> & -> & Hy & Hir & HR' & HRi').
  rewrite Hx, Hy. cbn [bind]. cbn [length] in *.
  pose proof (sorted_head_notin _ _ HsL) as HxL.
  pose proof (sorted_head_notin _ _ HsR) as HyR.
  apply StronglySorted_inv in HsL as [HsL' _].
  apply StronglySorted_inv in HsR as [HsR' _].
  destruct (Z.eqb_spec x y) as [Heq|Hne].
  - subst y.
    destruct (RB_Insert_ok acc sacc x (S g) Hrep Ho Hb ltac:(lia))
      as (acc' & sacc' & -> & Hrep' & Ho' & Hb' & Hmem & Hsz).
    cbn [bind]. rewrite (Hil (S g)) by lia. rewrite (Hir (S g)) by lia. cbn [bind].
    destruct (IH nl nr fl fr L' R' li' ri' acc' sacc')
      as (t' & s' & Hloop & Hrep'' & Ho'' & Hb'' & Hmem''); try done; try lia.
    exists t', s'. split_and!; try done. intros z. rewrite Hmem''. split.
    + intros [Hin|[H1 H2]].
      * apply Hmem in Hin as [->|Hin]; [right|by left]. split; by left.
      * right. split; by right.
    + intros [Hin|[H1 H2]].
      * left. apply Hmem. by right.
      * apply elem_of_cons in H1 as [->|H1]; [left; apply Hmem; by left|].
        apply elem_of_cons in H2 as [->|H2]; [left; apply Hmem; by left|].
        by right.
  - destruct (Z.ltb_spec x y) as [Hlt|Hge].
    + rewrite (Hil (S g)) by lia. cbn [bind].
      destruct (IH nl (Some b) fl (S fr) L' (b :: R') li' (y :: ri') acc sacc)
        as (t' & s' & Hloop & Hrep'' & Ho'' & Hb'' & Hmem'');
        try done; try (cbn [length]; lia).
      { by constructor; [|apply Forall_forall]. }
      exists t', s'. split_and!; try done. intros z. rewrite Hmem''. split.
      * intros [Hin|[H1 H2]]; [by left|].
        right. split; [by right|done].
      * intros [Hin|[H1 H2]]; [by left|].
        apply elem_of_cons in H1 as [->|H1]; [|by right].
        apply elem_of_cons in H2 as [->|H2]; [lia|]. apply HyR in H2. lia.
    + rewrite (Hir (S g)) by lia. cbn [bind].
      destruct (IH (Some a) nr (S fl) fr (a :: L') R' (x :: li') ri' acc sacc)
        as (t' & s' & Hloop & Hrep'' & Ho'' & Hb'' & Hmem'');
        try done; try (cbn [length]; lia).
      { by constructor; [|apply Forall_forall]. }
      exists t', s'. split_and!; try done. intros z. rewrite Hmem''. split.
      * intros [Hin|[H1 H2]]; [by left|].
        right. split; [done|by right].
      * intros [Hin|[H1 H2]]; [by left|].
        apply elem_of_cons in H2 as [->|H2]; [|by right].
        apply elem_of_cons in H1 as [->|H1]; [lia|]. apply HxL in H1. lia.
Qed.
End RBIntersect.

Section RBSequences.
Import RBTree.
Implicit Types (t : T).

Lemma inorder_nodes_begin {K M} (t : Tree K M) f l :
  inorder_nodes f t = Ok l → ∃ p, begin f t = Ok p ∧ inorder_from f t p = Ok l.
Proof.
  unfold inorder_nodes. destruct (begin f t) as [p| |]; [|done..]. cbn [bind]. eauto.
Qed.

Lemma represents_empty {K M} : represents (@empty_tree K M) Leaf.
Proof. done. Qed.

(** What the inorder walk of a search tree gives, at any larger fuel *)
Lemma inorder_walk {M} (t : Tree Z M) s :
  represents t s → ordered (heap t) None None s = true →
  ∃ p, (∀ g, (2 * size s + 1 ≤ g)%nat → begin g t = Ok p)
       ∧ inorder_from (2 * size s + 1) t p = Ok (nodes s)
       ∧ items_of t (nodes s) = Ok (items (heap t) s)
       ∧ StronglySorted Z.lt (items (heap t) s).
Proof.
  intros Hrep Ho.
  destruct (inorder_nodes_begin t (2 * size s + 1) (nodes s)) as (p & Hb & Hp).
  { apply inorder_nodes_represents; [done|lia]. }
  exists p. split; [|split; [done|split]].
  - intros g Hg. by eapply begin_mono.
  - apply items_of_nodes. intros a Ha. destruct Hrep as (_ & Hl & _).
    by eapply linked_lookup.
  - by apply (ordered_items _ None None).
Qed.

Lemma RB_run_inserts_ok (xs : list Z) : ∀ t s fuel,
  represents t s → ordered (heap t) None None s = true → black_root t = true →
  (size s + length xs < fuel)%nat →
  ∃ t' s', run fuel t (Ins <$> xs) = Ok t'
           ∧ represents t' s'
           ∧ ordered (heap t') None None s' = true
           ∧ black_root t' = true
           ∧ (∀ y, y ∈ items (heap t') s' ↔ y ∈ xs ∨ y ∈ items (heap t) s)
           ∧ (size s' ≤ size s + length xs)%nat.
Proof.
  induction xs as [|x xs IH]; intros t s fuel Hrep Ho Hb Hf.
  - exists t, s. split_and!; try done; [|simpl; lia].
    intros y. split; [by right|]. by intros [?%elem_of_nil|].
  - cbn [fmap list_fmap run run_op length] in *.
    destruct (RB_Insert_ok t s x fuel Hrep Ho Hb ltac:(lia))
      as (t1 & s1 & -> & Hrep1 & Ho1 & Hb1 & Hmem1 & Hsz1).
    cbn [bind].
    destruct (IH t1 s1 fuel Hrep1 Ho1 Hb1 ltac:(lia))
      as (t' & s' & Hrun & Hrep' & Ho' & Hb' & Hmem' & Hsz').
    exists t', s'. split_and!; try done; [|lia].
    intros y. rewrite Hmem', Hmem1, elem_of_cons. tauto.
Qed.
End RBSequences.

(** ** [IsValid] of the red-black tree *)

Section PostorderMono.
Context {K M : Type}.
Implicit Types (t : Tree K M) (it : PostIter).

Lemma Postorder_advance_mono t f f' it it' :
  Postorder_advance f t it = Ok it' → (f ≤ f')%nat → Postorder_advance f' t it = Ok it'.
Proof.
  revert f' it. induction f as [|f IH]; intros f' it; [done|].
  destruct f' as [|f']; [lia|]. cbn [Postorder_advance]. intros H Hf.
  destruct (is_null (next it)); [done|].
  destruct (downwardPhase it); [|done].
  destruct (get right t (next it)) as [r| |]; [|done..]. cbn [bind] in *.
  destruct (negb (is_null r)).
  - destruct (descend_left (S f) t r) as [n| |] eqn:E; [|done..].
    rewrite (descend_left_mono _ _ (S f') _ _ E) by lia. cbn [bind] in *.
    apply IH; [done|lia].
  - apply IH; [done|lia].
Qed.

Lemma Postorder_incr_mono t f f' it it' :
  Postorder_incr f t it = Ok it' → (f ≤ f')%nat → Postorder_incr f' t it = Ok it'.
Proof. apply Postorder_advance_mono. Qed.

Lemma Postorder_begin_mono t f f' it :
  Postorder_begin f t = Ok it → (f ≤ f')%nat → Postorder_begin f' t = Ok it.
Proof.
  unfold Postorder_begin, Postorder_new. destruct (is_null (root t)); [done|].
  intros H Hf. destruct (descend_left f t (root t)) as [n| |] eqn:E; [|done..].
  rewrite (descend_left_mono _ _ f' _ _ E) by lia. cbn [bind] in *.
  by eapply Postorder_incr_mono.
Qed.

Lemma postorder_nodes_begin t f L :
  postorder_nodes f t = Ok L →
  ∃ it, Postorder_begin f t = Ok it ∧ postorder_from f t it = Ok L.
Proof.
  unfold postorder_nodes. destruct (Postorder_begin f t) as [it| |]; [|done..].
  cbn [bind]. eauto.
Qed.
End PostorderMono.

Section RBIsValid.
Import RBTree.
Implicit Types (t : T) (d : dtree Z RBColor) (c : dctx Z RBColor).

(** The first loop, along an inorder walk *)
Lemma IsValid_red_loop_walk t (g : nat) : ∀ itr f L bs,
  inorder_from f t itr = Ok L → (f ≤ g)%nat → Forall2 (red_fact t) L bs →
  IsValid_red_loop g t itr = Ok (forallb id bs).
Proof.
  induction g as [|g IH]; intros itr f L bs HL Hf Hfacts.
  { destruct f; [done|lia]. }
  destruct f as [|f]; [done|]. cbn [IsValid_red_loop inorder_from] in *.
  destruct itr as [a|]; cbn [is_null].
  - destruct (ConstIterator_incr (S f) t (Some a)) as [nxt| |] eqn:E; [|done..].
    cbn [bind] in HL.
    destruct (inorder_from f t nxt) as [L'| |] eqn:E'; [|done..].
    cbn [bind] in HL. injection HL as <-.
    apply Forall2_cons_inv_l in Hfacts as (b & bs' & Hb & Hbs & ->).
    unfold red_fact in Hb. rewrite Hb. cbn [bind forallb id].
    destruct b; cbn [negb andb]; [|done].
    rewrite (ConstIterator_incr_mono _ _ (S g) _ _ E) by lia. cbn [bind].
    eapply IH; [exact E'|lia|done].
  - injection HL as <-. by apply Forall2_nil_inv_l in Hfacts as ->.
Qed.

(** The second loop, along a postorder walk *)
Lemma IsValid_black_loop_walk (D : nat) t (g : nat) : ∀ it f L os mc,
  postorder_from f t it = Ok L → (f ≤ g)%nat → (D + length L ≤ g)%nat →
  Forall2 (black_fact D t) L os →
  IsValid_black_loop g t it mc = Ok (check_counts mc os).
Proof.
  induction g as [|g IH]; intros it f L os mc HL Hf HD Hfacts.
  { destruct f; [done|lia]. }
  destruct f as [|f]; [done|]. cbn [IsValid_black_loop postorder_from] in *.
  destruct (Postorder_neq it Postorder_end).
  - destruct (Postorder_incr (S f) t it) as [it'| |] eqn:E; [|done..].
    cbn [bind] in HL.
    destruct (postorder_from f t it') as [L'| |] eqn:E'; [|done..].
    cbn [bind] in HL. injection HL as <-.
    apply Forall2_cons_inv_l in Hfacts as (o & os' & Ho & Hos & ->).
    destruct Ho as (l & r & -> & -> & Ho). cbn [bind length] in *.
    pose proof (Postorder_incr_mono _ _ (S g) _ _ E ltac:(lia)) as E1.
    destruct o as [n|].
    + destruct Ho as [-> Hcnt]. rewrite (Hcnt (S g)) by lia. cbn [bind check_counts].
      destruct (mc =? -1).
      * rewrite E1. cbn [bind]. eapply IH; [exact E'|lia|lia|done].
      * destruct (n =? mc); cbn [negb]; [|done].
        rewrite E1. cbn [bind]. eapply IH; [exact E'|lia|lia|done].
    + rewrite Ho, E1. cbn [bind check_counts]. eapply IH; [exact E'|lia|lia|done].
  - injection HL as <-. by apply Forall2_nil_inv_l in Hfacts as ->.
Qed.

Lemma is_red_dtop t p d :
  dlinked (heap t) p d → is_red t (dtop d) = Ok (is_red_root d).
Proof.
  destruct d as [|l a k m r]; [done|]. intros (Ha & _). unfold is_red. cbn [dtop is_null].
  rewrite (get_links _ _ _ _ Ha). cbn [bind meta]. by destruct m.
Qed.

Lemma red_facts t d : ∀ p,
  dlinked (heap t) p d → Forall2 (red_fact t) (dnodes d) (rr_checks d).
Proof.
  induction d as [|l IHl a k m r IHr]; intros p; cbn [dnodes rr_checks dlinked].
  - constructor.
  - intros (Ha & Hl & Hr). apply Forall2_app; [by eapply IHl|].
    constructor; [|by eapply IHr].
    unfold red_fact, red_with_red_child. rewrite negb_involutive.
    rewrite (get_links _ _ _ _ Ha). cbn [bind meta].
    destruct m; cbn [color_eqb andb]; [|done].
    rewrite (get_links _ _ _ _ Ha). cbn [bind left].
    rewrite (is_red_dtop _ _ _ Hl). cbn [bind].
    destruct (is_red_root l); cbn [orb]; [done|].
    rewrite (get_links _ _ _ _ Ha). cbn [bind right].
    by rewrite (is_red_dtop _ _ _ Hr).
Qed.

(** Counting the black nodes from a node up to the root *)
Lemma count_black_up t c : ∀ a k m l r acc fuel,
  heap t !! a = Some (mkNode k m l r (dhole_parent c)) →
  dctx_linked (heap t) c (Some a) →
  (ddepth c + 1 < fuel)%nat →
  count_black fuel t (Some a) acc
  = Ok ((if color_eqb m Black then 1 else 0) + blacks_above c + acc).
Proof.
  induction c as [|p kp mp sp c IH|sp p kp mp c IH];
    intros a k m l r acc fuel Ha Hc Hf;
    (destruct fuel as [|fuel]; [lia|]); cbn [count_black is_null];
    rewrite !(get_links _ _ _ _ Ha); cbn [bind meta parent dhole_parent ddepth] in *.
  - destruct fuel as [|fuel]; [lia|]. cbn [count_black is_null blacks_above].
    f_equal. destruct m; cbn [color_eqb]; lia.
  - destruct Hc as (Hp & _ & Hc).
    rewrite (IH _ _ _ _ _ _ _ Hp Hc) by lia. f_equal. cbn [blacks_above].
    destruct m; cbn [color_eqb]; lia.
  - destruct Hc as (Hp & _ & Hc).
    rewrite (IH _ _ _ _ _ _ _ Hp Hc) by lia. f_equal. cbn [blacks_above].
    destruct m; cbn [color_eqb]; lia.
Qed.

Lemma black_facts t d : ∀ c,
  dlinked (heap t) (dhole_parent c) d → dctx_linked (heap t) c (dtop d) →
  Forall2 (black_fact (ddepth c + dsize d) t) (map Some (postorder (erase d)))
    (leaf_counts (blacks_above c) d).
Proof.
  induction d as [|l IHl a k m r IHr]; intros c; cbn [erase postorder leaf_counts dlinked].
  - constructor.
  - intros (Ha & Hl & Hr) Hc. rewrite !map_app. cbn [map dtop] in *.
    assert (Hmono : ∀ D D' p o, (D ≤ D')%nat → black_fact D t p o → black_fact D' t p o).
    { intros D D' p o HD (l0 & r0 & H1 & H2 & H3). exists l0, r0. split; [done|].
      split; [done|]. destruct o; [|done]. destruct H3 as [H3 H4]. split; [done|].
      intros fuel Hfuel. apply H4. lia. }
    apply Forall2_app; [|apply Forall2_app].
    + eapply Forall2_impl; [apply (IHl (DCL a k m r c)); [done|]|].
      * cbn [dctx_linked]. done.
      * intros p o. apply Hmono. cbn [ddepth dsize]. lia.
    + eapply Forall2_impl; [apply (IHr (DCR l a k m c)); [done|]|].
      * cbn [dctx_linked]. done.
      * intros p o. apply Hmono. cbn [ddepth dsize]. lia.
    + constructor; [|constructor]. exists (dtop l), (dtop r).
      rewrite !(get_links _ _ _ _ Ha). split; [done|]. split; [done|].
      destruct l as [|? ? ? ? ?]; [destruct r as [|? ? ? ? ?]|]; try done.
      split; [done|]. intros fuel Hfuel.
      rewrite (count_black_up t c _ _ _ _ _ 0 fuel Ha Hc) by (cbn [dsize] in Hfuel; lia).
      f_equal. lia.
Qed.

(** [IsValid] computes [is_valid]. *)
Lemma RB_IsValid_is_valid t d fuel :
  holds t d → (2 * dsize d + 2 < fuel)%nat →
  IsValid fuel t = Ok (is_valid d).
Proof.
  intros Hd Hf. pose proof (holds_represents _ _ Hd) as Hrep.
  pose proof Hd as (Hroot & Hl & _).
  destruct (inorder_nodes_begin t (2 * size (erase d) + 1) (nodes (erase d)))
    as (p & Hbeg & Hwalk).
  { apply inorder_nodes_represents; [done|lia]. }
  destruct (postorder_nodes_begin t (2 * size (erase d) + 3) (map Some (postorder (erase d))))
    as (it & Hpbeg & Hpwalk).
  { apply postorder_nodes_represents; [done|lia]. }
  rewrite erase_size in *. rewrite erase_nodes in Hwalk.
  unfold IsValid, is_valid.
  assert (Hrootred :
    (if negb (is_null (root t))
     then bind (get color t (root t)) (λ cl, Ok (negb (color_eqb cl Black)))
     else Ok false) = Ok (negb (root_black d))).
  { rewrite Hroot. destruct d as [|l a k m r]; [done|]. destruct Hl as (Ha & _).
    cbn [dtop is_null negb]. rewrite (get_links _ _ _ _ Ha). cbn [bind meta].
    by destruct m. }
  rewrite Hrootred. cbn [bind].
  destruct (root_black d); cbn [negb andb]; [|done].
  rewrite (begin_mono _ _ fuel _ Hbeg) by lia. cbn [bind].
  rewrite (IsValid_red_loop_walk t fuel p _ _ (rr_checks d) Hwalk) by
    (first [lia | by eapply red_facts]).
  cbn [bind]. destruct (forallb id (rr_checks d)); cbn [negb]; [|done].
  rewrite (Postorder_begin_mono _ _ fuel _ Hpbeg) by lia. cbn [bind].
  apply (IsValid_black_loop_walk (dsize d) t fuel it _ _ (leaf_counts 0 d) (-1) Hpwalk).
  - lia.
  - rewrite length_map, length_postorder, erase_size. lia.
  - apply (black_facts t d DTop); [done|done].
Qed.

Lemma forallb_rr_checks d : forallb id (rr_checks d) = rr_free d.
Proof.
  induction d as [|l IHl a k m r IHr]; [done|]. cbn [rr_checks rr_free].
  rewrite forallb_app. cbn [forallb id]. rewrite IHl, IHr.
  assert (Hrb : ∀ d0, root_black d0 = negb (is_red_root d0))
    by (by intros [|? ? ? [] ?]).
  rewrite !Hrb.
  by destruct m, (is_red_root l), (is_red_root r), (rr_free l), (rr_free r).
Qed.

Lemma leaf_counts_balanced d : ∀ n h,
  balanced h d = true →
  Forall (λ o, o = None ∨ o = Some (n + Z.of_nat h)) (leaf_counts n d).
Proof.
  induction d as [|l IHl a k m r IHr]; intros n h Hb; cbn [leaf_counts balanced] in *.
  - constructor.
  - assert (∃ h', balanced h' l = true ∧ balanced h' r = true
              ∧ (if color_eqb m Black then 1 else 0) + n + Z.of_nat h' = n + Z.of_nat h)
      as (h' & Hl & Hr & Heq).
    { destruct m; cbn [color_eqb].
      - apply andb_prop in Hb as [? ?]. exists h. split; [done|]. split; [done|]. lia.
      - destruct h as [|h]; [done|]. apply andb_prop in Hb as [? ?].
        exists h. split; [done|]. split; [done|]. lia. }
    rewrite <- Heq. apply Forall_app. split; [by apply IHl|].
    apply Forall_app. split; [by apply IHr|].
    constructor; [|constructor].
    destruct l; [destruct r|]; [right|left..]; try done.
    simpl in Hl. apply Nat.eqb_eq in Hl as ->. f_equal. lia.
Qed.

Lemma check_counts_const (v : Z) os : ∀ mc,
  v ≠ -1 → mc = -1 ∨ mc = v →
  Forall (λ o, o = None ∨ o = Some v) os → check_counts mc os = true.
Proof.
  induction os as [|o os IH]; intros mc Hv Hmc Hall; [done|].
  apply Forall_cons in Hall as [[->| ->] Hall]; cbn [check_counts].
  - by apply IH.
  - destruct Hmc as [->| ->].
    + cbn. apply IH; [done|by right|done].
    + destruct (Z.eqb_spec v (-1)); [done|]. rewrite Z.eqb_refl. cbn.
      apply IH; [done|by right|done].
Qed.

(** A red-black tree passes [IsValid]. *)
Lemma rb_valid_is_valid d : rb_valid d → is_valid d = true.
Proof.
  intros (Hb & Hrr & h & Hbal). unfold is_valid.
  rewrite Hb, forallb_rr_checks, Hrr. cbn [andb].
  apply (check_counts_const (0 + Z.of_nat h)); [lia|by left|].
  by apply leaf_counts_balanced.
Qed.
End RBIsValid.

(** ** [Insert] and the red-black properties, on the heap *)

Section RBInsertValid.
Import RBTree.
Implicit Types (t : T) (d : dtree Z RBColor) (c : dctx Z RBColor).

Lemma RB_Insert_valid t d x fuel :
  holds t d → rb_valid d → StronglySorted Z.lt (ditems d) →
  (dsize d + 1 < fuel)%nat →
  ∃ t' d', Insert fuel t x = Ok t'
           ∧ holds t' d' ∧ rb_valid d'
           ∧ StronglySorted Z.lt (ditems d')
           ∧ (∀ y, y ∈ ditems d' ↔ y = x ∨ y ∈ ditems d)
           ∧ (dsize d' ≤ dsize d + 1)%nat.
Proof.
  intros Hd Hv Hs Hf. pose proof Hv as (Hb & _).
  destruct (rb_insert_correct (fresh (dom (heap t))) x d Hb Hs)
    as (d' & Hins & Hb' & Hs' & Hmem & Hsz).
  destruct (RB_Insert_rb_insert t d x d' fuel Hd Hf Hins) as (t' & HI & Hd').
  exists t', d'. split_and!; try done. by eapply rb_insert_valid.
Qed.

Lemma RB_run_inserts_valid (xs : list Z) : ∀ t d fuel,
  holds t d → rb_valid d → StronglySorted Z.lt (ditems d) →
  (dsize d + length xs < fuel)%nat →
  ∃ t' d', run fuel t (Ins <$> xs) = Ok t'
           ∧ holds t' d' ∧ rb_valid d'
           ∧ StronglySorted Z.lt (ditems d')
           ∧ (∀ y, y ∈ ditems d' ↔ y ∈ xs ∨ y ∈ ditems d)
           ∧ (dsize d' ≤ dsize d + length xs)%nat.
Proof.
  induction xs as [|x xs IH]; intros t d fuel Hd Hv Hs Hf.
  - exists t, d. split_and!; try done; [|simpl; lia].
    intros y. split; [by right|]. by intros [?%elem_of_nil|].
  - cbn [fmap list_fmap run run_op length] in *.
    destruct (RB_Insert_valid t d x fuel Hd Hv Hs ltac:(lia))
      as (t1 & d1 & -> & Hd1 & Hv1 & Hs1 & Hmem1 & Hsz1).
    cbn [bind].
    destruct (IH t1 d1 fuel Hd1 Hv1 Hs1 ltac:(lia))
      as (t' & d' & Hrun & Hd' & Hv' & Hs' & Hmem' & Hsz').
    exists t', d'. split_and!; try done; [|lia].
    intros y. rewrite Hmem', Hmem1, elem_of_cons. tauto.
Qed.

Lemma holds_empty : holds (@empty_tree Z RBColor) DLeaf.
Proof. done. Qed.

Lemma holds_inorder_items {M} (t : Tree Z M) (d0 : dtree Z M) fuel :
  holds t d0 → (2 * dsize d0 < fuel)%nat → inorder_items fuel t = Ok (ditems d0).
Proof.
  intros Hd Hf. pose proof Hd as (_ & Hl & _).
  rewrite <- (dlinked_items _ _ _ Hl).
  apply inorder_items_represents; [by apply holds_represents|by rewrite erase_size].
Qed.

(** The loop of [InsertFixup] at a child of a red root reads the left
    child of the null grandparent. *)
Lemma RB_InsertFixup_loop_red_root t c zl z kz mz zr fuel :
  holds_in t c (DBr zl z kz mz zr) →
  (∃ p kp sp, c = DCL p kp Red sp DTop ∨ c = DCR sp p kp Red DTop) →
  (0 < fuel)%nat →
  InsertFixup_loop fuel t (Some z) = Fault.
Proof.
  intros Hin (p & kp & sp & Hc) Hf. destruct fuel as [|fuel]; [lia|].
  pose proof Hin as (Hroot & _ & _ & Hnd).
  nodup_at Hnd z (dnodes zl) (dnodes zr ++ dctx_nodes c).
  destruct Hc as [-> | ->]; atomize; cbn [droot dtop] in Hroot;
    cbn [InsertFixup_loop]; rewrite Hroot;
    (rewrite ptr_eqb_ne by congruence); lookups Hin; gets; done.
Qed.
End RBInsertValid.

(** ** The singly linked list *)

Ltac lnorm :=
  cbn [is_null negb bind LinkedList.set_head LinkedList.set_tail LinkedList.set_size
       LinkedList.heap LinkedList.head LinkedList.tail LinkedList.size
       LinkedList.set_next LinkedList.item LinkedList.next app].

Section ListLemmas.
Import LinkedList.
Implicit Types (h : gmap addr Node) (l : List) (cells rest : list (addr * Z)).

Lemma first_or_None cells : first_or cells None = first_ptr cells.
Proof. by destruct cells as [|[a x] ?]. Qed.

Lemma chain_ext h h' cells stop :
  (∀ a, a ∈ cells.*1 → h' !! a = h !! a) → chain h cells stop → chain h' cells stop.
Proof.
  induction cells as [|[a x] cells IH]; intros Hext; [done|]. cbn [chain].
  intros [Ha Hc]. split.
  - rewrite Hext; [done|]. cbn. by left.
  - apply IH; [|done]. intros b Hb. apply Hext. cbn. by right.
Qed.

Lemma chain_app h c1 c2 stop :
  chain h (c1 ++ c2) stop ↔ chain h c1 (first_or c2 stop) ∧ chain h c2 stop.
Proof.
  induction c1 as [|[a x] c1 IH]; cbn [app chain].
  - tauto.
  - rewrite IH.
    assert (first_or (c1 ++ c2) stop = first_or c1 (first_or c2 stop)) as ->
      by (by destruct c1 as [|[? ?] ?]).
    tauto.
Qed.

Lemma chain_lookup h cells stop a x :
  chain h cells stop → (a, x) ∈ cells → ∃ n, h !! a = Some n ∧ item n = x.
Proof.
  induction cells as [|[b y] cells IH]; [by intros _ ?%elem_of_nil|].
  cbn [chain]. intros [Hb Hc] [[= -> ->]|Hin]%elem_of_cons; [by eexists|by apply IH].
Qed.

Lemma chain_dom h cells stop a :
  chain h cells stop → a ∈ cells.*1 → is_Some (h !! a).
Proof.
  intros Hc Ha. apply list_elem_of_fmap in Ha as ([b x] & -> & Hin).
  destruct (chain_lookup _ _ _ _ _ Hc Hin) as (n & Hn & _). by exists n.
Qed.

Lemma chain_fresh h cells stop : chain h cells stop → fresh (dom h) ∉ cells.*1.
Proof.
  intros Hc Hin. destruct (chain_dom _ _ _ _ Hc Hin) as [n Hn].
  apply (is_fresh (dom h)). apply elem_of_dom. by exists n.
Qed.

Lemma last_ptr_snoc cells a x : last_ptr (cells ++ [(a, x)]) = Some a.
Proof. unfold last_ptr. by rewrite rev_app_distr. Qed.

Lemma last_ptr_cons cells c : cells ≠ [] → last_ptr (c :: cells) = last_ptr cells.
Proof.
  intros Hne. destruct (exists_last Hne) as (init & [a x] & ->).
  rewrite app_comm_cons. by rewrite !last_ptr_snoc.
Qed.

Lemma last_ptr_nil_inv cells : last_ptr cells = None → cells = [].
Proof.
  destruct cells as [|c cells]; [done|].
  destruct (@exists_last _ (c :: cells) ltac:(done)) as (init & [a x] & ->).
  by rewrite last_ptr_snoc.
Qed.

Lemma size_t_succ (n : Z) : size_t (size_t n + 1) = size_t (n + 1).
Proof. unfold size_t. by rewrite Zplus_mod_idemp_l. Qed.

Lemma size_t_length_succ {A} (xs : list A) (x : A) :
  size_t (size_t (Z.of_nat (length xs)) + 1) = size_t (Z.of_nat (length (x :: xs))).
Proof. rewrite size_t_succ. f_equal. simpl. lia. Qed.

(** [Insert] puts the new item in front. *)
Lemma List_Insert_holds l cells x :
  holds l cells →
  ∃ l', Insert l x = Ok l' ∧ holds l' ((fresh (dom (heap l)), x) :: cells).
Proof.
  destruct l as [h hd tl sz]. intros (Hhd & Htl & Hc & Hnd & Hsz).
  cbn [heap head tail size] in *.
  pose proof (chain_fresh _ _ _ Hc) as Hz.
  unfold Insert, new_node, put. cbn [heap head tail size]. rewrite lookup_insert_eq.
  cbn [bind set_head set_tail set_size heap head tail size set_next item].
  eexists. split; [reflexivity|].
  assert (Hch : chain (<[fresh (dom h):=mkNode hd x]> (<[fresh (dom h):=mkNode None x]> h))
                  ((fresh (dom h), x) :: cells) None).
  { cbn [chain]. rewrite lookup_insert_eq, first_or_None, Hhd. split; [done|].
    eapply chain_ext; [|exact Hc]. intros a Ha.
    rewrite !lookup_insert_ne; [done|by intros <-..]. }
  assert (Hnd' : NoDup (((fresh (dom h), x) :: cells).*1)) by (by apply NoDup_cons).
  destruct (is_null tl) eqn:Etl; unfold holds;
    cbn [set_head set_tail set_size heap head tail size set_next item];
    (split; [done|]); (split; [|split; [done|split; [done|]]]).
  - destruct tl; [done|]. symmetry in Htl. apply last_ptr_nil_inv in Htl as ->. done.
  - rewrite Hsz. apply size_t_length_succ.
  - rewrite last_ptr_cons; [done|]. intros ->. by rewrite Htl in Etl.
  - rewrite Hsz. apply size_t_length_succ.
Qed.

Lemma size_t_length_snoc {A} (xs : list A) (x : A) :
  size_t (size_t (Z.of_nat (length xs)) + 1) = size_t (Z.of_nat (length (xs ++ [x]))).
Proof. rewrite size_t_succ. f_equal. rewrite length_app. simpl. lia. Qed.

(** [Append] puts the new item at the back. *)
Lemma List_Append_holds l cells x :
  holds l cells →
  ∃ l', Append l x = Ok l' ∧ holds l' (cells ++ [(fresh (dom (heap l)), x)]).
Proof.
  destruct l as [h hd tl sz]. intros (Hhd & Htl & Hc & Hnd & Hsz).
  cbn [heap head tail size] in *.
  pose proof (chain_fresh _ _ _ Hc) as Hz.
  unfold Append, new_node. cbn [heap head tail size].
  set (z := fresh (dom h)) in *.
  assert (Hnd' : NoDup ((cells ++ [(z, x)]).*1)).
  { rewrite fmap_app. apply NoDup_app. split; [done|]. split; [|apply NoDup_singleton].
    intros a Ha [->|?%elem_of_nil]%elem_of_cons; done. }
  destruct cells as [|c cells].
  - cbn in Hhd, Htl. subst hd tl. lnorm. eexists. split; [reflexivity|]. unfold holds.
    lnorm. split; [done|]. split; [done|].
    split; [|split; [done|by rewrite Hsz]].
    cbn [chain first_or]. by rewrite lookup_insert_eq.
  - destruct (@exists_last _ (c :: cells) ltac:(done)) as (init & [a y] & Hinit).
    rewrite Hinit in *. clear Hinit c cells.
    rewrite last_ptr_snoc in Htl. subst tl.
    assert (Hhd' : is_null hd = false) by (rewrite Hhd; by destruct init as [|[? ?] ?]).
    rewrite Hhd'. cbn [is_null negb tail].
    apply chain_app in Hc as [Hi Ha]. cbn [chain first_or] in Ha, Hi.
    destruct Ha as [Ha _].
    assert (Hza : z ≠ a).
    { intros ->. apply Hz. rewrite fmap_app. apply elem_of_app. right. cbn. by left. }
    unfold put. cbn [heap head tail size]. rewrite lookup_insert_ne by done. rewrite Ha.
    lnorm. eexists. split; [reflexivity|]. unfold holds. lnorm.
    split; [by rewrite Hhd; destruct init as [|[? ?] ?]|].
    split; [by rewrite last_ptr_snoc|].
    split; [|split; [done|rewrite Hsz; apply size_t_length_snoc]].
    rewrite fmap_app in Hnd. apply NoDup_app in Hnd as (Hndi & Hdis & _).
    apply chain_app. split; [apply chain_app; split|].
    + cbn [first_or]. eapply chain_ext; [|exact Hi]. intros b Hb.
      rewrite !lookup_insert_ne; [done| |].
      * intros <-. apply Hz. rewrite fmap_app. apply elem_of_app. by left.
      * intros <-. apply (Hdis _ Hb). cbn. by left.
    + cbn [chain first_or]. by rewrite lookup_insert_eq.
    + cbn [chain first_or]. rewrite lookup_insert_ne by done.
      by rewrite lookup_insert_eq.
Qed.

(** The constructor from an initializer list *)
Lemma List_Append_all_holds xs : ∀ l cells,
  holds l cells →
  ∃ l' cells', Append_all l xs = Ok l' ∧ holds l' (cells ++ cells') ∧ cells'.*2 = xs.
Proof.
  induction xs as [|x xs IH]; intros l cells Hl; cbn [Append_all].
  - exists l, []. by rewrite app_nil_r.
  - destruct (List_Append_holds l cells x Hl) as (l1 & -> & H1). cbn [bind].
    destruct (IH l1 _ H1) as (l' & cells' & Hr & H' & Hit).
    exists l', ((fresh (dom (heap l)), x) :: cells'). split; [done|].
    split; [by rewrite <- app_assoc in H'|]. cbn. by rewrite Hit.
Qed.

(** The loop of [Reverse]: [rest] is still to be turned, [done] is
    turned already. *)
Lemma List_Reverse_loop_ok rest : ∀ done h hd tl sz fuel,
  chain h rest None → chain h done None → NoDup ((rest ++ done).*1) →
  (length rest < fuel)%nat →
  ∃ h', Reverse_loop fuel (mkList h hd tl sz) (first_ptr rest) (first_ptr done)
        = Ok (mkList h' hd tl sz)
        ∧ chain h' (rev rest ++ done) None.
Proof.
  induction rest as [|[a x] rest IH]; intros done h hd tl sz fuel Hr Hd Hnd Hf;
    (destruct fuel as [|fuel]; [simpl in Hf; lia|]); cbn [Reverse_loop first_ptr is_null].
  - by exists h.
  - cbn [chain] in Hr. destruct Hr as [Ha Hr]. unfold get, put. lnorm. rewrite Ha. lnorm.
    rewrite first_or_None.
    cbn [fmap list_fmap app fst] in Hnd. apply NoDup_cons in Hnd as [Hnot Hnd].
    rewrite fmap_app in Hnot. apply not_elem_of_app in Hnot as [Hnr Hndone].
    destruct (IH ((a, x) :: done) (<[a:=mkNode (first_ptr done) x]> h) hd tl sz fuel)
      as (h' & Hloop & Hch).
    + eapply chain_ext; [|exact Hr]. intros b Hb.
      rewrite lookup_insert_ne; [done|by intros <-].
    + cbn [chain]. rewrite lookup_insert_eq, first_or_None. split; [done|].
      eapply chain_ext; [|exact Hd]. intros b Hb.
      rewrite lookup_insert_ne; [done|by intros <-].
    + rewrite fmap_app. cbn [fmap list_fmap fst]. rewrite fmap_app in Hnd.
      apply NoDup_app in Hnd as (H1 & H2 & H3).
      apply NoDup_app. split; [done|]. split; [|by apply NoDup_cons].
      intros b Hb [->|Hb']%elem_of_cons; [done|by apply (H2 b)].
    + simpl in Hf. lia.
    + exists h'. split; [exact Hloop|]. cbn [rev]. by rewrite <- app_assoc.
Qed.

Lemma fmap_rev_list {A B} (f : A → B) (xs : list A) : f <$> rev xs = rev (f <$> xs).
Proof.
  induction xs as [|x xs IH]; [done|]. cbn [rev fmap list_fmap].
  rewrite fmap_app. cbn [fmap list_fmap]. by rewrite <- IH.
Qed.

Lemma first_ptr_rev_rev cells : first_ptr cells = last_ptr (rev cells).
Proof. unfold last_ptr. by rewrite rev_involutive. Qed.

(** [Reverse] turns the list around, in place. *)
Lemma List_Reverse_holds l cells fuel :
  holds l cells → (length cells < fuel)%nat →
  ∃ l', Reverse fuel l = Ok l' ∧ holds l' (rev cells).
Proof.
  destruct l as [h hd tl sz]. intros (Hhd & Htl & Hc & Hnd & Hsz) Hf.
  cbn [heap head tail size] in *. unfold Reverse. lnorm. rewrite Hhd.
  destruct (List_Reverse_loop_ok cells [] h (first_ptr cells) tl sz fuel)
    as (h' & Hloop & Hch); [done|done|by rewrite app_nil_r|done|].
  cbn [first_ptr] in Hloop. rewrite Hloop. lnorm.
  eexists. split; [reflexivity|]. unfold holds. lnorm.
  rewrite app_nil_r in Hch. split_and!; try done.
  - apply first_ptr_rev_rev.
  - rewrite fmap_rev_list. by rewrite <- (Permutation_rev (cells.*1)).
  - by rewrite length_rev.
Qed.

(** The iterator along the cells *)
Lemma List_ConstIterator_new_at l rest :
  chain (heap l) rest None → ConstIterator_new l (first_ptr rest) = Ok (iter_at rest).
Proof.
  destruct rest as [|[a x] rest]; [done|]. cbn [chain]. intros [Ha _].
  unfold ConstIterator_new, get. cbn [first_ptr is_null negb]. rewrite Ha. lnorm.
  by rewrite first_or_None.
Qed.

Lemma List_ConstIterator_incr_at l c rest :
  chain (heap l) rest None → ConstIterator_incr l (iter_at (c :: rest)) = Ok (iter_at rest).
Proof.
  intros Hc. unfold ConstIterator_incr, iter_at. cbn [ConstIterator.next drop].
  rewrite drop_0.
  destruct rest as [|[a x] rest]; [done|]. cbn [chain] in Hc. destruct Hc as [Ha _].
  unfold get. cbn [first_ptr is_null negb]. rewrite Ha. lnorm.
  by rewrite first_or_None.
Qed.

Lemma List_neq_end_at rest :
  ConstIterator_neq (iter_at rest) end_ = negb (bool_decide (rest = [])).
Proof.
  destruct rest as [|[a x] rest]; [done|].
  unfold ConstIterator_neq, iter_at, end_. cbn [ConstIterator.current first_ptr].
  by rewrite ptr_eqb_ne.
Qed.

Lemma List_iterate_from_at l rest fuel :
  chain (heap l) rest None → (length rest < fuel)%nat →
  iterate_from fuel l (iter_at rest) = Ok (rest.*2).
Proof.
  revert fuel. induction rest as [|[a x] rest IH]; intros fuel Hc Hf;
    (destruct fuel as [|fuel]; [simpl in Hf; lia|]); cbn [iterate_from];
    rewrite List_neq_end_at; [done|].
  cbn [bool_decide decide_rel negb]. rewrite bool_decide_eq_false_2 by done. cbn [negb].
  cbn [chain] in Hc. destruct Hc as [Ha Hc].
  unfold ConstIterator_deref, get. cbn [iter_at ConstIterator.current first_ptr].
  rewrite Ha. lnorm.
  change (ConstIterator.mk (Some a) (first_ptr (drop 1 ((a, x) :: rest))))
    with (iter_at ((a, x) :: rest)).
  rewrite (List_ConstIterator_incr_at l (a, x) rest Hc). lnorm.
  rewrite IH; [done|done|simpl in Hf; lia].
Qed.

(** The iteration hands out the items from front to back. *)
Lemma List_iterate_holds l cells fuel :
  holds l cells → (length cells < fuel)%nat → iterate fuel l = Ok (cells.*2).
Proof.
  intros (Hhd & _ & Hc & _) Hf. unfold iterate, begin. rewrite Hhd.
  rewrite (List_ConstIterator_new_at l cells Hc). lnorm.
  by apply List_iterate_from_at.
Qed.

(** [Clear] frees the cells one after the other. *)
Lemma List_Clear_loop_ok rest : ∀ h hd tl sz fuel,
  chain h rest None → NoDup (rest.*1) → (length rest < fuel)%nat →
  Clear_loop fuel (mkList h hd tl sz) (iter_at rest)
  = Ok (mkList (free_cells h rest) hd tl sz).
Proof.
  induction rest as [|[a x] rest IH]; intros h hd tl sz fuel Hc Hnd Hf;
    (destruct fuel as [|fuel]; [simpl in Hf; lia|]); cbn [Clear_loop];
    rewrite List_neq_end_at; [done|].
  rewrite bool_decide_eq_false_2 by done. cbn [negb].
  cbn [chain] in Hc. destruct Hc as [Ha Hc].
  cbn [fmap list_fmap fst] in Hnd. apply NoDup_cons in Hnd as [Hnot Hnd].
  unfold delete_node. cbn [iter_at ConstIterator.current first_ptr]. lnorm. rewrite Ha. lnorm.
  change (ConstIterator.mk (Some a) (first_ptr (drop 1 ((a, x) :: rest))))
    with (iter_at ((a, x) :: rest)).
  assert (Hc' : chain (delete a h) rest None).
  { eapply chain_ext; [|exact Hc]. intros b Hb.
    rewrite lookup_delete_ne; [done|by intros <-]. }
  rewrite (List_ConstIterator_incr_at (mkList (delete a h) hd tl sz) (a, x) rest Hc'). lnorm.
  rewrite (IH (delete a h)); [done|done|done|simpl in Hf; lia].
Qed.

Lemma free_cells_notin h cells a :
  a ∉ cells.*1 → free_cells h cells !! a = h !! a.
Proof.
  revert h. induction cells as [|[b x] cells IH]; intros h Ha; [done|].
  cbn [fmap list_fmap fst] in Ha. apply not_elem_of_cons in Ha as [Hab Ha].
  unfold free_cells. cbn [foldl fst]. fold (free_cells (delete b h) cells).
  rewrite IH by done. by rewrite lookup_delete_ne.
Qed.

Lemma free_cells_in h cells a :
  a ∈ cells.*1 → free_cells h cells !! a = None.
Proof.
  revert h. induction cells as [|[b x] cells IH]; intros h Ha; [by apply elem_of_nil in Ha|].
  unfold free_cells. cbn [foldl fst]. fold (free_cells (delete b h) cells).
  destruct (decide (a ∈ cells.*1)) as [Hin|Hnot]; [by apply IH|].
  rewrite free_cells_notin by done.
  cbn [fmap list_fmap fst] in Ha. apply elem_of_cons in Ha as [->|?]; [|done].
  apply lookup_delete_eq.
Qed.

Lemma List_Clear_holds l cells fuel :
  holds l cells → (length cells < fuel)%nat →
  ∃ l', Clear fuel l = Ok l' ∧ holds l' []
        ∧ heap l' = free_cells (heap l) cells.
Proof.
  destruct l as [h hd tl sz]. intros (Hhd & Htl & Hc & Hnd & Hsz) Hf.
  cbn [heap head tail size] in *. unfold Clear, begin. lnorm. rewrite Hhd.
  rewrite (List_ConstIterator_new_at _ cells) by done. lnorm.
  rewrite (List_Clear_loop_ok cells) by done. lnorm.
  eexists. split; [reflexivity|]. split; [|done].
  unfold holds. lnorm. split_and!; try done. constructor.
Qed.

(** One more cell at the end of a chain *)
Lemma chain_snoc_link h init b y z x :
  chain h (init ++ [(b, y)]) None → NoDup ((init ++ [(b, y)]).*1) →
  z ∉ (init ++ [(b, y)]).*1 →
  chain (<[b := mkNode (Some z) y]> (<[z := mkNode None x]> h))
    ((init ++ [(b, y)]) ++ [(z, x)]) None.
Proof.
  intros Hc Hnd Hz. apply chain_app in Hc as [Hi Hb].
  rewrite fmap_app in Hnd, Hz. apply NoDup_app in Hnd as (_ & Hdis & _).
  apply not_elem_of_app in Hz as [Hzi Hzb]. cbn in Hzb.
  apply not_elem_of_cons in Hzb as [Hzb _].
  apply chain_app. split; [apply chain_app; split|].
  - cbn [first_or]. eapply chain_ext; [|exact Hi]. intros a Ha.
    rewrite !lookup_insert_ne; [done|by intros <-|].
    intros <-. apply (Hdis _ Ha). cbn. by left.
  - cbn [chain first_or]. by rewrite lookup_insert_eq.
  - cbn [chain first_or]. rewrite lookup_insert_ne by done. by rewrite lookup_insert_eq.
Qed.

Lemma first_ptr_app_ne cells cells' : cells ≠ [] → first_ptr (cells ++ cells') = first_ptr cells.
Proof. by destruct cells. Qed.

(** The loop of the copy constructor: the cells [rest] of the other
    list are still to be copied, the new list holds [done].  The cells
    it adds were not in use, and no other cell of the store changes. *)
Lemma List_copy_loop_ok rest : ∀ done new fuel,
  chain (heap new) rest None →
  head new = first_ptr done →
  tail new = match rest with [] => last_ptr done | _ => None end →
  chain (heap new) done None → NoDup (done.*1) →
  (∀ a, a ∈ done.*1 → a ∉ rest.*1) →
  (length rest < fuel)%nat →
  ∃ l' cells',
    copy_loop fuel new (first_ptr rest) (last_ptr done) = Ok l'
    ∧ head l' = first_ptr (done ++ cells')
    ∧ tail l' = last_ptr (done ++ cells')
    ∧ chain (heap l') (done ++ cells') None
    ∧ NoDup ((done ++ cells').*1)
    ∧ cells'.*2 = rest.*2
    ∧ size l' = size new
    ∧ (∀ a, a ∈ cells'.*1 → heap new !! a = None)
    ∧ (∀ a, a ∉ done.*1 → a ∉ cells'.*1 → heap l' !! a = heap new !! a).
Proof.
  induction rest as [|[a x] rest IH]; intros done new fuel Hc Hhd Htl Hch Hnd Hdis Hf;
    (destruct fuel as [|fuel]; [simpl in Hf; lia|]); cbn [copy_loop first_ptr is_null].
  - exists new, []. rewrite app_nil_r. split_and!; try done.
    by intros a ?%elem_of_nil.
  - pose proof (chain_fresh _ _ _ Hc) as Hzr.
    pose proof Hc as Hc0. cbn [chain] in Hc. destruct Hc as [Ha Hc].
    unfold get at 1. rewrite Ha. lnorm.
    destruct new as [h hd tl sz]. cbn [heap head tail size] in *.
    pose proof (chain_fresh _ _ _ Hch) as Hz.
    unfold new_node. lnorm. set (z := fresh (dom h)) in *.
    assert (Hzh : h !! z = None).
    { apply not_elem_of_dom. apply is_fresh. }
    assert (Had : a ∉ done.*1).
    { intros Hin. apply (Hdis _ Hin). cbn. by left. }
    assert (∃ h1,
      (if negb (is_null (last_ptr done))
       then put (set_next (Some z))
              (if is_null hd
               then set_head (mkList (<[z:=mkNode None x]> h) hd tl sz) (Some z)
               else mkList (<[z:=mkNode None x]> h) hd tl sz) (last_ptr done)
       else Ok (if is_null hd
                then set_head (mkList (<[z:=mkNode None x]> h) hd tl sz) (Some z)
                else mkList (<[z:=mkNode None x]> h) hd tl sz))
      = Ok (mkList h1 (first_ptr (done ++ [(z, x)])) tl sz)
      ∧ chain h1 (done ++ [(z, x)]) None
      ∧ ∀ e, e ≠ z → e ∉ done.*1 → h1 !! e = h !! e) as (h1 & -> & Hch1 & Hfr1).
    { destruct done as [|c done].
      - cbn in Hhd. subst hd. lnorm. cbn [last_ptr rev first_ptr is_null negb].
        eexists. split; [reflexivity|]. lnorm. cbn [chain first_or].
        split; [by rewrite lookup_insert_eq|].
        intros e He _. by rewrite lookup_insert_ne.
      - destruct (@exists_last _ (c :: done) ltac:(done)) as (init & [b y] & Hinit).
        rewrite Hinit in *. clear Hinit c done.
        rewrite last_ptr_snoc. cbn [is_null negb].
        assert (is_null hd = false) as -> by (rewrite Hhd; by destruct init as [|[? ?] ?]).
        pose proof Hch as Hch0. apply chain_app in Hch0 as [_ [Hb _]].
        cbn [first_or] in Hb.
        assert (Hzb : z ≠ b).
        { intros ->. apply Hz. rewrite fmap_app. apply elem_of_app. right. cbn. by left. }
        unfold put. lnorm. rewrite lookup_insert_ne by done. rewrite Hb. lnorm.
        eexists. split; [|split].
        + f_equal. f_equal. rewrite Hhd. by destruct init as [|[? ?] ?].
        + by apply chain_snoc_link.
        + intros e He Hed. rewrite !lookup_insert_ne; [done|by intros <-|].
          intros <-. apply Hed. rewrite fmap_app. apply elem_of_app. right. cbn. by left. }
    lnorm.
    assert (Hza : a ≠ z).
    { intros ->. apply Hzr. cbn. by left. }
    assert (Hnext : get next (mkList h1 (first_ptr (done ++ [(z, x)])) tl sz) (Some a)
                    = Ok (first_ptr rest)).
    { unfold get. lnorm. rewrite (Hfr1 a Hza Had), Ha. lnorm. by rewrite first_or_None. }
    rewrite Hnext. lnorm.
    assert (Hnd1 : NoDup ((done ++ [(z, x)]).*1)).
    { rewrite fmap_app. apply NoDup_app. split; [done|]. split; [|apply NoDup_singleton].
      intros b Hb [->|?%elem_of_nil]%elem_of_cons; done. }
    assert (Hrd : ∀ e, e ∈ rest.*1 → e ≠ z ∧ e ∉ done.*1).
    { intros e He. split.
      - intros ->. apply Hzr. cbn. by right.
      - intros Hin. apply (Hdis _ Hin). cbn. by right. }
    destruct (IH (done ++ [(z, x)])
                (if is_null (first_ptr rest)
                 then set_tail (mkList h1 (first_ptr (done ++ [(z, x)])) tl sz) (Some z)
                 else mkList h1 (first_ptr (done ++ [(z, x)])) tl sz) fuel)
      as (l' & cells' & Hloop & Hhd' & Htl' & Hch' & Hnd' & Hit & Hsz' & Hnew & Hfr');
      try done.
    + assert (chain h1 rest None).
      { eapply chain_ext; [|exact Hc]. intros e He.
        destruct (Hrd e He). by apply Hfr1. }
      by destruct rest as [|[? ?] ?].
    + by destruct rest as [|[? ?] ?].
    + destruct rest as [|[? ?] ?]; lnorm; [by rewrite last_ptr_snoc|].
      cbn [first_ptr is_null tail]. by rewrite Htl.
    + by destruct rest as [|[? ?] ?].
    + intros e He He'. rewrite fmap_app in He. apply elem_of_app in He as [He|He].
      * apply (Hdis _ He). cbn. by right.
      * cbn in He. apply elem_of_cons in He as [->|?%elem_of_nil]; [|done].
        by destruct (Hrd _ He').
    + simpl in Hf. lia.
    + rewrite last_ptr_snoc in Hloop. rewrite Hloop.
      assert (Hh' : heap (if is_null (first_ptr rest)
                 then set_tail (mkList h1 (first_ptr (done ++ [(z, x)])) tl sz) (Some z)
                 else mkList h1 (first_ptr (done ++ [(z, x)])) tl sz) = h1)
        by (by destruct rest as [|[? ?] ?]).
      rewrite Hh' in Hnew, Hfr'.
      assert (Hcd : ∀ e, e ∈ cells'.*1 → e ≠ z ∧ e ∉ done.*1).
      { intros e He. rewrite fmap_app in Hnd'. apply NoDup_app in Hnd' as (_ & Hd' & _).
        split.
        - intros ->. eapply (Hd' z); [|done]. rewrite fmap_app. apply elem_of_app. right.
          cbn. by left.
        - intros Hin. eapply (Hd' e); [|done]. rewrite fmap_app. apply elem_of_app. by left. }
      exists l', ((z, x) :: cells').
      split_and!.
      * done.
      * by rewrite <- app_assoc in Hhd'.
      * by rewrite <- app_assoc in Htl'.
      * by rewrite <- app_assoc in Hch'.
      * by rewrite <- app_assoc in Hnd'.
      * cbn. by rewrite Hit.
      * rewrite Hsz'. by destruct rest as [|[? ?] ?].
      * intros e [->|He]%elem_of_cons; [done|].
        destruct (Hcd e He) as [? ?]. rewrite <- Hfr1 by done. by apply Hnew.
      * intros e Hed [Hez Hec]%not_elem_of_cons.
        rewrite Hfr'; [by apply Hfr1|by (rewrite fmap_app; apply not_elem_of_app;
          split; [done|]; cbn; apply not_elem_of_cons; split; [done|apply not_elem_of_nil])
          |done].
Qed.

(** The copy constructor builds a list of new cells with the same
    items, and leaves every cell of the store as it was. *)
Lemma List_copy_holds other cells fuel :
  holds other cells → (length cells < fuel)%nat →
  ∃ l' cells', copy fuel other = Ok l' ∧ holds l' cells' ∧ cells'.*2 = cells.*2
               ∧ (∀ a, a ∈ cells'.*1 → heap other !! a = None)
               ∧ (∀ a, a ∉ cells'.*1 → heap l' !! a = heap other !! a).
Proof.
  intros (Hhd & Htl & Hc & Hnd & Hsz) Hf. unfold copy. rewrite Hhd.
  destruct (List_copy_loop_ok cells [] (mkList (heap other) None None (size other)) fuel)
    as (l' & cells' & Hloop & Hhd' & Htl' & Hch' & Hnd' & Hit & Hsz' & Hnew & Hfr);
    try done.
  { by destruct cells. } { constructor. } { by intros a ?%elem_of_nil. }
  cbn [last_ptr rev first_ptr app heap] in *.
  exists l', cells'. split; [done|]. split; [|split; [done|]].
  - unfold holds. split_and!; try done. lnorm. rewrite Hsz', Hsz.
    f_equal. f_equal. rewrite <- (length_fmap snd cells'), Hit. by rewrite length_fmap.
  - split; [done|]. intros a Ha. apply Hfr; [apply not_elem_of_nil|done].
Qed.

(** The loop of [IsValid] counts the cells. *)
Lemma List_IsValid_loop_ok l rest : ∀ (cnt : Z) fuel,
  chain (heap l) rest None → (rest ≠ [] → tail l = last_ptr rest) →
  (length rest < fuel)%nat →
  IsValid_loop fuel l (first_ptr rest) (size_t cnt)
  = Ok (Some (size_t (cnt + Z.of_nat (length rest)))).
Proof.
  induction rest as [|[a x] rest IH]; intros cnt fuel Hc Htl Hf;
    (destruct fuel as [|fuel]; [simpl in Hf; lia|]); cbn [IsValid_loop first_ptr is_null].
  - cbn [length]. do 3 f_equal. lia.
  - cbn [chain] in Hc. destruct Hc as [Ha Hc]. unfold get. rewrite Ha. lnorm.
    rewrite first_or_None, size_t_succ.
    assert (is_null (first_ptr rest) && negb (ptr_eqb (tail l) (Some a)) = false) as ->.
    { destruct rest as [|[b y] rest]; [|done].
      rewrite Htl by done. cbn. by rewrite ptr_eqb_refl. }
    rewrite IH; [| done | | simpl in Hf; lia].
    + do 3 f_equal. cbn [length]. lia.
    + intros Hne. rewrite Htl by done. by apply last_ptr_cons.
Qed.

(** A well-formed list passes [IsValid]. *)
Lemma List_IsValid_holds l cells fuel :
  holds l cells → (length cells < fuel)%nat → IsValid fuel l = Ok true.
Proof.
  intros (Hhd & Htl & Hc & Hnd & Hsz) Hf. unfold IsValid, Size.
  assert (negb (is_null (head l)) && is_null (tail l) = false) as ->.
  { rewrite Hhd, Htl. destruct cells as [|[a x] cells]; [done|].
    destruct (last_ptr ((a, x) :: cells)) eqn:E; [done|].
    by apply last_ptr_nil_inv in E. }
  assert (is_null (head l) && negb (is_null (tail l)) = false) as ->.
  { rewrite Hhd, Htl. by destruct cells as [|[a x] cells]. }
  rewrite Hhd. change 0 with (size_t 0).
  rewrite (List_IsValid_loop_ok l cells 0 fuel) by done. lnorm.
  rewrite Hsz. cbn [Z.add]. by rewrite Z.eqb_refl.
Qed.

(** The loop of [SequencesMatch] on two lists of the same length *)
Lemma List_SequencesMatch_loop_ok lhs rhs r1 : ∀ r2 fuel,
  chain (heap lhs) r1 None → chain (heap rhs) r2 None →
  length r1 = length r2 → (length r1 < fuel)%nat →
  SequencesMatch_loop fuel lhs rhs (iter_at r1) (iter_at r2)
  = Ok (bool_decide (r1.*2 = r2.*2)).
Proof.
  induction r1 as [|[a x] r1 IH]; intros r2 fuel H1 H2 Hlen Hf;
    (destruct fuel as [|fuel]; [simpl in Hf; lia|]); cbn [SequencesMatch_loop];
    rewrite !List_neq_end_at.
  - destruct r2; [done|discriminate Hlen].
  - destruct r2 as [|[b y] r2]; [discriminate Hlen|].
    rewrite !bool_decide_eq_false_2 by done. cbn [negb andb].
    cbn [chain] in H1, H2. destruct H1 as [Ha H1], H2 as [Hb H2].
    unfold ConstIterator_deref, get. cbn [iter_at ConstIterator.current first_ptr].
    rewrite Ha, Hb. lnorm.
    change (ConstIterator.mk (Some a) (first_ptr (drop 1 ((a, x) :: r1))))
      with (iter_at ((a, x) :: r1)).
    change (ConstIterator.mk (Some b) (first_ptr (drop 1 ((b, y) :: r2))))
      with (iter_at ((b, y) :: r2)).
    destruct (Z.eqb_spec x y) as [->|Hne]; cbn [negb].
    + rewrite (List_ConstIterator_incr_at lhs (a, y) r1 H1).
      rewrite (List_ConstIterator_incr_at rhs (b, y) r2 H2). lnorm.
      rewrite (IH r2 fuel H1 H2) by (simpl in *; lia).
      f_equal. apply bool_decide_ext. cbn [fmap list_fmap snd].
      split; [by intros ->|by intros [= ?]].
    + f_equal. symmetry. apply bool_decide_eq_false_2. cbn [fmap list_fmap snd].
      by intros [= ? ?].
Qed.

Lemma size_t_small (n : Z) : 0 ≤ n < 2 ^ 64 → size_t n = n.
Proof. intros H. unfold size_t. by apply Z.mod_small. Qed.

(** [SequencesMatch] decides whether two lists hold the same items. *)
Lemma List_SequencesMatch_holds lhs rhs c1 c2 fuel :
  holds lhs c1 → holds rhs c2 →
  Z.of_nat (length c1) < 2 ^ 64 → Z.of_nat (length c2) < 2 ^ 64 →
  (length c1 < fuel)%nat →
  SequencesMatch fuel lhs rhs = Ok (bool_decide (c1.*2 = c2.*2)).
Proof.
  intros (Hhd1 & _ & Hc1 & _ & Hsz1) (Hhd2 & _ & Hc2 & _ & Hsz2) Hb1 Hb2 Hf.
  unfold SequencesMatch, Size, begin.
  rewrite Hsz1, Hsz2, !size_t_small by lia.
  destruct (Z.eqb_spec (Z.of_nat (length c1)) (Z.of_nat (length c2))) as [Heq|Hne];
    cbn [negb].
  - rewrite Hhd1, Hhd2.
    rewrite (List_ConstIterator_new_at lhs c1 Hc1), (List_ConstIterator_new_at rhs c2 Hc2).
    lnorm. apply List_SequencesMatch_loop_ok; [done|done|lia|done].
  - f_equal. symmetry. apply bool_decide_eq_false_2. intros Heq. apply Hne.
    by rewrite <- (length_fmap snd c1), Heq, length_fmap.
Qed.

Lemma holds_empty_list : holds empty [].
Proof. unfold holds. cbn. split_and!; try done. constructor. Qed.
End ListLemmas.

(** ** The rotations of the AVL tree *)

Section AVLRotations.
Implicit Types (h : gmap addr (Node Z Z)) (d : dtree Z Z).

Ltac elem_solve :=
  cbn [dnodes] in *;
  repeat (progress (rewrite ?elem_of_app, ?elem_of_cons, ?not_elem_of_app,
                      ?not_elem_of_cons in * ));
  intuition congruence.

Ltac frame_other :=
  let e := fresh "e" in let He := fresh "He" in
  intros e He; atomize; cbn [heap];
  repeat (rewrite lookup_insert_ne; [|congruence]); reflexivity.

Lemma AVL_RightRotate_sub h rt p a q kq mq b x kx mx d :
  dlinked h p (DBr (DBr a q kq mq b) x kx mx d) →
  NoDup (dnodes (DBr (DBr a q kq mq b) x kx mx d)) →
  ∃ h', AVLTree.RightRotate (mkTree h rt) (Some x) = Ok (mkTree h' rt, Some q)
        ∧ dlinked h' p
            (DBr a q kq (mq + 1 + Z.max (mx + 1 - Z.min mq 0) 0)
               (DBr b x kx (mx + 1 - Z.min mq 0) d))
        ∧ ∀ e, e ∉ dnodes (DBr (DBr a q kq mq b) x kx mx d) → h' !! e = h !! e.
Proof.
  intros (Hx & (Hq & Ha & Hb) & Hd) Hnd. cbn [dnodes] in Hnd.
  unfold AVLTree.RightRotate.
  pose proof Hnd as Hnd0.
  nodup_at Hnd q (dnodes a) (dnodes b ++ x :: dnodes d).
  nodup_at Hnd x (dnodes a ++ q :: dnodes b) (dnodes d).
  (destruct b as [|bl b0 kb mb br];
   [|nodup_at Hnd b0 (dnodes a ++ q :: dnodes bl) (dnodes br ++ x :: dnodes d)]);
    atomize; cbn [dlinked dtop] in *; destruct_and?;
    run_steps;
    (eexists; split; [reflexivity|]);
    (split; [repeat split; frame_solve|frame_other]).
Qed.

Lemma AVL_LeftRotate_sub h rt p a x kx mx b q kq mq d :
  dlinked h p (DBr a x kx mx (DBr b q kq mq d)) →
  NoDup (dnodes (DBr a x kx mx (DBr b q kq mq d))) →
  ∃ h', AVLTree.LeftRotate (mkTree h rt) (Some x) = Ok (mkTree h' rt, Some q)
        ∧ dlinked h' p
            (DBr (DBr a x kx (mx - 1 - Z.max mq 0) b) q kq
               (mq - 1 + Z.min (mx - 1 - Z.max mq 0) 0) d)
        ∧ ∀ e, e ∉ dnodes (DBr a x kx mx (DBr b q kq mq d)) → h' !! e = h !! e.
Proof.
  intros (Hx & Ha & (Hq & Hb & Hd)) Hnd. cbn [dnodes] in Hnd.
  unfold AVLTree.LeftRotate.
  pose proof Hnd as Hnd0.
  nodup_at Hnd x (dnodes a) (dnodes b ++ q :: dnodes d).
  nodup_at Hnd q (dnodes a ++ x :: dnodes b) (dnodes d).
  (destruct b as [|bl b0 kb mb br];
   [|nodup_at Hnd b0 (dnodes a ++ x :: dnodes bl) (dnodes br ++ q :: dnodes d)]);
    atomize; cbn [dlinked dtop] in *; destruct_and?;
    run_steps;
    (eexists; split; [reflexivity|]);
    (split; [repeat split; frame_solve|frame_other]).
Qed.

Lemma dlinked_Br_intro {K M} (h0 : gmap addr (Node K M)) p (l r : dtree K M) a k m :
  h0 !! a = Some (mkNode k m (dtop l) (dtop r) p) →
  dlinked h0 (Some a) l → dlinked h0 (Some a) r → dlinked h0 p (DBr l a k m r).
Proof. by intros; split. Qed.

Lemma AVL_DoubleRightRotate_sub h rt p a q kq mq bl r kr mr br x kx mx d :
  dlinked h p (DBr (DBr a q kq mq (DBr bl r kr mr br)) x kx mx d) →
  NoDup (dnodes (DBr (DBr a q kq mq (DBr bl r kr mr br)) x kx mx d)) →
  let mq1 := mq - 1 - Z.max mr 0 in
  let mr1 := mr - 1 + Z.min mq1 0 in
  let mx2 := mx + 1 - Z.min mr1 0 in
  let mr2 := mr1 + 1 + Z.max mx2 0 in
  ∃ h', AVLTree.DoubleRightRotate (mkTree h rt) (Some x) = Ok (mkTree h' rt, Some r)
        ∧ dlinked h' p (DBr (DBr a q kq mq1 bl) r kr mr2 (DBr br x kx mx2 d))
        ∧ ∀ e, e ∉ dnodes (DBr (DBr a q kq mq (DBr bl r kr mr br)) x kx mx d) →
               h' !! e = h !! e.
Proof.
  intros Hl Hnd mq1 mr1 mx2 mr2. pose proof Hl as (Hx & HL & Hd).
  cbn [dtop] in Hx. unfold AVLTree.DoubleRightRotate.
  get_step.
  assert (HndL : NoDup (dnodes (DBr a q kq mq (DBr bl r kr mr br)))).
  { cbn [dnodes] in Hnd |- *. by apply NoDup_app in Hnd as (? & _). }
  destruct (AVL_LeftRotate_sub h rt (Some x) a q kq mq bl r kr mr br HL HndL)
    as (h1 & -> & HL1 & Hf1).
  heap_norm. fold mq1 mr1 in HL1.
  pose proof Hnd as Hnd0. cbn [dnodes] in Hnd.
  nodup_at Hnd x (dnodes a ++ q :: dnodes bl ++ r :: dnodes br) (dnodes d).
  assert (Hx1 : h1 !! x = Some (mkNode kx mx (Some q) (dtop d) p)).
  { rewrite Hf1; [done|]. cbn [dnodes]. list_norm. by atomize. }
  put_step. unfold set_left. cbn [item meta left right parent].
  set (h2 := <[x:=mkNode kx mx (Some r) (dtop d) p]> h1).
  assert (Hl2 : dlinked h2 p (DBr (DBr (DBr a q kq mq1 bl) r kr mr1 br) x kx mx d)).
  { apply dlinked_Br_intro; [by unfold h2; rewrite lookup_insert_eq| |].
    - eapply dlinked_ext; [|exact HL1]. intros e He. unfold h2.
      rewrite lookup_insert_ne; [done|]. intros <-. elem_solve.
    - eapply dlinked_ext; [|exact Hd]. intros e He. unfold h2.
      rewrite lookup_insert_ne; [|by intros <-]. apply Hf1.
      intros Hin.
      assert (N2 : NoDup (dnodes (DBr a q kq mq (DBr bl r kr mr br)) ++ x :: dnodes d))
        by (cbn [dnodes]; nodup_solve Hnd).
      apply NoDup_app in N2 as (_ & Hdis & _). apply (Hdis e Hin). by right. }
  destruct (AVL_RightRotate_sub h2 rt p (DBr a q kq mq1 bl) r kr mr1 br x kx mx d Hl2)
    as (h3 & -> & Hl3 & Hf3).
  { cbn [dnodes] in *. nodup_solve Hnd. }
  exists h3. split; [done|]. split; [exact Hl3|].
  intros e He. rewrite Hf3.
  - unfold h2. rewrite lookup_insert_ne.
    + apply Hf1. clear -He. elem_solve.
    + intros <-. clear -He. elem_solve.
  - clear -He. elem_solve.
Qed.

Lemma AVL_DoubleLeftRotate_sub h rt p a x kx mx bl r kr mr br q kq mq d :
  dlinked h p (DBr a x kx mx (DBr (DBr bl r kr mr br) q kq mq d)) →
  NoDup (dnodes (DBr a x kx mx (DBr (DBr bl r kr mr br) q kq mq d))) →
  let mq1 := mq + 1 - Z.min mr 0 in
  let mr1 := mr + 1 + Z.max mq1 0 in
  let mx2 := mx - 1 - Z.max mr1 0 in
  let mr2 := mr1 - 1 + Z.min mx2 0 in
  ∃ h', AVLTree.DoubleLeftRotate (mkTree h rt) (Some x) = Ok (mkTree h' rt, Some r)
        ∧ dlinked h' p (DBr (DBr a x kx mx2 bl) r kr mr2 (DBr br q kq mq1 d))
        ∧ ∀ e, e ∉ dnodes (DBr a x kx mx (DBr (DBr bl r kr mr br) q kq mq d)) →
               h' !! e = h !! e.
Proof.
  intros Hl Hnd mq1 mr1 mx2 mr2. pose proof Hl as (Hx & Ha & HR).
  cbn [dtop] in Hx. unfold AVLTree.DoubleLeftRotate.
  get_step.
  assert (HndR : NoDup (dnodes (DBr (DBr bl r kr mr br) q kq mq d))).
  { cbn [dnodes] in Hnd |- *. apply NoDup_app in Hnd as (_ & _ & Hnd).
    by apply NoDup_cons in Hnd as [_ ?]. }
  destruct (AVL_RightRotate_sub h rt (Some x) bl r kr mr br q kq mq d HR HndR)
    as (h1 & -> & HR1 & Hf1).
  heap_norm. fold mq1 mr1 in HR1.
  pose proof Hnd as Hnd0. cbn [dnodes] in Hnd.
  nodup_at Hnd x (dnodes a) ((dnodes bl ++ r :: dnodes br) ++ q :: dnodes d).
  assert (Hx1 : h1 !! x = Some (mkNode kx mx (dtop a) (Some q) p)).
  { rewrite Hf1; [done|]. clear Hf1 Hnd0 HndR HR1 HR Ha Hl. elem_solve. }
  put_step. unfold set_right. cbn [item meta left right parent].
  set (h2 := <[x:=mkNode kx mx (dtop a) (Some r) p]> h1).
  assert (Hl2 : dlinked h2 p (DBr a x kx mx (DBr bl r kr mr1 (DBr br q kq mq1 d)))).
  { apply dlinked_Br_intro; [by unfold h2; rewrite lookup_insert_eq| |].
    - eapply dlinked_ext; [|exact Ha]. intros e He. unfold h2.
      rewrite lookup_insert_ne; [|by intros <-]. apply Hf1.
      intros Hin.
      assert (N2 : NoDup (dnodes a ++ x :: dnodes (DBr (DBr bl r kr mr br) q kq mq d)))
        by (cbn [dnodes]; nodup_solve Hnd).
      apply NoDup_app in N2 as (_ & Hdis & _). apply (Hdis e He). by right.
    - eapply dlinked_ext; [|exact HR1]. intros e He. unfold h2.
      rewrite lookup_insert_ne; [done|]. intros <-.
      clear Hf1 Hnd0 HndR HR1 HR Ha Hl Hx Hx1 Hnd. elem_solve. }
  destruct (AVL_LeftRotate_sub h2 rt p a x kx mx bl r kr mr1 (DBr br q kq mq1 d) Hl2)
    as (h3 & -> & Hl3 & Hf3).
  { cbn [dnodes] in *. nodup_solve Hnd. }
  exists h3. split; [done|]. split; [exact Hl3|].
  intros e He. rewrite Hf3.
  - unfold h2. rewrite lookup_insert_ne.
    + apply Hf1. clear -He. elem_solve.
    + intros <-. clear -He. elem_solve.
  - clear -He. elem_solve.
Qed.

(** The arithmetic of the balance factors *)
Lemma bf_exact_Br d : ∀ l a k m r,
  d = DBr l a k m r →
  bf_exact d = true ↔ m = dheight r - dheight l ∧ bf_exact l = true ∧ bf_exact r = true.
Proof.
  intros l a k m r ->. cbn [bf_exact]. rewrite !andb_true_iff, Z.eqb_eq. tauto.
Qed.

Lemma bf_small_Br d : ∀ l a k m r,
  d = DBr l a k m r →
  bf_small d = true ↔ -1 ≤ m ≤ 1 ∧ bf_small l = true ∧ bf_small r = true.
Proof.
  intros l a k m r ->. cbn [bf_small]. rewrite !andb_true_iff, !Z.leb_le. tauto.
Qed.

Lemma dheight_nonneg {K M} (d : dtree K M) : 0 ≤ dheight d.
Proof. induction d; simpl; lia. Qed.

Lemma dheight_pos_inv {K M} (d : dtree K M) :
  0 < dheight d → ∃ l a k m r, d = DBr l a k m r.
Proof. destruct d as [|l a k m r]; [simpl; lia|]. intros _. by exists l, a, k, m, r. Qed.

Ltac bf_unfold :=
  repeat match goal with
  | H : bf_exact (DBr _ _ _ _ _) = true |- _ =>
      apply (proj1 (bf_exact_Br _ _ _ _ _ _ eq_refl)) in H; destruct H as (? & ? & ?)
  | H : bf_small (DBr _ _ _ _ _) = true |- _ =>
      apply (proj1 (bf_small_Br _ _ _ _ _ _ eq_refl)) in H; destruct H as (? & ? & ?)
  | |- bf_exact (DBr _ _ _ _ _) = true =>
      apply (proj2 (bf_exact_Br _ _ _ _ _ _ eq_refl)); split; [|split]
  | |- bf_small (DBr _ _ _ _ _) = true =>
      apply (proj2 (bf_small_Br _ _ _ _ _ _ eq_refl)); split; [|split]
  end.

Lemma AVL_RightRotate_exact a q kq mq b x kx mx d :
  bf_exact (DBr (DBr a q kq mq b) x kx mx d) = true →
  bf_exact (DBr a q kq (mq + 1 + Z.max (mx + 1 - Z.min mq 0) 0)
              (DBr b x kx (mx + 1 - Z.min mq 0) d)) = true.
Proof. intros H. bf_unfold; try done; cbn [dheight] in *; lia. Qed.

Lemma AVL_LeftRotate_exact a x kx mx b q kq mq d :
  bf_exact (DBr a x kx mx (DBr b q kq mq d)) = true →
  bf_exact (DBr (DBr a x kx (mx - 1 - Z.max mq 0) b) q kq
              (mq - 1 + Z.min (mx - 1 - Z.max mq 0) 0) d) = true.
Proof. intros H. bf_unfold; try done; cbn [dheight] in *; lia. Qed.

Lemma bf_small_root_inv d : bf_small d = true →
  match d with DLeaf => True | DBr _ _ _ m _ => -1 ≤ m ≤ 1 end.
Proof. destruct d; [done|]. intros H. by bf_unfold. Qed.

(** [Balance] at a node whose balance factor is -2 or 2, the balance
    factors of its subtree being exact and those below it -1, 0 or 1 *)
Lemma AVL_Balance_sub h rt p l x kx mx r :
  dlinked h p (DBr l x kx mx r) → NoDup (dnodes (DBr l x kx mx r)) →
  bf_exact (DBr l x kx mx r) = true → bf_small l = true → bf_small r = true →
  mx = -2 ∨ mx = 2 →
  ∃ h' S' q,
    AVLTree.Balance (mkTree h rt) (Some x) = Ok (mkTree h' rt, Some q)
    ∧ dtop S' = Some q
    ∧ dlinked h' p S'
    ∧ bf_exact S' = true ∧ bf_small S' = true
    ∧ dnodes S' = dnodes (DBr l x kx mx r)
    ∧ ditems S' = ditems (DBr l x kx mx r)
    ∧ (dheight S' = dheight (DBr l x kx mx r) - 1 ∨ dheight S' = dheight (DBr l x kx mx r))
    ∧ ∀ e, e ∉ dnodes (DBr l x kx mx r) → h' !! e = h !! e.
Proof.
  intros Hl Hnd He Hsl Hsr Hmx. pose proof Hl as (Hx & _ & _).
  unfold AVLTree.Balance. get_step.
  pose proof He as He0. bf_unfold.
  pose proof (dheight_nonneg l). pose proof (dheight_nonneg r).
  destruct Hmx as [-> | ->]; cbn [Z.eqb Pos.eqb].
  - (* left heavy *)
    destruct (dheight_pos_inv l ltac:(lia)) as (a & q & kq & mq & b & ->).
    pose proof Hl as (_ & (Hq & _ & _) & _). cbn [dtop]. get_step. get_step.
    pose proof (bf_small_root_inv _ Hsl) as Hmq. cbn beta iota in Hmq.
    bf_unfold. pose proof (dheight_nonneg a). pose proof (dheight_nonneg b).
    destruct (Z.eqb_spec mq 1) as [->|Hne].
    + destruct (dheight_pos_inv b ltac:(lia)) as (bl & r0 & kr & mr & br & ->).
      pose proof (AVL_DoubleRightRotate_sub h rt p a q kq 1 bl r0 kr mr br x kx (-2) r Hl Hnd)
        as Hrot. cbv zeta in Hrot. destruct Hrot as (h' & -> & Hl' & Hf).
      match type of Hl' with dlinked _ _ ?S => exists h', S, r0 end.
      bf_unfold. pose proof (dheight_nonneg bl). pose proof (dheight_nonneg br).
      split_and!; try done.
      * bf_unfold; try done; cbn [dheight] in *; lia.
      * bf_unfold; try done; cbn [dheight] in *; lia.
      * cbn [dnodes]. list_norm. reflexivity.
      * cbn [ditems]. list_norm. reflexivity.
      * cbn [dheight] in *. lia.
    + pose proof (AVL_RightRotate_sub h rt p a q kq mq b x kx (-2) r Hl Hnd)
        as (h' & -> & Hl' & Hf).
      match type of Hl' with dlinked _ _ ?S => exists h', S, q end.
      split_and!; try done.
      * bf_unfold; try done; cbn [dheight] in *; lia.
      * bf_unfold; try done; cbn [dheight] in *; lia.
      * cbn [dnodes]. list_norm. reflexivity.
      * cbn [ditems]. list_norm. reflexivity.
      * cbn [dheight] in *. lia.
  - (* right heavy *)
    destruct (dheight_pos_inv r ltac:(lia)) as (b & q & kq & mq & d & ->).
    pose proof Hl as (_ & _ & (Hq & _ & _)). cbn [dtop]. get_step. get_step.
    pose proof (bf_small_root_inv _ Hsr) as Hmq. cbn beta iota in Hmq.
    bf_unfold. pose proof (dheight_nonneg b). pose proof (dheight_nonneg d).
    destruct (Z.eqb_spec mq (-1)) as [->|Hne].
    + destruct (dheight_pos_inv b ltac:(lia)) as (bl & r0 & kr & mr & br & ->).
      pose proof (AVL_DoubleLeftRotate_sub h rt p l x kx 2 bl r0 kr mr br q kq (-1) d Hl Hnd)
        as Hrot. cbv zeta in Hrot. destruct Hrot as (h' & -> & Hl' & Hf).
      match type of Hl' with dlinked _ _ ?S => exists h', S, r0 end.
      bf_unfold. pose proof (dheight_nonneg bl). pose proof (dheight_nonneg br).
      split_and!; try done.
      * bf_unfold; try done; cbn [dheight] in *; lia.
      * bf_unfold; try done; cbn [dheight] in *; lia.
      * cbn [dnodes]. list_norm. reflexivity.
      * cbn [ditems]. list_norm. reflexivity.
      * cbn [dheight] in *. lia.
    + pose proof (AVL_LeftRotate_sub h rt p l x kx 2 b q kq mq d Hl Hnd)
        as (h' & -> & Hl' & Hf).
      match type of Hl' with dlinked _ _ ?S => exists h', S, q end.
      split_and!; try done.
      * bf_unfold; try done; cbn [dheight] in *; lia.
      * bf_unfold; try done; cbn [dheight] in *; lia.
      * cbn [dnodes]. list_norm. reflexivity.
      * cbn [ditems]. list_norm. reflexivity.
      * cbn [dheight] in *. lia.
Qed.
End AVLRotations.

(** ** [Remove] of the red-black tree, at a node with at most one child *)

Section RBRemoveSimple.
Import RBTree.
Implicit Types (t : T) (d : dtree Z RBColor) (c : dctx Z RBColor).

Lemma path_ok_sorted x c : ∀ d,
  StronglySorted Z.lt (ditems (dplug c d)) → x ∈ ditems d → path_ok x c.
Proof.
  induction c as [|a k m r c IH|l a k m c IH]; intros d Hs Hx; cbn [path_ok dplug] in *;
    [done| |].
  - split.
    + rewrite ditems_dplug in Hs. cbn [ditems] in Hs.
      apply sorted_mid in Hs as [Hl _]. by eapply Forall_forall in Hl.
    + apply (IH _ Hs). cbn [ditems]. apply elem_of_app. by left.
  - split.
    + rewrite ditems_dplug in Hs. cbn [ditems] in Hs.
      apply sorted_mid in Hs as [_ Hr]. by eapply Forall_forall in Hr.
    + apply (IH _ Hs). cbn [ditems]. apply elem_of_app. right. by right.
Qed.

Lemma RB_Remove_find_path t x c : ∀ d f,
  holds_in t c d → path_ok x c →
  Remove_find (ddepth c + f) t x (droot c (dtop d)) = Remove_find f t x (dtop d).
Proof.
  induction c as [|a k m r c IH|l a k m c IH]; intros d f Hin Hp;
    cbn [ddepth droot path_ok] in *; [done| |]; destruct Hp as [Hk Hp].
  - apply focus_up_L in Hin.
    replace (S (ddepth c) + f)%nat with (ddepth c + S f)%nat by lia.
    change (Some a) with (dtop (DBr d a k m r)). rewrite (IH _ _ Hin Hp).
    cbn [Remove_find dtop is_null]. lookups Hin. get_step.
    destruct (Z.eqb_spec k x); [lia|]. destruct (Z.ltb_spec x k); [|lia].
    by get_step.
  - apply focus_up_R in Hin.
    replace (S (ddepth c) + f)%nat with (ddepth c + S f)%nat by lia.
    change (Some a) with (dtop (DBr l a k m d)). rewrite (IH _ _ Hin Hp).
    cbn [Remove_find dtop is_null]. lookups Hin. get_step.
    destruct (Z.eqb_spec k x); [lia|]. destruct (Z.ltb_spec x k); [lia|].
    by get_step.
Qed.

(** The descent of [Remove] stops at the node that holds [x]. *)
Lemma RB_Remove_find_node t c l a x m r fuel :
  holds t (dplug c (DBr l a x m r)) →
  StronglySorted Z.lt (ditems (dplug c (DBr l a x m r))) →
  (ddepth c < fuel)%nat →
  Remove_find fuel t x (root t) = Ok (Some a).
Proof.
  intros Hd Hs Hf. pose proof Hd as (-> & _). apply holds_dplug in Hd.
  rewrite dtop_dplug.
  replace fuel with (ddepth c + (fuel - ddepth c))%nat by lia.
  rewrite (RB_Remove_find_path t x c _ _ Hd).
  - destruct (fuel - ddepth c)%nat as [|f] eqn:E; [lia|].
    cbn [Remove_find dtop is_null]. lookups Hd. get_step. by rewrite Z.eqb_refl.
  - eapply path_ok_sorted; [exact Hs|]. cbn [ditems]. apply elem_of_app. right. by left.
Qed.

Ltac frame_del :=
  repeat (first [rewrite lookup_insert_ne | rewrite lookup_delete_ne];
          [|intros ->; contradiction]);
  reflexivity.

Ltac frame_solve_del :=
  match goal with
  | |- dlinked _ _ DLeaf => exact I
  | H : dlinked _ ?p ?d |- dlinked _ ?p ?d =>
      eapply dlinked_ext; [|exact H];
      let e := fresh "e" in let He := fresh "He" in
      intros e He; cbn [heap]; frame_del
  | H : dctx_linked _ ?c ?p |- dctx_linked _ ?c ?p =>
      eapply dctx_linked_ext; [|exact H];
      let e := fresh "e" in let He := fresh "He" in
      intros e He; cbn [heap]; frame_del
  | |- _ !! _ = Some _ =>
      heap_norm;
      repeat first [rewrite lookup_insert_eq | rewrite lookup_insert_ne by congruence
                   | rewrite lookup_delete_ne by congruence];
      first [reflexivity | eassumption]
  | |- True => exact I
  end.

Ltac steps :=
  repeat first
    [ progress heap_norm
    | progress cbn [andb orb negb is_null color_eqb fst snd]
    | eqb_step
    | rewrite ptr_eqb_ne by (apply not_eq_sym, dtop_ne; assumption)
    | get_step | put_step ].

Lemma delete_node_live (t : T) a n :
  heap t !! a = Some n → delete_node t (Some a) = Ok (mkTree (delete a (heap t)) (root t)).
Proof. intros H. unfold delete_node. by rewrite H. Qed.

Ltac remove_done :=
  erewrite delete_node_live by frame_solve_del; heap_norm;
  eexists; split; [reflexivity|]; split; [|apply lookup_delete_eq];
  unfold holds_in; heap_norm;
  cbn [spliced only_child blacken dlinked dctx_linked dnodes dctx_nodes droot
       dtop dhole_parent app];
  split_and!; try done; try frame_solve_del.

Ltac remove_nodup H :=
  cbn [app dnodes dctx_nodes] in H; cbn [app dnodes dctx_nodes];
  by apply NoDup_cons in H as [_ ?].

Ltac remove_nodup_l H a pre post :=
  let N := fresh "N" in
  assert (N : NoDup (pre ++ a :: post)) by nodup_solve H;
  rewrite <- Permutation_middle in N; apply NoDup_cons in N as [_ N];
  cbn [dnodes dctx_nodes app]; nodup_solve N.

Lemma RB_Remove_at t c l a x m r fuel :
  holds_in t c (DBr l a x m r) →
  Remove_find fuel t x (root t) = Ok (Some a) →
  l = DLeaf ∨ r = DLeaf →
  only_child l r = DLeaf ∨ c = DTop ∨ m = Red ∨ is_red_root (only_child l r) = true →
  (0 < fuel)%nat →
  ∃ t', Remove fuel t x = Ok t' ∧ holds_in t' c (spliced m l r) ∧ heap t' !! a = None.
Proof.
  destruct t as [h rt]. intros Hin Hfind Hone Hfix Hf.
  unfold Remove. rewrite Hfind. cbn [bind is_null].
  destruct fuel as [|fuel]; [lia|].
  pose proof Hin as (Hroot & _ & _ & Hnd). cbn [root heap dtop] in *.
  pose proof Hnd as Hnd0.
  nodup_at Hnd a (dnodes l) (dnodes r ++ dctx_nodes c).
  unfold Remove_unlink, Remove_one_child, Remove_needs_fixup, RemoveFixup.
  destruct l as [|ll b kb mb lr]; [destruct r as [|rl b kb mb rr]|].
  - (* no child *)
    destruct c as [|p kp mp sp c|sp p kp mp c].
    + cbn [droot] in Hroot. subst rt. lookups Hin. steps.
      erewrite delete_node_live by frame_solve_del. heap_norm.
      eexists. split; [reflexivity|]. split; [|apply lookup_delete_eq].
      assert (spliced m DLeaf DLeaf = DLeaf) as -> by (by destruct m).
      unfold holds_in. heap_norm. cbn [dlinked dctx_linked dnodes dctx_nodes droot].
      split_and!; try done. constructor.
    + cbn [dnodes dctx_nodes] in Hnd.
      nodup_at Hnd p [a] (dnodes sp ++ dctx_nodes c).
      atomize. cbn [droot dtop] in Hroot. subst rt. lookups Hin. steps.
      rewrite (ptr_eqb_ne _ _ (droot_ne c p a ltac:(done) ltac:(done))). steps.
      erewrite delete_node_live by frame_solve_del. heap_norm.
      eexists. split; [reflexivity|]. split; [|apply lookup_delete_eq].
      assert (spliced m DLeaf DLeaf = DLeaf) as -> by (by destruct m).
      unfold holds_in. heap_norm. cbn [dlinked dctx_linked dnodes dctx_nodes droot app].
      split_and!; try done; try frame_solve_del.
      cbn [dnodes dctx_nodes app] in Hnd0. by apply NoDup_cons in Hnd0 as [_ ?].
    + cbn [dnodes dctx_nodes] in Hnd.
      nodup_at Hnd p [a] (dnodes sp ++ dctx_nodes c).
      atomize. cbn [droot dtop] in Hroot. subst rt. lookups Hin. steps.
      rewrite (ptr_eqb_ne _ _ (droot_ne c p a ltac:(done) ltac:(done))). steps.
      erewrite delete_node_live by frame_solve_del. heap_norm.
      eexists. split; [reflexivity|]. split; [|apply lookup_delete_eq].
      assert (spliced m DLeaf DLeaf = DLeaf) as -> by (by destruct m).
      unfold holds_in. heap_norm. cbn [dlinked dctx_linked dnodes dctx_nodes droot app].
      split_and!; try done; try frame_solve_del.
      cbn [dnodes dctx_nodes app] in Hnd0. by apply NoDup_cons in Hnd0 as [_ ?].
  - (* one child, on the right *)
    cbn [dnodes] in Hnd0.
    nodup_at Hnd0 b (a :: dnodes rl) (dnodes rr ++ dctx_nodes c).
    destruct c as [|p kp mp sp c|sp p kp mp c].
    + atomize. cbn [droot] in Hroot. subst rt. lookups Hin. steps.
      destruct m; cbn [color_eqb RemoveFixup_loop]; steps; remove_done;
        remove_nodup Hnd0.
    + cbn [dnodes dctx_nodes] in Hnd.
      nodup_at Hnd p (a :: dnodes rl ++ b :: dnodes rr) (dnodes sp ++ dctx_nodes c).
      atomize. cbn [droot dtop] in Hroot. subst rt. lookups Hin. steps.
      rewrite (ptr_eqb_ne _ _ (droot_ne c p a ltac:(done) ltac:(done))). steps.
      destruct m; cbn [color_eqb]; steps.
      * remove_done; remove_nodup Hnd0.
      * destruct Hfix as [Hfix|[Hfix|[Hfix|Hfix]]]; try discriminate.
        destruct mb; try discriminate.
        cbn [RemoveFixup_loop]. heap_norm.
        rewrite (ptr_eqb_ne _ _ (droot_ne c p b ltac:(done) ltac:(done))). steps.
        remove_done; remove_nodup Hnd0.
    + cbn [dnodes dctx_nodes] in Hnd.
      nodup_at Hnd p (a :: dnodes rl ++ b :: dnodes rr) (dnodes sp ++ dctx_nodes c).
      atomize. cbn [droot dtop] in Hroot. subst rt. lookups Hin. steps.
      rewrite (ptr_eqb_ne _ _ (droot_ne c p a ltac:(done) ltac:(done))). steps.
      destruct m; cbn [color_eqb]; steps.
      * remove_done; remove_nodup Hnd0.
      * destruct Hfix as [Hfix|[Hfix|[Hfix|Hfix]]]; try discriminate.
        destruct mb; try discriminate.
        cbn [RemoveFixup_loop]. heap_norm.
        rewrite (ptr_eqb_ne _ _ (droot_ne c p b ltac:(done) ltac:(done))). steps.
        remove_done; remove_nodup Hnd0.
  - (* one child, on the left *)
    destruct Hone as [?| ->]; [discriminate|].
    cbn [dnodes] in Hnd0.
    nodup_at Hnd0 b (dnodes ll) (dnodes lr ++ a :: dctx_nodes c).
    destruct c as [|p kp mp sp c|sp p kp mp c].
    + atomize. cbn [droot] in Hroot. subst rt. lookups Hin. steps.
      destruct m; cbn [color_eqb RemoveFixup_loop]; steps; remove_done;
        remove_nodup_l Hnd0 a (dnodes ll ++ b :: dnodes lr) (@nil addr).
    + cbn [dnodes dctx_nodes] in Hnd.
      nodup_at Hnd p (dnodes ll ++ b :: dnodes lr ++ [a]) (dnodes sp ++ dctx_nodes c).
      atomize. cbn [droot dtop] in Hroot. subst rt. lookups Hin. steps.
      rewrite (ptr_eqb_ne _ _ (droot_ne c p a ltac:(done) ltac:(done))). steps.
      destruct m; cbn [color_eqb]; steps.
      * remove_done;
          remove_nodup_l Hnd0 a (dnodes ll ++ b :: dnodes lr)
            (p :: dnodes sp ++ dctx_nodes c).
      * destruct Hfix as [Hfix|[Hfix|[Hfix|Hfix]]]; try discriminate.
        destruct mb; try discriminate.
        cbn [RemoveFixup_loop]. heap_norm.
        rewrite (ptr_eqb_ne _ _ (droot_ne c p b ltac:(done) ltac:(done))). steps.
        remove_done;
          remove_nodup_l Hnd0 a (dnodes ll ++ b :: dnodes lr)
            (p :: dnodes sp ++ dctx_nodes c).
    + cbn [dnodes dctx_nodes] in Hnd.
      nodup_at Hnd p (dnodes ll ++ b :: dnodes lr ++ [a]) (dnodes sp ++ dctx_nodes c).
      atomize. cbn [droot dtop] in Hroot. subst rt. lookups Hin. steps.
      rewrite (ptr_eqb_ne _ _ (droot_ne c p a ltac:(done) ltac:(done))). steps.
      destruct m; cbn [color_eqb]; steps.
      * remove_done;
          remove_nodup_l Hnd0 a (dnodes ll ++ b :: dnodes lr)
            (p :: dnodes sp ++ dctx_nodes c).
      * destruct Hfix as [Hfix|[Hfix|[Hfix|Hfix]]]; try discriminate.
        destruct mb; try discriminate.
        cbn [RemoveFixup_loop]. heap_norm.
        rewrite (ptr_eqb_ne _ _ (droot_ne c p b ltac:(done) ltac:(done))). steps.
        remove_done;
          remove_nodup_l Hnd0 a (dnodes ll ++ b :: dnodes lr)
            (p :: dnodes sp ++ dctx_nodes c).
Qed.

(** *** What the splice does to the red-black properties *)

Lemma dctx_top_dec c : c = DTop ∨ c ≠ DTop.
Proof. destruct c; [by left|by right..]. Qed.

Lemma root_black_dplug c : ∀ d, c ≠ DTop → root_black (dplug c d) = ctx_root_black c.
Proof.
  induction c as [|a k m r c IH|l a k m c IH]; intros d Hc; [done| |];
    cbn [dplug]; (destruct (dctx_top_dec c) as [->|Hne];
      [by destruct m|rewrite (IH _ Hne); by destruct c]).
Qed.

Lemma balanced_unique d : ∀ n n', balanced n d = true → balanced n' d = true → n = n'.
Proof.
  induction d as [|l IHl a k m r IHr]; intros n n' H H'; simpl in *.
  - apply Nat.eqb_eq in H, H'. congruence.
  - destruct m.
    + apply andb_prop in H as [H _], H' as [H' _]. by eapply IHl.
    + destruct n, n'; try done.
      apply andb_prop in H as [H _], H' as [H' _]. f_equal. by eapply IHl.
Qed.

Lemma balanced_zero_red d : d ≠ DLeaf → balanced 0 d = true → is_red_root d = true.
Proof. by destruct d as [|? ? ? [] ?]. Qed.

Lemma ditems_spliced m l r :
  l = DLeaf ∨ r = DLeaf → ditems (spliced m l r) = ditems l ++ ditems r.
Proof.
  intros [-> | ->]; destruct m; cbn [spliced only_child]; rewrite ?ditems_blacken.
  - done.
  - done.
  - destruct l; cbn [ditems]; by rewrite ?app_nil_r.
  - destruct l; cbn [ditems]; by rewrite ?app_nil_r.
Qed.

Lemma dsize_spliced m l r : (dsize (spliced m l r) ≤ dsize l + dsize r)%nat.
Proof.
  destruct m; cbn [spliced only_child]; rewrite ?dsize_blacken; destruct l; simpl; lia.
Qed.

Lemma sorted_remove_mid (A B : list Z) (x : Z) :
  StronglySorted Z.lt (A ++ x :: B) →
  StronglySorted Z.lt (A ++ B) ∧ ∀ y, y ∈ A ++ B ↔ y ∈ A ++ x :: B ∧ y ≠ x.
Proof.
  intros Hs. apply StronglySorted_app in Hs as (HAB & HA & HxB).
  pose proof HxB as [HB Hx]%StronglySorted_inv.
  split.
  - apply StronglySorted_app. split_and!; [|done|done].
    intros y z Hy Hz. apply HAB; [done|]. apply elem_of_cons. by right.
  - intros y. rewrite !elem_of_app, elem_of_cons. split.
    + intros [Hy|Hy].
      * split; [by left|]. intros ->.
        specialize (HAB x x Hy ltac:(apply elem_of_cons; by left)). lia.
      * split; [right; by right|]. intros ->.
        eapply Forall_forall in Hx; [|exact Hy]. lia.
    + intros [[?|[?|?]] ?]; [by left|done|by right].
Qed.

(** A node of a red-black tree with at most one child, other than a
    black node without children below the root: its only child, if it
    has one, is red below a black node, and the splice keeps the tree
    red-black. *)
Lemma spliced_valid c l a x m r :
  rb_valid (dplug c (DBr l a x m r)) →
  l = DLeaf ∨ r = DLeaf →
  m = Red ∨ c = DTop ∨ only_child l r ≠ DLeaf →
  rb_valid (dplug c (spliced m l r))
  ∧ (only_child l r = DLeaf ∨ c = DTop ∨ m = Red ∨ is_red_root (only_child l r) = true).
Proof.
  intros (Hb & Hrr & N & Hbal) Hone Hcase.
  apply rr_free_unplug in Hrr as (Hrr & Hcrr & Hfr).
  apply balanced_unplug in Hbal as (n & Hbal & Hcb).
  assert (Hoc : rr_free (only_child l r) = true
                ∧ (m = Red → balanced n (only_child l r) = true
                             ∧ root_black (only_child l r) = true)
                ∧ (m = Black → n = 1%nat ∧ balanced 0 (only_child l r) = true)).
  { assert (Ho : (l = DLeaf ∧ only_child l r = r) ∨ (r = DLeaf ∧ only_child l r = l)).
    { destruct Hone as [-> | ->]; [by left|right; by destruct l]. }
    destruct Ho as [[-> ->]|[-> ->]]; destruct m; simpl in Hrr, Hbal;
      try (destruct n as [|n]; [done|]); bsplit;
      repeat match goal with
      | H : (_ =? 0)%nat = true |- _ => apply Nat.eqb_eq in H; subst
      end;
      (split_and!; [done|intros E; by try discriminate E..]). }
  destruct Hoc as (Hrr' & HoR & HoB).
  assert (Hfix : only_child l r = DLeaf ∨ c = DTop ∨ m = Red
                 ∨ is_red_root (only_child l r) = true).
  { destruct m; [by right; right; left|].
    destruct (HoB eq_refl) as (_ & Hb0).
    destruct (only_child l r) as [|? ? ? [] ?]; [by left|by right; right; right|done]. }
  split; [|done].
  destruct (dctx_top_dec c) as [->|Hc].
  - (* the node is the root *)
    cbn [dplug] in *. destruct m; [done|]. cbn [spliced].
    destruct (HoB eq_refl) as (_ & Hb0).
    split; [by destruct (only_child l r)|]. split; [by apply rr_free_blacken|].
    by eapply balanced_blacken.
  - split; [by rewrite root_black_dplug in *|]. split.
    + apply rr_free_plug; [destruct m; cbn [spliced]; [done|by apply rr_free_blacken]|done|].
      intros Hf. destruct m; cbn [spliced].
      * rewrite Hfr in Hf; done.
      * by destruct (only_child l r).
    + exists (cheight n c). apply balanced_plug; [|done].
      destruct m; cbn [spliced]; [by apply HoR|].
      destruct (HoB eq_refl) as (-> & Hb0).
      destruct Hcase as [?|[?|Hne]]; [done|done|].
      destruct (only_child l r) as [|? ? ? [] ?]; try done.
Qed.

(** [Remove(x)] at a node with at most one child that is not a black
    node without children below the root *)
Lemma RB_Remove_simple t c l a x m r fuel :
  holds t (dplug c (DBr l a x m r)) →
  StronglySorted Z.lt (ditems (dplug c (DBr l a x m r))) →
  rb_valid (dplug c (DBr l a x m r)) →
  l = DLeaf ∨ r = DLeaf →
  m = Red ∨ c = DTop ∨ only_child l r ≠ DLeaf →
  (ddepth c < fuel)%nat →
  ∃ t', Remove fuel t x = Ok t'
        ∧ holds t' (dplug c (spliced m l r))
        ∧ heap t' !! a = None
        ∧ rb_valid (dplug c (spliced m l r))
        ∧ StronglySorted Z.lt (ditems (dplug c (spliced m l r)))
        ∧ (∀ y, y ∈ ditems (dplug c (spliced m l r))
                ↔ y ∈ ditems (dplug c (DBr l a x m r)) ∧ y ≠ x)
        ∧ (dsize (dplug c (spliced m l r)) ≤ dsize (dplug c (DBr l a x m r)))%nat.
Proof.
  intros Hd Hs Hv Hone Hcase Hf.
  destruct (spliced_valid c l a x m r Hv Hone Hcase) as (Hv' & Hfix).
  pose proof (RB_Remove_find_node t c l a x m r fuel Hd Hs Hf) as Hfind.
  destruct (RB_Remove_at t c l a x m r fuel) as (t' & HR & Hin' & Hfree);
    [by apply holds_dplug|done|done|done|lia|].
  exists t'. split; [done|]. split; [by apply holds_dplug|]. split; [done|].
  split; [done|].
  rewrite !ditems_dplug, (ditems_spliced m l r Hone) in *. cbn [ditems] in *.
  assert (E : ∀ X : list Z, dctx_before c ++ (ditems l ++ X) ++ dctx_after c
              = (dctx_before c ++ ditems l) ++ X ++ dctx_after c).
  { intros X. by rewrite <- !app_assoc. }
  rewrite (E (x :: ditems r)) in Hs. rewrite (E (x :: ditems r)), (E (ditems r)).
  destruct (sorted_remove_mid _ _ _ Hs) as (Hs' & Hmem).
  split; [done|]. split; [done|].
  rewrite !dsize_dplug. pose proof (dsize_spliced m l r). simpl. lia.
Qed.

(** [Remove(x)] at a black node without children below the root: the
    node is unlinked and deleted and nothing else is done. *)
Lemma RB_Remove_black_leaf t c a x fuel :
  holds t (dplug c (DBr DLeaf a x Black DLeaf)) →
  StronglySorted Z.lt (ditems (dplug c (DBr DLeaf a x Black DLeaf))) →
  (ddepth c < fuel)%nat →
  ∃ t', Remove fuel t x = Ok t' ∧ holds t' (dplug c DLeaf) ∧ heap t' !! a = None.
Proof.
  intros Hd Hs Hf.
  pose proof (RB_Remove_find_node t c _ a x _ _ fuel Hd Hs Hf) as Hfind.
  destruct (RB_Remove_at t c DLeaf a x Black DLeaf fuel) as (t' & HR & Hin' & Hfree);
    [by apply holds_dplug|done|by left|by left|lia|].
  exists t'. split; [done|]. split; [|done]. by apply holds_dplug.
Qed.

Lemma black_leaf_gone_unbalanced c a x N :
  c ≠ DTop →
  balanced N (dplug c (DBr DLeaf a x Black DLeaf)) = true →
  ∀ n, balanced n (dplug c DLeaf) = false.
Proof.
  intros Hc Hbal n. apply not_true_is_false. intros Hbal'.
  apply balanced_unplug in Hbal as (k & Hk & Hck).
  apply balanced_unplug in Hbal' as (k' & Hk' & Hck').
  simpl in Hk, Hk'. apply Nat.eqb_eq in Hk'. subst k'.
  destruct k as [|k]; [done|]. apply andb_prop in Hk as [Hk _].
  apply Nat.eqb_eq in Hk. subst k.
  destruct c as [|p kp mp sp c|sp p kp mp c]; [done| |]; simpl in Hck, Hck';
    apply andb_prop in Hck as [H1 _], Hck' as [H0 _];
    by pose proof (balanced_unique _ _ _ H0 H1).
Qed.

Lemma ddepth_le_dsize c d0 : (ddepth c + dsize d0 ≤ dsize (dplug c d0))%nat.
Proof.
  revert d0. induction c as [|a k m r c IH|l a k m c IH]; intros d0; cbn [ddepth dplug].
  - lia.
  - specialize (IH (DBr d0 a k m r)). cbn [dsize] in IH. lia.
  - specialize (IH (DBr l a k m d0)). cbn [dsize] in IH. lia.
Qed.
End RBRemoveSimple.

(** * Further properties of the code *)

(** ** [Search] *)

(** X1.  On a tree (of either kind) that holds a binary search tree,
    [Search(x)] returns true exactly when some node holds [x]. *)
Theorem Search_decides_membership {M : Type} (t : Tree Z M) (s : shape) (x : Z)
    (fuel : nat) :
  represents t s → ordered (heap t) None None s = true → (size s < fuel)%nat →
  Search fuel t x = Ok (bool_decide (x ∈ items (heap t) s)).
Proof.
  intros (Hroot & Hl & _) Ho Hf. unfold Search. rewrite Hroot.
  by eapply Search_from_ordered.
Qed.

Lemma Search_decides_membership_witness :
  represents avl_213 shape_213 ∧ ordered (heap avl_213) None None shape_213 = true
  ∧ (size shape_213 < 9)%nat
  ∧ Search 9 avl_213 3 = Ok (bool_decide (3 ∈ items (heap avl_213) shape_213)).
Proof.
  assert (H1 : represents avl_213 shape_213) by (repeat split; vm_compute; reflexivity).
  assert (H2 : ordered (heap avl_213) None None shape_213 = true) by (vm_compute; reflexivity).
  assert (H3 : (size shape_213 < 9)%nat) by (simpl; lia).
  split; [exact H1|]. split; [exact H2|]. split; [exact H3|].
  exact (Search_decides_membership avl_213 shape_213 3 9 H1 H2 H3).
Defined.

(** ** The rotations of the red-black tree *)

(** X2.  [LeftRotate(x)] at a node [x] with a right child [y], anywhere
    in a tree: it returns, [y] takes the place of [x] below [x]'s
    parent (or at the root), [x] becomes the left child of [y] and the
    former left subtree [b] of [y] the right subtree of [x]; all parent
    links are set accordingly, no item or colour changes, and the
    inorder sequence of the items is the same. *)
Theorem RB_LeftRotate_correct (t : RBTree.T) (c : dctx Z RBTree.RBColor)
    a x kx mx b y ky my d :
  holds t (dplug c (DBr a x kx mx (DBr b y ky my d))) →
  ∃ t', RBTree.LeftRotate t (Some x) = Ok t'
        ∧ holds t' (dplug c (DBr (DBr a x kx mx b) y ky my d))
        ∧ ditems (dplug c (DBr (DBr a x kx mx b) y ky my d))
          = ditems (dplug c (DBr a x kx mx (DBr b y ky my d))).
Proof.
  intros H. apply holds_dplug in H.
  destruct (RB_LeftRotate_in _ _ _ _ _ _ _ _ _ _ _ H) as (t' & Hr & H').
  exists t'. split; [done|]. split; [by apply holds_dplug|].
  rewrite !ditems_dplug. cbn [ditems]. list_norm. reflexivity.
Qed.

Lemma RB_LeftRotate_correct_witness :
  holds rb_213 d_213
  ∧ ∃ t', RBTree.LeftRotate rb_213 (Some 1%positive) = Ok t'
        ∧ holds t' (DBr (DBr (DBr DLeaf 2%positive 1 RBTree.Red DLeaf) 1%positive 2
                          RBTree.Black DLeaf)
                      3%positive 3 RBTree.Red DLeaf)
        ∧ [1; 2; 3] = [1; 2; 3].
Proof.
  assert (H : holds rb_213 d_213) by (repeat split; vm_compute; reflexivity).
  split; [exact H|].
  exact (RB_LeftRotate_correct rb_213 DTop (DBr DLeaf 2%positive 1 RBTree.Red DLeaf)
           1%positive 2 RBTree.Black DLeaf 3%positive 3 RBTree.Red DLeaf H).
Defined.

(** X3.  [RightRotate(x)] at a node [x] with a left child [y]: the
    mirror image of [LeftRotate]. *)
Theorem RB_RightRotate_correct (t : RBTree.T) (c : dctx Z RBTree.RBColor)
    a y ky my b x kx mx d :
  holds t (dplug c (DBr (DBr a y ky my b) x kx mx d)) →
  ∃ t', RBTree.RightRotate t (Some x) = Ok t'
        ∧ holds t' (dplug c (DBr a y ky my (DBr b x kx mx d)))
        ∧ ditems (dplug c (DBr a y ky my (DBr b x kx mx d)))
          = ditems (dplug c (DBr (DBr a y ky my b) x kx mx d)).
Proof.
  intros H. apply holds_dplug in H.
  destruct (RB_RightRotate_in _ _ _ _ _ _ _ _ _ _ _ H) as (t' & Hr & H').
  exists t'. split; [done|]. split; [by apply holds_dplug|].
  rewrite !ditems_dplug. cbn [ditems]. list_norm. reflexivity.
Qed.

Lemma RB_RightRotate_correct_witness :
  holds rb_213 d_213
  ∧ ∃ t', RBTree.RightRotate rb_213 (Some 1%positive) = Ok t'
        ∧ holds t' (DBr DLeaf 2%positive 1 RBTree.Red
                      (DBr DLeaf 1%positive 2 RBTree.Black
                         (DBr DLeaf 3%positive 3 RBTree.Red DLeaf)))
        ∧ [1; 2; 3] = [1; 2; 3].
Proof.
  assert (H : holds rb_213 d_213) by (repeat split; vm_compute; reflexivity).
  split; [exact H|].
  exact (RB_RightRotate_correct rb_213 DTop DLeaf 2%positive 1 RBTree.Red DLeaf
           1%positive 2 RBTree.Black (DBr DLeaf 3%positive 3 RBTree.Red DLeaf) H).
Defined.

(** X4.  [LeftRotate(x)] followed by [RightRotate(y)], [y] being the
    right child that took the place of [x], gives back the tree as it
    was: the same nodes with the same links, items and colours. *)
Theorem RB_rotate_round_trip (t : RBTree.T) (c : dctx Z RBTree.RBColor)
    a x kx mx b y ky my d :
  holds t (dplug c (DBr a x kx mx (DBr b y ky my d))) →
  ∃ t1 t2, RBTree.LeftRotate t (Some x) = Ok t1
           ∧ RBTree.RightRotate t1 (Some y) = Ok t2
           ∧ holds t2 (dplug c (DBr a x kx mx (DBr b y ky my d))).
Proof.
  intros H. apply holds_dplug in H.
  destruct (RB_LeftRotate_in _ _ _ _ _ _ _ _ _ _ _ H) as (t1 & Hr1 & H1).
  destruct (RB_RightRotate_in _ _ _ _ _ _ _ _ _ _ _ H1) as (t2 & Hr2 & H2).
  exists t1, t2. split; [done|]. split; [done|]. by apply holds_dplug.
Qed.

Lemma RB_rotate_round_trip_witness :
  holds rb_213 d_213
  ∧ ∃ t1 t2, RBTree.LeftRotate rb_213 (Some 1%positive) = Ok t1
             ∧ RBTree.RightRotate t1 (Some 3%positive) = Ok t2
             ∧ holds t2 d_213.
Proof.
  assert (H : holds rb_213 d_213) by (repeat split; vm_compute; reflexivity).
  split; [exact H|].
  exact (RB_rotate_round_trip rb_213 DTop (DBr DLeaf 2%positive 1 RBTree.Red DLeaf)
           1%positive 2 RBTree.Black DLeaf 3%positive 3 RBTree.Red DLeaf H).
Defined.

(** ** [InsertFixup] *)

(** X5.  [InsertFixup(z)], at any node [z] of a tree whose root is
    black (or is [z] itself): the loop ends without touching a null
    pointer, the tree it leaves has a black root, and its rotations and
    recolourings keep the inorder sequence of the items.  Nothing is
    assumed about the colours below the root. *)
Theorem RB_InsertFixup_correct (t : RBTree.T) (c : dctx Z RBTree.RBColor)
    zl z kz mz zr (fuel : nat) :
  holds t (dplug c (DBr zl z kz mz zr)) →
  ctx_root_black c = true →
  (ddepth c + 1 < fuel)%nat →
  ∃ t' d', RBTree.InsertFixup fuel t (Some z) = Ok t'
           ∧ holds t' d'
           ∧ root_black d' = true
           ∧ ditems d' = ditems (dplug c (DBr zl z kz mz zr)).
Proof.
  intros H Hb Hf. apply holds_dplug in H.
  destruct (fixup_is_Some c (DBr zl z kz mz zr) Hb ltac:(done)) as [d1 Hfix].
  destruct (RB_InsertFixup_fixup t c zl z kz mz zr d1 fuel H Hfix Hf) as (t' & Hr & H').
  exists t', (blacken d1). split; [done|]. split; [done|].
  split; [apply root_black_blacken|].
  rewrite ditems_blacken. by apply fixup_items.
Qed.

Lemma RB_InsertFixup_correct_witness :
  holds rb_213 d_213 ∧ true = true ∧ (1 + 1 < 8)%nat
  ∧ ∃ t' d', RBTree.InsertFixup 8 rb_213 (Some 2%positive) = Ok t'
             ∧ holds t' d' ∧ root_black d' = true ∧ ditems d' = [1; 2; 3].
Proof.
  assert (H : holds rb_213 d_213) by (repeat split; vm_compute; reflexivity).
  assert (H2 : (1 + 1 < 8)%nat) by lia.
  split; [exact H|]. split; [reflexivity|]. split; [exact H2|].
  exact (RB_InsertFixup_correct rb_213
           (DCL 1%positive 2 RBTree.Black (DBr DLeaf 3%positive 3 RBTree.Red DLeaf) DTop)
           DLeaf 2%positive 1 RBTree.Red DLeaf 8 H eq_refl H2).
Defined.

(** X6.  [InsertFixup(z)] at a child [z] of a red root: the loop takes
    the grandparent, which is null, and reads its left child; the call
    does not return.  (The loop has no test for it: [Insert] relies on
    the root being black.) *)
Theorem RB_InsertFixup_red_root_faults (t : RBTree.T) (c : dctx Z RBTree.RBColor)
    zl z kz mz zr (fuel : nat) :
  holds t (dplug c (DBr zl z kz mz zr)) →
  (∃ p kp sp, c = DCL p kp RBTree.Red sp DTop ∨ c = DCR sp p kp RBTree.Red DTop) →
  (0 < fuel)%nat →
  RBTree.InsertFixup fuel t (Some z) = Fault.
Proof.
  intros H Hc Hf. apply holds_dplug in H. unfold RBTree.InsertFixup.
  by rewrite (RB_InsertFixup_loop_red_root t c zl z kz mz zr fuel H Hc Hf).
Qed.

Lemma RB_InsertFixup_red_root_faults_witness :
  holds rb_red_root
    (DBr (DBr DLeaf 2%positive 3 RBTree.Red DLeaf) 1%positive 5 RBTree.Red DLeaf)
  ∧ (0 < 5)%nat
  ∧ RBTree.InsertFixup 5 rb_red_root (Some 2%positive) = Fault.
Proof.
  assert (H : holds rb_red_root
    (DBr (DBr DLeaf 2%positive 3 RBTree.Red DLeaf) 1%positive 5 RBTree.Red DLeaf))
    by (repeat split; vm_compute; reflexivity).
  assert (H2 : (0 < 5)%nat) by lia.
  split; [exact H|]. split; [exact H2|].
  exact (RB_InsertFixup_red_root_faults rb_red_root
           (DCL 1%positive 5 RBTree.Red DLeaf DTop) DLeaf 2%positive 3 RBTree.Red DLeaf 5
           H (ex_intro _ 1%positive (ex_intro _ 5 (ex_intro _ DLeaf (or_introl eq_refl))))
           H2).
Defined.

(** ** [Insert] of the red-black tree *)

(** X7.  [Insert(x)] on a binary search tree whose root is black: it
    returns; the tree is again a binary search tree with a black root;
    it holds [x] and exactly the items it held before; at most one node
    is added.  Nothing is assumed about the colours below the root. *)
Theorem RB_Insert_correct (t : RBTree.T) (s : shape) (x : Z) (fuel : nat) :
  represents t s → ordered (heap t) None None s = true → black_root t = true →
  (size s + 1 < fuel)%nat →
  ∃ t' s', RBTree.Insert fuel t x = Ok t'
           ∧ represents t' s'
           ∧ ordered (heap t') None None s' = true
           ∧ black_root t' = true
           ∧ (∀ y, y ∈ items (heap t') s' ↔ y = x ∨ y ∈ items (heap t) s)
           ∧ (size s' ≤ size s + 1)%nat.
Proof. apply RB_Insert_ok. Qed.

Lemma RB_Insert_correct_witness :
  represents rb_213 shape_213 ∧ ordered (heap rb_213) None None shape_213 = true
  ∧ black_root rb_213 = true ∧ (size shape_213 + 1 < 8)%nat
  ∧ ∃ t' s', RBTree.Insert 8 rb_213 7 = Ok t'
           ∧ represents t' s'
           ∧ ordered (heap t') None None s' = true
           ∧ black_root t' = true
           ∧ (∀ y, y ∈ items (heap t') s' ↔ y = 7 ∨ y ∈ items (heap rb_213) shape_213)
           ∧ (size s' ≤ size shape_213 + 1)%nat.
Proof.
  assert (H1 : represents rb_213 shape_213) by (repeat split; vm_compute; reflexivity).
  assert (H2 : ordered (heap rb_213) None None shape_213 = true) by (vm_compute; reflexivity).
  assert (H3 : black_root rb_213 = true) by (vm_compute; reflexivity).
  assert (H4 : (size shape_213 + 1 < 8)%nat) by (simpl; lia).
  split; [exact H1|]. split; [exact H2|]. split; [exact H3|]. split; [exact H4|].
  exact (RB_Insert_correct rb_213 shape_213 7 8 H1 H2 H3 H4).
Defined.



(** ** [IsValid] of the red-black tree *)

(** X9.  What [IsValid] decides: on a tree that holds the nodes of [d],
    it returns true exactly when the root is black (or null), no red
    node has a red child, and the nodes without children all have the
    same number of black nodes on the way up to the root.  Nodes with
    one child are not measured: this is weaker than property #5 of the
    comment in the code. *)
Theorem RB_IsValid_computes (t : RBTree.T) (d : dtree Z RBTree.RBColor) (fuel : nat) :
  holds t d → (2 * dsize d + 2 < fuel)%nat →
  RBTree.IsValid fuel t
  = Ok (root_black d && rr_free d && check_counts (-1) (leaf_counts 0 d)).
Proof.
  intros Hd Hf. rewrite (RB_IsValid_is_valid t d fuel Hd Hf). unfold is_valid.
  by rewrite forallb_rr_checks.
Qed.

Lemma RB_IsValid_computes_witness :
  holds rb_213 d_213 ∧ (2 * dsize d_213 + 2 < 9)%nat
  ∧ RBTree.IsValid 9 rb_213
    = Ok (root_black d_213 && rr_free d_213 && check_counts (-1) (leaf_counts 0 d_213)).
Proof.
  assert (H : holds rb_213 d_213) by (repeat split; vm_compute; reflexivity).
  assert (H2 : (2 * dsize d_213 + 2 < 9)%nat) by (simpl; lia).
  split; [exact H|]. split; [exact H2|].
  exact (RB_IsValid_computes rb_213 d_213 9 H H2).
Defined.

(** X10.  [Insert(x)] on a red-black search tree (black root, no red
    node with a red child, the same number of black nodes on every path
    from the root to a null link): it returns, the tree is again a
    red-black search tree, and [IsValid] returns true on it. *)
Theorem RB_Insert_keeps_red_black (t : RBTree.T) (d : dtree Z RBTree.RBColor)
    (x : Z) (fuel : nat) :
  holds t d → rb_valid d → StronglySorted Z.lt (ditems d) →
  (2 * dsize d + 4 < fuel)%nat →
  ∃ t' d', RBTree.Insert fuel t x = Ok t'
           ∧ holds t' d' ∧ rb_valid d' ∧ StronglySorted Z.lt (ditems d')
           ∧ RBTree.IsValid fuel t' = Ok true.
Proof.
  intros Hd Hv Hs Hf.
  destruct (RB_Insert_valid t d x fuel Hd Hv Hs ltac:(lia))
    as (t' & d' & HI & Hd' & Hv' & Hs' & _ & Hsz).
  exists t', d'. split_and!; try done.
  rewrite (RB_IsValid_is_valid t' d' fuel Hd') by lia.
  by rewrite rb_valid_is_valid.
Qed.

Lemma RB_Insert_keeps_red_black_witness :
  holds rb_213 d_213 ∧ rb_valid d_213 ∧ StronglySorted Z.lt (ditems d_213)
  ∧ (2 * dsize d_213 + 4 < 11)%nat
  ∧ ∃ t' d', RBTree.Insert 11 rb_213 7 = Ok t'
           ∧ holds t' d' ∧ rb_valid d' ∧ StronglySorted Z.lt (ditems d')
           ∧ RBTree.IsValid 11 t' = Ok true.
Proof.
  assert (H1 : holds rb_213 d_213) by (repeat split; vm_compute; reflexivity).
  assert (H2 : rb_valid d_213).
  { split; [reflexivity|]. split; [reflexivity|]. exists 1%nat. reflexivity. }
  assert (H3 : StronglySorted Z.lt (ditems d_213)).
  { simpl. repeat constructor; lia. }
  assert (H4 : (2 * dsize d_213 + 4 < 11)%nat) by (simpl; lia).
  split; [exact H1|]. split; [exact H2|]. split; [exact H3|]. split; [exact H4|].
  exact (RB_Insert_keeps_red_black rb_213 d_213 7 11 H1 H2 H3 H4).
Defined.

(** X11.  Any sequence of [Insert] calls on an empty tree runs to the
    end; [IsValid] returns true on the tree it builds; and the inorder
    iteration of that tree gives the inserted items, each once, in
    strictly ascending order. *)
Theorem RB_inserts_from_empty (xs : list Z) (fuel : nat) :
  (2 * length xs + 2 < fuel)%nat →
  ∃ t l, RBTree.run fuel empty_tree (RBTree.Ins <$> xs) = Ok t
         ∧ RBTree.IsValid fuel t = Ok true
         ∧ inorder_items fuel t = Ok l
         ∧ StronglySorted Z.lt l
         ∧ ∀ y, y ∈ l ↔ y ∈ xs.
Proof.
  intros Hf.
  destruct (RB_run_inserts_valid xs empty_tree DLeaf fuel holds_empty rb_valid_DLeaf)
    as (t & d & Hrun & Hd & Hv & Hs & Hmem & Hsz); [constructor|simpl; lia|].
  simpl in Hsz.
  exists t, (ditems d). split; [done|]. split; [|split; [|split; [done|]]].
  - rewrite (RB_IsValid_is_valid t d fuel Hd) by lia. by rewrite rb_valid_is_valid.
  - apply holds_inorder_items; [done|lia].
  - intros y. rewrite Hmem. split; [|by left]. by intros [?|?%elem_of_nil].
Qed.

Lemma RB_inserts_from_empty_witness :
  (2 * length [5; 1; 9; 1] + 2 < 11)%nat
  ∧ ∃ t l, RBTree.run 11 empty_tree (RBTree.Ins <$> [5; 1; 9; 1]) = Ok t
         ∧ RBTree.IsValid 11 t = Ok true
         ∧ inorder_items 11 t = Ok l
         ∧ StronglySorted Z.lt l
         ∧ ∀ y, y ∈ l ↔ y ∈ [5; 1; 9; 1].
Proof.
  assert (H : (2 * length [5; 1; 9; 1] + 2 < 11)%nat) by (simpl; lia).
  split; [exact H|].
  exact (RB_inserts_from_empty [5; 1; 9; 1] 11 H).
Defined.

(** ** [Intersect] of the red-black tree *)

(** X12.  [Intersect] of a red-black tree with another tree (of either
    kind), both binary search trees, the items compared with [==] and
    [<] of the integers: it returns a new tree, which is a binary
    search tree with a black root and holds exactly the items that are
    in both trees. *)
Theorem RB_Intersect_correct {M' : Type} (t : RBTree.T) (other : Tree Z M')
    (s s' : shape) (fuel : nat) :
  represents t s → ordered (heap t) None None s = true →
  represents other s' → ordered (heap other) None None s' = true →
  (2 * (size s + size s') + 2 ≤ fuel)%nat →
  ∃ t' sr, RBTree.Intersect Z.eqb Z.ltb fuel t other = Ok t'
           ∧ represents t' sr
           ∧ ordered (heap t') None None sr = true
           ∧ black_root t' = true
           ∧ ∀ y, y ∈ items (heap t') sr
                  ↔ y ∈ items (heap t) s ∧ y ∈ items (heap other) s'.
Proof.
  intros Hrep Ho Hrep' Ho' Hf. unfold RBTree.Intersect.
  destruct (inorder_walk t s Hrep Ho) as (p & Hbeg & Hwalk & Hit & Hs).
  destruct (inorder_walk other s' Hrep' Ho') as (p' & Hbeg' & Hwalk' & Hit' & Hs').
  rewrite (Hbeg fuel) by lia. rewrite (Hbeg' fuel) by lia. cbn [bind].
  destruct (RB_Intersect_loop_ok t other fuel p p' _ _ _ _ _ _ empty_tree Leaf
              Hwalk Hit Hs Hwalk' Hit' Hs' represents_empty eq_refl eq_refl)
    as (t' & sr & Hloop & Hrepr & Hor & Hbr & Hmem).
  - rewrite length_nodes. lia.
  - rewrite length_nodes. lia.
  - rewrite !length_nodes. simpl. lia.
  - exists t', sr. split_and!; try done. intros y. rewrite Hmem.
    split; [|by right]. intros [H|H]; [|done]. by apply elem_of_nil in H.
Qed.

Lemma RB_Intersect_correct_witness :
  represents rb_213 shape_213 ∧ ordered (heap rb_213) None None shape_213 = true
  ∧ represents avl_213 shape_213 ∧ ordered (heap avl_213) None None shape_213 = true
  ∧ (2 * (size shape_213 + size shape_213) + 2 ≤ 14)%nat
  ∧ ∃ t' sr, RBTree.Intersect Z.eqb Z.ltb 14 rb_213 avl_213 = Ok t'
           ∧ represents t' sr
           ∧ ordered (heap t') None None sr = true
           ∧ black_root t' = true
           ∧ ∀ y, y ∈ items (heap t') sr
                  ↔ y ∈ items (heap rb_213) shape_213 ∧ y ∈ items (heap avl_213) shape_213.
Proof.
  assert (H1 : represents rb_213 shape_213) by (repeat split; vm_compute; reflexivity).
  assert (H2 : ordered (heap rb_213) None None shape_213 = true) by (vm_compute; reflexivity).
  assert (H3 : represents avl_213 shape_213) by (repeat split; vm_compute; reflexivity).
  assert (H4 : ordered (heap avl_213) None None shape_213 = true) by (vm_compute; reflexivity).
  assert (H5 : (2 * (size shape_213 + size shape_213) + 2 ≤ 14)%nat) by (simpl; lia).
  split; [exact H1|]. split; [exact H2|]. split; [exact H3|]. split; [exact H4|].
  split; [exact H5|].
  exact (RB_Intersect_correct rb_213 avl_213 shape_213 shape_213 14 H1 H2 H3 H4 H5).
Defined.

(** ** The singly linked list of [list.h] *)

Section ListProperties.
Import LinkedList.

(** X13.  [Insert(x)] puts a new cell with [x] in front of the cells
    of the list, which stay as they are: the call returns, the list is
    well formed ([head], [tail], the [next] links and [size] agree),
    and the iteration hands out [x] and then the former items. *)
Theorem List_Insert_front (l : List) (cells : list (addr * Z)) (x : Z) (fuel : nat) :
  holds l cells → (length cells + 1 < fuel)%nat →
  ∃ l', Insert l x = Ok l'
        ∧ holds l' ((fresh (dom (heap l)), x) :: cells)
        ∧ iterate fuel l' = Ok (x :: cells.*2)
        ∧ Size l' = size_t (Size l + 1).
Proof.
  intros Hl Hf. destruct (List_Insert_holds l cells x Hl) as (l' & HI & Hl').
  exists l'. split; [done|]. split; [done|]. split.
  - rewrite (List_iterate_holds l' _ fuel Hl'); [done|simpl; lia].
  - destruct Hl as (_ & _ & _ & _ & Hsz), Hl' as (_ & _ & _ & _ & Hsz').
    unfold Size. rewrite Hsz', Hsz. symmetry. apply size_t_length_succ.
Qed.

Lemma List_Insert_front_witness :
  holds list_2_13_10_5 cells_2_13_10_5 ∧ (length cells_2_13_10_5 + 1 < 7)%nat
  ∧ ∃ l', Insert list_2_13_10_5 7 = Ok l'
        ∧ holds l' ((fresh (dom (heap list_2_13_10_5)), 7) :: cells_2_13_10_5)
        ∧ iterate 7 l' = Ok (7 :: cells_2_13_10_5.*2)
        ∧ Size l' = size_t (Size list_2_13_10_5 + 1).
Proof.
  assert (H1 : holds list_2_13_10_5 cells_2_13_10_5).
  { unfold holds. cbn [chain cells_2_13_10_5]. split_and!; try (vm_compute; reflexivity).
    apply (bool_decide_unpack _). vm_compute. exact I. }
  assert (H2 : (length cells_2_13_10_5 + 1 < 7)%nat) by (simpl; lia).
  split; [exact H1|]. split; [exact H2|].
  exact (List_Insert_front list_2_13_10_5 cells_2_13_10_5 7 7 H1 H2).
Defined.

(** X14.  [Append(x)] puts a new cell with [x] behind the cells of the
    list: the call returns, the list is well formed, and the iteration
    hands out the former items and then [x]. *)
Theorem List_Append_back (l : List) (cells : list (addr * Z)) (x : Z) (fuel : nat) :
  holds l cells → (length cells + 1 < fuel)%nat →
  ∃ l', Append l x = Ok l'
        ∧ holds l' (cells ++ [(fresh (dom (heap l)), x)])
        ∧ iterate fuel l' = Ok (cells.*2 ++ [x])
        ∧ Size l' = size_t (Size l + 1).
Proof.
  intros Hl Hf. destruct (List_Append_holds l cells x Hl) as (l' & HI & Hl').
  exists l'. split; [done|]. split; [done|]. split.
  - rewrite (List_iterate_holds l' _ fuel Hl'); [by rewrite fmap_app|].
    rewrite length_app. simpl. lia.
  - destruct Hl as (_ & _ & _ & _ & Hsz), Hl' as (_ & _ & _ & _ & Hsz').
    unfold Size. rewrite Hsz', Hsz. symmetry. apply size_t_length_snoc.
Qed.

Lemma List_Append_back_witness :
  holds list_2_13_10_5 cells_2_13_10_5 ∧ (length cells_2_13_10_5 + 1 < 7)%nat
  ∧ ∃ l', Append list_2_13_10_5 7 = Ok l'
        ∧ holds l' (cells_2_13_10_5 ++ [(fresh (dom (heap list_2_13_10_5)), 7)])
        ∧ iterate 7 l' = Ok (cells_2_13_10_5.*2 ++ [7])
        ∧ Size l' = size_t (Size list_2_13_10_5 + 1).
Proof.
  assert (H1 : holds list_2_13_10_5 cells_2_13_10_5).
  { unfold holds. cbn [chain cells_2_13_10_5]. split_and!; try (vm_compute; reflexivity).
    apply (bool_decide_unpack _). vm_compute. exact I. }
  assert (H2 : (length cells_2_13_10_5 + 1 < 7)%nat) by (simpl; lia).
  split; [exact H1|]. split; [exact H2|].
  exact (List_Append_back list_2_13_10_5 cells_2_13_10_5 7 7 H1 H2).
Defined.

(** X15.  [Reverse] turns the list around in place: it returns, the
    same cells are linked in the opposite order with [head] and [tail]
    exchanged, the iteration hands out the items in reverse; and a
    second [Reverse] gives back the list as it was. *)
Theorem List_Reverse_reverses (l : List) (cells : list (addr * Z)) (fuel : nat) :
  holds l cells → (length cells < fuel)%nat →
  ∃ l1 l2, Reverse fuel l = Ok l1
           ∧ holds l1 (rev cells)
           ∧ iterate fuel l1 = Ok (rev (cells.*2))
           ∧ Reverse fuel l1 = Ok l2
           ∧ holds l2 cells.
Proof.
  intros Hl Hf. destruct (List_Reverse_holds l cells fuel Hl Hf) as (l1 & HR1 & Hl1).
  destruct (List_Reverse_holds l1 (rev cells) fuel Hl1) as (l2 & HR2 & Hl2).
  { by rewrite length_rev. }
  rewrite rev_involutive in Hl2.
  exists l1, l2. split_and!; try done.
  rewrite (List_iterate_holds l1 _ fuel Hl1); [|by rewrite length_rev].
  by rewrite fmap_rev_list.
Qed.

Lemma List_Reverse_reverses_witness :
  holds list_2_13_10_5 cells_2_13_10_5 ∧ (length cells_2_13_10_5 < 7)%nat
  ∧ ∃ l1 l2, Reverse 7 list_2_13_10_5 = Ok l1
           ∧ holds l1 (rev cells_2_13_10_5)
           ∧ iterate 7 l1 = Ok (rev (cells_2_13_10_5.*2))
           ∧ Reverse 7 l1 = Ok l2
           ∧ holds l2 cells_2_13_10_5.
Proof.
  assert (H1 : holds list_2_13_10_5 cells_2_13_10_5).
  { unfold holds. cbn [chain cells_2_13_10_5]. split_and!; try (vm_compute; reflexivity).
    apply (bool_decide_unpack _). vm_compute. exact I. }
  assert (H2 : (length cells_2_13_10_5 < 7)%nat) by (simpl; lia).
  split; [exact H1|]. split; [exact H2|].
  exact (List_Reverse_reverses list_2_13_10_5 cells_2_13_10_5 7 H1 H2).
Defined.

(** X16.  The iteration from [begin()] to [end()] of a well-formed list
    hands out its items from front to back, each once, and ends. *)
Theorem List_iteration (l : List) (cells : list (addr * Z)) (fuel : nat) :
  holds l cells → (length cells < fuel)%nat →
  iterate fuel l = Ok (cells.*2).
Proof. apply List_iterate_holds. Qed.

Lemma List_iteration_witness :
  holds list_2_13_10_5 cells_2_13_10_5 ∧ (length cells_2_13_10_5 < 7)%nat
  ∧ iterate 7 list_2_13_10_5 = Ok (cells_2_13_10_5.*2).
Proof.
  assert (H1 : holds list_2_13_10_5 cells_2_13_10_5).
  { unfold holds. cbn [chain cells_2_13_10_5]. split_and!; try (vm_compute; reflexivity).
    apply (bool_decide_unpack _). vm_compute. exact I. }
  assert (H2 : (length cells_2_13_10_5 < 7)%nat) by (simpl; lia).
  split; [exact H1|]. split; [exact H2|].
  exact (List_iteration list_2_13_10_5 cells_2_13_10_5 7 H1 H2).
Defined.

(** X17.  [Clear] frees every cell of the list while it iterates over
    them, and never touches a freed cell (the iterator has fetched
    [next] before the current cell is deleted): it returns, every cell
    of the list is freed and nothing else, [head] and [tail] are null,
    [IsEmpty] is true and [Size] is 0. *)
Theorem List_Clear_frees (l : List) (cells : list (addr * Z)) (fuel : nat) :
  holds l cells → (length cells < fuel)%nat →
  ∃ l', Clear fuel l = Ok l'
        ∧ holds l' []
        ∧ (∀ a, a ∈ cells.*1 → heap l' !! a = None)
        ∧ (∀ a, a ∉ cells.*1 → heap l' !! a = heap l !! a)
        ∧ IsEmpty l' = true ∧ Size l' = 0.
Proof.
  intros Hl Hf. destruct (List_Clear_holds l cells fuel Hl Hf) as (l' & HC & Hl' & Hh).
  exists l'. split; [done|]. split; [done|]. rewrite Hh.
  split; [by intros a; apply free_cells_in|].
  split; [by intros a; apply free_cells_notin|].
  destruct Hl' as (_ & _ & _ & _ & Hsz). unfold IsEmpty, Size. by rewrite Hsz.
Qed.

Lemma List_Clear_frees_witness :
  holds list_2_13_10_5 cells_2_13_10_5 ∧ (length cells_2_13_10_5 < 7)%nat
  ∧ ∃ l', Clear 7 list_2_13_10_5 = Ok l'
        ∧ holds l' []
        ∧ (∀ a, a ∈ cells_2_13_10_5.*1 → heap l' !! a = None)
        ∧ (∀ a, a ∉ cells_2_13_10_5.*1 → heap l' !! a = heap list_2_13_10_5 !! a)
        ∧ IsEmpty l' = true ∧ Size l' = 0.
Proof.
  assert (H1 : holds list_2_13_10_5 cells_2_13_10_5).
  { unfold holds. cbn [chain cells_2_13_10_5]. split_and!; try (vm_compute; reflexivity).
    apply (bool_decide_unpack _). vm_compute. exact I. }
  assert (H2 : (length cells_2_13_10_5 < 7)%nat) by (simpl; lia).
  split; [exact H1|]. split; [exact H2|].
  exact (List_Clear_frees list_2_13_10_5 cells_2_13_10_5 7 H1 H2).
Defined.

(** X18.  The copy constructor, in the store that holds the list
    [other]: it returns a well-formed list that holds the same items in
    the same order and has the same [Size].  Its cells are newly
    allocated: none of them was in use before, so that the copy shares
    no cell with [other]; and no cell that was in use is changed, so
    that [other] is the same well-formed list after the copy. *)
Theorem List_copy_copies (other : List) (cells : list (addr * Z)) (fuel : nat) :
  holds other cells → (length cells < fuel)%nat →
  ∃ l' cells', copy fuel other = Ok l'
               ∧ holds l' cells'
               ∧ cells'.*2 = cells.*2
               ∧ (∀ a, a ∈ cells'.*1 → heap other !! a = None)
               ∧ (∀ a, a ∈ cells'.*1 → a ∉ cells.*1)
               ∧ (∀ a, a ∉ cells'.*1 → heap l' !! a = heap other !! a)
               ∧ holds (mkList (heap l') (head other) (tail other) (size other)) cells
               ∧ iterate fuel l' = iterate fuel other
               ∧ Size l' = Size other.
Proof.
  intros Hl Hf.
  destruct (List_copy_holds other cells fuel Hl Hf)
    as (l' & cells' & HC & Hl' & Hit & Hnew & Hfr).
  assert (Hlen : length cells' = length cells).
  { by rewrite <- (length_fmap snd cells'), Hit, length_fmap. }
  assert (Hdis : ∀ a, a ∈ cells'.*1 → a ∉ cells.*1).
  { intros a Ha Hin. destruct Hl as (_ & _ & Hc & _).
    destruct (chain_dom _ _ _ _ Hc Hin) as [n Hn]. rewrite (Hnew a Ha) in Hn. done. }
  exists l', cells'. split_and!; try done.
  - destruct Hl as (Hhd & Htl & Hc & Hnd & Hsz). unfold holds. lnorm.
    split_and!; try done. eapply chain_ext; [|exact Hc].
    intros a Ha. apply Hfr. intros Ha'. by apply (Hdis a Ha').
  - rewrite (List_iterate_holds l' cells' fuel Hl') by lia.
    rewrite (List_iterate_holds other cells fuel Hl) by lia. by rewrite Hit.
  - destruct Hl as (_ & _ & _ & _ & Hsz), Hl' as (_ & _ & _ & _ & Hsz').
    unfold Size. by rewrite Hsz, Hsz', Hlen.
Qed.

Lemma List_copy_copies_witness :
  holds list_2_13_10_5 cells_2_13_10_5 ∧ (length cells_2_13_10_5 < 7)%nat
  ∧ ∃ l' cells', copy 7 list_2_13_10_5 = Ok l'
               ∧ holds l' cells'
               ∧ cells'.*2 = cells_2_13_10_5.*2
               ∧ (∀ a, a ∈ cells'.*1 → heap list_2_13_10_5 !! a = None)
               ∧ (∀ a, a ∈ cells'.*1 → a ∉ cells_2_13_10_5.*1)
               ∧ (∀ a, a ∉ cells'.*1 → heap l' !! a = heap list_2_13_10_5 !! a)
               ∧ holds (mkList (heap l') (head list_2_13_10_5) (tail list_2_13_10_5)
                          (size list_2_13_10_5)) cells_2_13_10_5
               ∧ iterate 7 l' = iterate 7 list_2_13_10_5
               ∧ Size l' = Size list_2_13_10_5.
Proof.
  assert (H1 : holds list_2_13_10_5 cells_2_13_10_5).
  { unfold holds. cbn [chain cells_2_13_10_5]. split_and!; try (vm_compute; reflexivity).
    apply (bool_decide_unpack _). vm_compute. exact I. }
  assert (H2 : (length cells_2_13_10_5 < 7)%nat) by (simpl; lia).
  split; [exact H1|]. split; [exact H2|].
  exact (List_copy_copies list_2_13_10_5 cells_2_13_10_5 7 H1 H2).
Defined.

(** X19.  The constructor from an initializer list, which appends the
    values one by one: it returns a well-formed list, on which
    [IsValid] returns true, whose iteration hands out the values in the
    order given and whose [Size] is their number (as a [size_t]). *)
Theorem List_of_initializer_list (xs : list Z) (fuel : nat) :
  (length xs < fuel)%nat →
  ∃ l, of_initializer_list xs = Ok l
       ∧ IsValid fuel l = Ok true
       ∧ iterate fuel l = Ok xs
       ∧ Size l = size_t (Z.of_nat (length xs)).
Proof.
  intros Hf. unfold of_initializer_list.
  destruct (List_Append_all_holds xs empty [] holds_empty_list)
    as (l & cells & HA & Hl & Hit).
  cbn [app] in Hl.
  assert (Hlen : length cells = length xs) by (by rewrite <- Hit, length_fmap).
  exists l. split; [done|]. split_and!.
  - apply (List_IsValid_holds l cells); [done|lia].
  - rewrite (List_iterate_holds l cells fuel Hl) by lia. by rewrite Hit.
  - destruct Hl as (_ & _ & _ & _ & Hsz). unfold Size. by rewrite Hsz, Hlen.
Qed.

Lemma List_of_initializer_list_witness :
  (length [2; 13; 10; 5] < 7)%nat
  ∧ ∃ l, of_initializer_list [2; 13; 10; 5] = Ok l
       ∧ IsValid 7 l = Ok true
       ∧ iterate 7 l = Ok [2; 13; 10; 5]
       ∧ Size l = size_t (Z.of_nat (length [2; 13; 10; 5])).
Proof.
  assert (H : (length [2; 13; 10; 5] < 7)%nat) by (simpl; lia).
  split; [exact H|].
  exact (List_of_initializer_list [2; 13; 10; 5] 7 H).
Defined.

(** X20.  [IsValid] returns true on every well-formed list, and so
    after each of [Insert], [Append], [Reverse] and [Clear] on such a
    list. *)
Theorem List_IsValid_after_operations (l : List) (cells : list (addr * Z)) (x : Z)
    (fuel : nat) :
  holds l cells → (length cells + 1 < fuel)%nat →
  IsValid fuel l = Ok true
  ∧ (∃ l', Insert l x = Ok l' ∧ IsValid fuel l' = Ok true)
  ∧ (∃ l', Append l x = Ok l' ∧ IsValid fuel l' = Ok true)
  ∧ (∃ l', Reverse fuel l = Ok l' ∧ IsValid fuel l' = Ok true)
  ∧ (∃ l', Clear fuel l = Ok l' ∧ IsValid fuel l' = Ok true).
Proof.
  intros Hl Hf. split; [apply (List_IsValid_holds l cells); [done|lia]|].
  split; [|split; [|split]].
  - destruct (List_Insert_holds l cells x Hl) as (l' & HI & Hl').
    exists l'. split; [done|]. apply (List_IsValid_holds l' _ fuel Hl'). simpl. lia.
  - destruct (List_Append_holds l cells x Hl) as (l' & HI & Hl').
    exists l'. split; [done|]. apply (List_IsValid_holds l' _ fuel Hl').
    rewrite length_app. simpl. lia.
  - destruct (List_Reverse_holds l cells fuel Hl) as (l' & HI & Hl'); [lia|].
    exists l'. split; [done|]. apply (List_IsValid_holds l' _ fuel Hl').
    rewrite length_rev. lia.
  - destruct (List_Clear_holds l cells fuel Hl) as (l' & HI & Hl' & _); [lia|].
    exists l'. split; [done|]. apply (List_IsValid_holds l' _ fuel Hl'). simpl. lia.
Qed.

Lemma List_IsValid_after_operations_witness :
  holds list_2_13_10_5 cells_2_13_10_5 ∧ (length cells_2_13_10_5 + 1 < 7)%nat
  ∧ IsValid 7 list_2_13_10_5 = Ok true
  ∧ (∃ l', Insert list_2_13_10_5 7 = Ok l' ∧ IsValid 7 l' = Ok true)
  ∧ (∃ l', Append list_2_13_10_5 7 = Ok l' ∧ IsValid 7 l' = Ok true)
  ∧ (∃ l', Reverse 7 list_2_13_10_5 = Ok l' ∧ IsValid 7 l' = Ok true)
  ∧ (∃ l', Clear 7 list_2_13_10_5 = Ok l' ∧ IsValid 7 l' = Ok true).
Proof.
  assert (H1 : holds list_2_13_10_5 cells_2_13_10_5).
  { unfold holds. cbn [chain cells_2_13_10_5]. split_and!; try (vm_compute; reflexivity).
    apply (bool_decide_unpack _). vm_compute. exact I. }
  assert (H2 : (length cells_2_13_10_5 + 1 < 7)%nat) by (simpl; lia).
  split; [exact H1|]. split; [exact H2|].
  exact (List_IsValid_after_operations list_2_13_10_5 cells_2_13_10_5 7 7 H1 H2).
Defined.

(** X21.  [SequencesMatch] of [main.cpp], on two well-formed lists of
    fewer than 2^64 cells: it returns true exactly when the two lists
    hold the same items in the same order. *)
Theorem List_SequencesMatch_decides (lhs rhs : List) (c1 c2 : list (addr * Z))
    (fuel : nat) :
  holds lhs c1 → holds rhs c2 →
  Z.of_nat (length c1) < 2 ^ 64 → Z.of_nat (length c2) < 2 ^ 64 →
  (length c1 < fuel)%nat →
  SequencesMatch fuel lhs rhs = Ok (bool_decide (c1.*2 = c2.*2)).
Proof. apply List_SequencesMatch_holds. Qed.

Lemma List_SequencesMatch_decides_witness :
  holds list_2_13_10_5 cells_2_13_10_5
  ∧ Z.of_nat (length cells_2_13_10_5) < 2 ^ 64
  ∧ (length cells_2_13_10_5 < 7)%nat
  ∧ SequencesMatch 7 list_2_13_10_5 list_2_13_10_5
    = Ok (bool_decide (cells_2_13_10_5.*2 = cells_2_13_10_5.*2)).
Proof.
  assert (H1 : holds list_2_13_10_5 cells_2_13_10_5).
  { unfold holds. cbn [chain cells_2_13_10_5]. split_and!; try (vm_compute; reflexivity).
    apply (bool_decide_unpack _). vm_compute. exact I. }
  assert (H2 : Z.of_nat (length cells_2_13_10_5) < 2 ^ 64) by (vm_compute; reflexivity).
  assert (H3 : (length cells_2_13_10_5 < 7)%nat) by (simpl; lia).
  split; [exact H1|]. split; [exact H2|]. split; [exact H3|].
  exact (List_SequencesMatch_decides list_2_13_10_5 list_2_13_10_5
           cells_2_13_10_5 cells_2_13_10_5 7 H1 H1 H2 H2 H3).
Defined.
End ListProperties.

(** ** The rotations and [Balance] of the AVL tree *)

(** X22.  [Node::RightRotate] on a node [x] with a left child [q],
    below any parent: it returns [q]; [q] is the top of the subtree,
    with [x] as its right child and the former right subtree of [q] as
    the left subtree of [x]; the parent link of [q] is the former one
    of [x], but no link of that parent is changed (the caller stores
    the returned pointer); and when the balance factors of the subtree
    were the differences of the heights before, so are they after:
    the two updates of [balanceFactor] are exact. *)
Theorem AVL_RightRotate_correct (h : gmap addr (Node Z Z)) (rt p : ptr)
    a q kq mq b x kx mx d :
  dlinked h p (DBr (DBr a q kq mq b) x kx mx d) →
  NoDup (dnodes (DBr (DBr a q kq mq b) x kx mx d)) →
  bf_exact (DBr (DBr a q kq mq b) x kx mx d) = true →
  ∃ h' mq' mx',
    AVLTree.RightRotate (mkTree h rt) (Some x) = Ok (mkTree h' rt, Some q)
    ∧ dlinked h' p (DBr a q kq mq' (DBr b x kx mx' d))
    ∧ bf_exact (DBr a q kq mq' (DBr b x kx mx' d)) = true
    ∧ ∀ e, e ∉ dnodes (DBr (DBr a q kq mq b) x kx mx d) → h' !! e = h !! e.
Proof.
  intros Hl Hnd He.
  destruct (AVL_RightRotate_sub h rt p a q kq mq b x kx mx d Hl Hnd) as (h' & Hr & Hl' & Hf).
  exists h', (mq + 1 + Z.max (mx + 1 - Z.min mq 0) 0), (mx + 1 - Z.min mq 0).
  split; [done|]. split; [done|]. split; [|done].
  by apply AVL_RightRotate_exact.
Qed.

Lemma AVL_RightRotate_correct_witness :
  dlinked (heap avl_spine) None davl_spine
  ∧ NoDup (dnodes davl_spine)
  ∧ bf_exact davl_spine = true
  ∧ ∃ h' mq' mx',
    AVLTree.RightRotate (mkTree (heap avl_spine) (root avl_spine)) (Some 1%positive)
    = Ok (mkTree h' (root avl_spine), Some 2%positive)
    ∧ dlinked h' None
        (DBr (DBr DLeaf 3%positive 1 0 DLeaf) 2%positive 2 mq' (DBr DLeaf 1%positive 3 mx' DLeaf))
    ∧ bf_exact
        (DBr (DBr DLeaf 3%positive 1 0 DLeaf) 2%positive 2 mq' (DBr DLeaf 1%positive 3 mx' DLeaf))
      = true
    ∧ ∀ e, e ∉ dnodes davl_spine → h' !! e = heap avl_spine !! e.
Proof.
  assert (H1 : dlinked (heap avl_spine) None davl_spine)
    by (repeat split; vm_compute; reflexivity).
  assert (H2 : NoDup (dnodes davl_spine))
    by (apply (bool_decide_unpack _); vm_compute; exact I).
  assert (H3 : bf_exact davl_spine = true) by (vm_compute; reflexivity).
  split; [exact H1|]. split; [exact H2|]. split; [exact H3|].
  exact (AVL_RightRotate_correct (heap avl_spine) (root avl_spine) None
           (DBr DLeaf 3%positive 1 0 DLeaf) 2%positive 2 (-1) DLeaf 1%positive 3 (-2) DLeaf
           H1 H2 H3).
Defined.

(** X23.  [Node::LeftRotate] on a node [x] with a right child [q]: the
    mirror image of [RightRotate], with exact balance factors again. *)
Theorem AVL_LeftRotate_correct (h : gmap addr (Node Z Z)) (rt p : ptr)
    a x kx mx b q kq mq d :
  dlinked h p (DBr a x kx mx (DBr b q kq mq d)) →
  NoDup (dnodes (DBr a x kx mx (DBr b q kq mq d))) →
  bf_exact (DBr a x kx mx (DBr b q kq mq d)) = true →
  ∃ h' mq' mx',
    AVLTree.LeftRotate (mkTree h rt) (Some x) = Ok (mkTree h' rt, Some q)
    ∧ dlinked h' p (DBr (DBr a x kx mx' b) q kq mq' d)
    ∧ bf_exact (DBr (DBr a x kx mx' b) q kq mq' d) = true
    ∧ ∀ e, e ∉ dnodes (DBr a x kx mx (DBr b q kq mq d)) → h' !! e = h !! e.
Proof.
  intros Hl Hnd He.
  destruct (AVL_LeftRotate_sub h rt p a x kx mx b q kq mq d Hl Hnd) as (h' & Hr & Hl' & Hf).
  exists h', (mq - 1 + Z.min (mx - 1 - Z.max mq 0) 0), (mx - 1 - Z.max mq 0).
  split; [done|]. split; [done|]. split; [|done].
  by apply AVL_LeftRotate_exact.
Qed.

Lemma AVL_LeftRotate_correct_witness :
  dlinked (heap avl_213) None davl_213
  ∧ NoDup (dnodes davl_213)
  ∧ bf_exact davl_213 = true
  ∧ ∃ h' mq' mx',
    AVLTree.LeftRotate (mkTree (heap avl_213) (root avl_213)) (Some 1%positive)
    = Ok (mkTree h' (root avl_213), Some 3%positive)
    ∧ dlinked h' None
        (DBr (DBr (DBr DLeaf 2%positive 1 0 DLeaf) 1%positive 2 mx' DLeaf) 3%positive 3 mq' DLeaf)
    ∧ bf_exact
        (DBr (DBr (DBr DLeaf 2%positive 1 0 DLeaf) 1%positive 2 mx' DLeaf) 3%positive 3 mq' DLeaf)
      = true
    ∧ ∀ e, e ∉ dnodes davl_213 → h' !! e = heap avl_213 !! e.
Proof.
  assert (H1 : dlinked (heap avl_213) None davl_213)
    by (repeat split; vm_compute; reflexivity).
  assert (H2 : NoDup (dnodes davl_213))
    by (apply (bool_decide_unpack _); vm_compute; exact I).
  assert (H3 : bf_exact davl_213 = true) by (vm_compute; reflexivity).
  split; [exact H1|]. split; [exact H2|]. split; [exact H3|].
  exact (AVL_LeftRotate_correct (heap avl_213) (root avl_213) None
           (DBr DLeaf 2%positive 1 0 DLeaf) 1%positive 2 0 DLeaf 3%positive 3 0 DLeaf
           H1 H2 H3).
Defined.

(** X24.  [Node::Balance] under the precondition that its comment
    states (the balance factor of the node is -2 or 2, the balance
    factors of the node and of its descendants are exact) and with the
    factors below the node in -1..1: it returns the new top of the
    subtree, in which every balance factor is exact and -1, 0 or 1;
    the inorder sequence of nodes and items is unchanged; the height of
    the subtree is the same or one less; nothing outside the subtree
    is written (the caller links the returned node). *)
Theorem AVL_Balance_restores (h : gmap addr (Node Z Z)) (rt p : ptr)
    l x kx mx r :
  dlinked h p (DBr l x kx mx r) → NoDup (dnodes (DBr l x kx mx r)) →
  bf_exact (DBr l x kx mx r) = true → bf_small l = true → bf_small r = true →
  mx = -2 ∨ mx = 2 →
  ∃ h' S' q,
    AVLTree.Balance (mkTree h rt) (Some x) = Ok (mkTree h' rt, Some q)
    ∧ dtop S' = Some q
    ∧ dlinked h' p S'
    ∧ bf_exact S' = true ∧ bf_small S' = true
    ∧ dnodes S' = dnodes (DBr l x kx mx r)
    ∧ ditems S' = ditems (DBr l x kx mx r)
    ∧ (dheight S' = dheight (DBr l x kx mx r) - 1 ∨ dheight S' = dheight (DBr l x kx mx r))
    ∧ ∀ e, e ∉ dnodes (DBr l x kx mx r) → h' !! e = h !! e.
Proof. apply AVL_Balance_sub. Qed.

Lemma AVL_Balance_restores_witness :
  dlinked (heap avl_spine) None davl_spine
  ∧ NoDup (dnodes davl_spine)
  ∧ bf_exact davl_spine = true
  ∧ ∃ h' S' q,
    AVLTree.Balance (mkTree (heap avl_spine) (root avl_spine)) (Some 1%positive)
    = Ok (mkTree h' (root avl_spine), Some q)
    ∧ dtop S' = Some q
    ∧ dlinked h' None S'
    ∧ bf_exact S' = true ∧ bf_small S' = true
    ∧ dnodes S' = dnodes davl_spine
    ∧ ditems S' = ditems davl_spine
    ∧ (dheight S' = dheight davl_spine - 1 ∨ dheight S' = dheight davl_spine)
    ∧ ∀ e, e ∉ dnodes davl_spine → h' !! e = heap avl_spine !! e.
Proof.
  assert (H1 : dlinked (heap avl_spine) None davl_spine)
    by (repeat split; vm_compute; reflexivity).
  assert (H2 : NoDup (dnodes davl_spine))
    by (apply (bool_decide_unpack _); vm_compute; exact I).
  assert (H3 : bf_exact davl_spine = true) by (vm_compute; reflexivity).
  split; [exact H1|]. split; [exact H2|]. split; [exact H3|].
  exact (AVL_Balance_restores (heap avl_spine) (root avl_spine) None
           (DBr (DBr DLeaf 3%positive 1 0 DLeaf) 2%positive 2 (-1) DLeaf) 1%positive 3 (-2)
           DLeaf H1 H2 H3 eq_refl eq_refl (or_introl eq_refl)).
Defined.

(** ** [Remove] of the red-black tree *)

(** X25.  [Remove(x)] on a red-black search tree, where the node that
    holds [x] has at most one child and is not a black node without
    children below the root: it returns, the node is unlinked and
    deleted, its only child (made black when the node was black) takes
    its place, the tree is again a red-black search tree and holds the
    former items without [x], and [IsValid] returns true on it. *)
Theorem RB_Remove_simple_node (t : RBTree.T) (c : dctx Z RBTree.RBColor)
    l a x m r (fuel : nat) :
  holds t (dplug c (DBr l a x m r)) →
  StronglySorted Z.lt (ditems (dplug c (DBr l a x m r))) →
  rb_valid (dplug c (DBr l a x m r)) →
  l = DLeaf ∨ r = DLeaf →
  m = RBTree.Red ∨ c = DTop ∨ only_child l r ≠ DLeaf →
  (2 * dsize (dplug c (DBr l a x m r)) + 2 < fuel)%nat →
  ∃ t', RBTree.Remove fuel t x = Ok t'
        ∧ holds t' (dplug c (spliced m l r))
        ∧ heap t' !! a = None
        ∧ rb_valid (dplug c (spliced m l r))
        ∧ StronglySorted Z.lt (ditems (dplug c (spliced m l r)))
        ∧ (∀ y, y ∈ ditems (dplug c (spliced m l r))
                ↔ y ∈ ditems (dplug c (DBr l a x m r)) ∧ y ≠ x)
        ∧ RBTree.IsValid fuel t' = Ok true.
Proof.
  intros Hd Hs Hv Hone Hcase Hf.
  pose proof (ddepth_le_dsize c (DBr l a x m r)) as Hdep.
  destruct (RB_Remove_simple t c l a x m r fuel Hd Hs Hv Hone Hcase ltac:(lia))
    as (t' & HR & Hd' & Hfree & Hv' & Hs' & Hmem & Hsz).
  exists t'. split_and!; try done.
  rewrite (RB_IsValid_is_valid t' _ fuel Hd') by lia.
  by rewrite rb_valid_is_valid.
Qed.

Lemma RB_Remove_simple_node_witness :
  let c := DCL 1%positive 2 RBTree.Black (DBr DLeaf 3%positive 3 RBTree.Red DLeaf) DTop in
  holds rb_213 (dplug c (DBr DLeaf 2%positive 1 RBTree.Red DLeaf))
  ∧ ∃ t', RBTree.Remove 9 rb_213 1 = Ok t'
        ∧ holds t' (dplug c (spliced RBTree.Red DLeaf DLeaf))
        ∧ heap t' !! 2%positive = None
        ∧ rb_valid (dplug c (spliced RBTree.Red DLeaf DLeaf))
        ∧ StronglySorted Z.lt (ditems (dplug c (spliced RBTree.Red DLeaf DLeaf)))
        ∧ (∀ y, y ∈ ditems (dplug c (spliced RBTree.Red DLeaf DLeaf))
                ↔ y ∈ ditems (dplug c (DBr DLeaf 2%positive 1 RBTree.Red DLeaf)) ∧ y ≠ 1)
        ∧ RBTree.IsValid 9 t' = Ok true.
Proof.
  intros c.
  assert (H1 : holds rb_213 (dplug c (DBr DLeaf 2%positive 1 RBTree.Red DLeaf)))
    by (repeat split; vm_compute; reflexivity).
  assert (H2 : StronglySorted Z.lt
                 (ditems (dplug c (DBr DLeaf 2%positive 1 RBTree.Red DLeaf)))).
  { simpl. repeat constructor; lia. }
  assert (H3 : rb_valid (dplug c (DBr DLeaf 2%positive 1 RBTree.Red DLeaf))).
  { split; [reflexivity|]. split; [reflexivity|]. exists 1%nat. reflexivity. }
  assert (H4 : @DLeaf Z RBTree.RBColor = DLeaf ∨ @DLeaf Z RBTree.RBColor = DLeaf)
    by (left; reflexivity).
  assert (H5 : RBTree.Red = RBTree.Red ∨ c = DTop ∨ only_child DLeaf DLeaf ≠ DLeaf)
    by (left; reflexivity).
  assert (H6 : (2 * dsize (dplug c (DBr DLeaf 2%positive 1%Z RBTree.Red DLeaf)) + 2 < 9)%nat)
    by (simpl; lia).
  split; [exact H1|].
  exact (RB_Remove_simple_node rb_213 c DLeaf 2%positive 1 RBTree.Red DLeaf 9
           H1 H2 H3 H4 H5 H6).
Defined.

(** X26.  [Remove(x)] on a red-black search tree, where the node that
    holds [x] is black, has no children and is not the root: it
    returns, the node is unlinked and deleted and nothing else is
    changed ([RemoveFixup] is not run), so that the paths through the
    emptied link pass one black node less than the others: the tree is
    no longer a red-black tree. *)
Theorem RB_Remove_black_leaf_unbalances (t : RBTree.T) (c : dctx Z RBTree.RBColor)
    a x (fuel : nat) :
  holds t (dplug c (DBr DLeaf a x RBTree.Black DLeaf)) →
  StronglySorted Z.lt (ditems (dplug c (DBr DLeaf a x RBTree.Black DLeaf))) →
  rb_valid (dplug c (DBr DLeaf a x RBTree.Black DLeaf)) →
  c ≠ DTop →
  (ddepth c < fuel)%nat →
  ∃ t', RBTree.Remove fuel t x = Ok t'
        ∧ holds t' (dplug c DLeaf)
        ∧ heap t' !! a = None
        ∧ (∀ n, balanced n (dplug c DLeaf) = false)
        ∧ ¬ rb_valid (dplug c DLeaf).
Proof.
  intros Hd Hs (_ & _ & N & Hbal) Hc Hf.
  destruct (RB_Remove_black_leaf t c a x fuel Hd Hs Hf) as (t' & HR & Hd' & Hfree).
  pose proof (black_leaf_gone_unbalanced c a x N Hc Hbal) as Hun.
  exists t'. split_and!; try done.
  intros (_ & _ & n & Hn). by rewrite Hun in Hn.
Qed.

Lemma RB_Remove_black_leaf_unbalances_witness :
  let c := DCL 2%positive 2 RBTree.Black (DBr DLeaf 3%positive 3 RBTree.Black DLeaf) DTop in
  holds rb_black3 (dplug c (DBr DLeaf 1%positive 1 RBTree.Black DLeaf))
  ∧ ∃ t', RBTree.Remove 9 rb_black3 1 = Ok t'
        ∧ holds t' (dplug c DLeaf)
        ∧ heap t' !! 1%positive = None
        ∧ (∀ n, balanced n (dplug c DLeaf) = false)
        ∧ ¬ rb_valid (dplug c DLeaf).
Proof.
  intros c.
  assert (H1 : holds rb_black3 (dplug c (DBr DLeaf 1%positive 1 RBTree.Black DLeaf)))
    by (repeat split; vm_compute; reflexivity).
  assert (H2 : StronglySorted Z.lt
                 (ditems (dplug c (DBr DLeaf 1%positive 1 RBTree.Black DLeaf)))).
  { simpl. repeat constructor; lia. }
  assert (H3 : rb_valid (dplug c (DBr DLeaf 1%positive 1 RBTree.Black DLeaf))).
  { split; [reflexivity|]. split; [reflexivity|]. exists 2%nat. reflexivity. }
  assert (H4 : c ≠ DTop) by (intros E; discriminate E).
  assert (H5 : (ddepth c < 9)%nat) by (simpl; lia).
  split; [exact H1|].
  exact (RB_Remove_black_leaf_unbalances rb_black3 c 1%positive 1 9 H1 H2 H3 H4 H5).
Defined.

(** ** Postorder iteration and [Clear] on a well-linked tree *)

(** X27.  For every tree (of either kind) whose nodes are linked as a
    shape [s], every child naming its parent and no node occurring
    twice: the postorder iteration hands out the nodes of [s] in
    postorder (left subtree, right subtree, node: children before
    their parent), each node once; and [Clear], which frees each node
    as it is handed out and only then advances the iterator, runs to
    the end without touching a freed node and leaves the root null and
    every node of [s] freed, no other node being changed. *)
Theorem Postorder_and_Clear_well_linked {K M : Type} (t : Tree K M) (s : shape) (fuel : nat) :
  represents t s →
  (2 * size s + 2 < fuel)%nat →
  postorder_nodes fuel t = Ok (Some <$> postorder s)
  ∧ postorder s ≡ₚ nodes s
  ∧ NoDup (postorder s)
  ∧ ∃ t',
      Clear fuel t = Ok t'
      ∧ root t' = None
      ∧ ∀ a, heap t' !! a = if bool_decide (a ∈ nodes s) then None else heap t !! a.
Proof.
  intros Hrep Hf.
  split; [by apply postorder_nodes_represents|].
  split; [apply postorder_nodes_perm|].
  split.
  { rewrite postorder_nodes_perm. apply nodupb_NoDup. by destruct Hrep as (_ & _ & ?). }
  eexists. split; [by apply Clear_represents|]. split; [done|].
  intros a. simpl. rewrite lookup_free_all.
  destruct (decide (a ∈ nodes s)) as [Hin|Hin].
  - rewrite !bool_decide_eq_true_2; [done|done|by rewrite postorder_nodes_perm].
  - rewrite !bool_decide_eq_false_2; [done|done|by rewrite postorder_nodes_perm].
Qed.

Lemma Postorder_and_Clear_well_linked_witness :
  represents rb_213 shape_213
  ∧ (2 * size shape_213 + 2 < 9)%nat
  ∧ postorder_nodes 9 rb_213 = Ok (Some <$> postorder shape_213)
  ∧ postorder shape_213 ≡ₚ nodes shape_213
  ∧ NoDup (postorder shape_213)
  ∧ ∃ t',
      Clear 9 rb_213 = Ok t'
      ∧ root t' = None
      ∧ ∀ a, heap t' !! a
             = if bool_decide (a ∈ nodes shape_213) then None else heap rb_213 !! a.
Proof.
  assert (H1 : represents rb_213 shape_213) by (repeat split; vm_compute; reflexivity).
  assert (H2 : (2 * size shape_213 + 2 < 9)%nat) by (simpl; lia).
  split; [exact H1|]. split; [exact H2|].
  exact (Postorder_and_Clear_well_linked rb_213 shape_213 9 H1 H2).
Defined.

